(** * anon-infer-proxy: detection, substitution, mapping and signed round trip

    A shallow embedding of the TypeScript sources
      - utils/tokenDetector.ts   (TOKEN_PATTERNS, TokenDetector)
      - utils/crypto.ts          (CryptoUtils)
      - storage/memoryStorage.ts (MemoryStorage)
      - core/anonEngine.ts       (AnonEngine)
      - strategies/embeddingsStrategy.ts (classifyTokenType)
      - index.ts                 (the one-shot functions)
    together with the part of the JavaScript runtime they rest on
    (UTF-16 strings, RegExp matching, String.prototype.replace, Map, the
    digests of Node's crypto module).

    Conventions.
      - A JavaScript string is the list of its UTF-16 code units.
      - An insertion-ordered [Map] is an association list without repeated
        keys, oldest entry first.
      - [Date.now()] and [randomBytes] are inputs of the operations that
        call them.
      - A function that can [throw] returns a [result]. *)

From Stdlib Require Import String Ascii.
From Stdlib Require Import List ZArith NArith Bool Lia Arith PeanoNat.
From Stdlib Require Import Sorting.Sorted Sorting.Permutation.
Import ListNotations.

Set Implicit Arguments.

(* ------------------------------------------------------------------------ *)
(** ** JavaScript strings *)

Module JS.

(** A string value: its UTF-16 code units. *)
Definition jsstring : Type := list N.

Definition code_unit (c : N) : Prop := (c < 65536)%N.

(** Every element is a 16-bit code unit, as for every string the runtime
    can build. *)
Definition wf_string (s : jsstring) : Prop := Forall code_unit s.

(** A literal of the source text (code units below 256). *)
Definition lit (s : string) : jsstring :=
  List.map N_of_ascii (list_ascii_of_string s).

(** The code unit of a character literal. *)
Definition ch (a : ascii) : N := N_of_ascii a.

Fixpoint eqb (a b : jsstring) : bool :=
  match a, b with
  | [], [] => true
  | x :: a', y :: b' => N.eqb x y && eqb a' b'
  | _, _ => false
  end.

(** [s.substring(a, b)]: both ends clamped to the length, swapped when
    [a > b]. *)
Definition substring (s : jsstring) (a b : nat) : jsstring :=
  let a' := Nat.min a (length s) in
  let b' := Nat.min b (length s) in
  let lo := Nat.min a' b' in
  let hi := Nat.max a' b' in
  firstn (hi - lo) (skipn lo s).

(** [s.slice(0, e)] and [s.slice(b)] for non-negative indices. *)
Definition slice_to (s : jsstring) (e : nat) : jsstring := firstn e s.
Definition slice_from (s : jsstring) (b : nat) : jsstring := skipn b s.

Fixpoint starts_with (p s : jsstring) : bool :=
  match p, s with
  | [], _ => true
  | x :: p', y :: s' => N.eqb x y && starts_with p' s'
  | _ :: _, [] => false
  end.

(** [s.includes(p)] *)
Fixpoint includes (s p : jsstring) : bool :=
  starts_with p s ||
  match s with
  | [] => false
  | _ :: s' => includes s' p
  end.

Definition is_upper (c : N) : bool := (65 <=? c)%N && (c <=? 90)%N.
Definition is_lower (c : N) : bool := (97 <=? c)%N && (c <=? 122)%N.
Definition is_digit (c : N) : bool := (48 <=? c)%N && (c <=? 57)%N.
Definition is_alnum (c : N) : bool := is_upper c || is_lower c || is_digit c.

(** [toLowerCase] on one code unit: exact on ASCII and on the Latin-1
    letters; code units above 255 are left as they are.  The runtime
    lower-cases those too, and writes two code units for U+0130: on a text
    with code units above 255 this is not [toLowerCase], and what is proved
    of a value read through it is stated for Latin-1 text. *)
Definition lower_unit (c : N) : N :=
  if is_upper c then (c + 32)%N
  else if (192 <=? c)%N && (c <=? 222)%N && negb (c =? 215)%N then (c + 32)%N
  else c.

Definition toLowerCase (s : jsstring) : jsstring := List.map lower_unit s.

(** JavaScript truthiness of a string: the empty string is falsy. *)
Definition truthy (s : jsstring) : bool :=
  match s with [] => false | _ :: _ => true end.

(** Truthiness of an optional string ([undefined] is falsy). *)
Definition truthy_opt (s : option jsstring) : bool :=
  match s with None => false | Some s' => truthy s' end.

End JS.

Import JS.

(* ------------------------------------------------------------------------ *)
(** ** Regular expressions

    The backtracking matcher of ECMA-262 for the constructs the pattern
    catalogue uses.  A character set lists inclusive ranges of code units;
    under the [i] flag a code unit matches a set when it or its ASCII case
    counterpart is in it (the canonicalisation of ECMA-262 never maps a
    code unit above 127 to one below). *)

Module Regex.

Inductive regex : Type :=
| Empty
| CharSet (neg : bool) (ranges : list (N * N))
| Seq (r1 r2 : regex)
| Alt (r1 r2 : regex)
| Repeat (r : regex) (min : nat) (max : option nat)   (* greedy {min,max} *)
| Group (i : nat) (r : regex)                         (* capturing group *)
| WordBoundary                                        (* \b *)
| NegLookahead (r : regex).                           (* (?!r) *)

(** A position in the subject: index, the code unit before it, the rest. *)
Record cursor : Type := mkCursor {
  c_pos : nat;
  c_prev : option N;
  c_rest : jsstring
}.

(** Group number, start and end of the captured text. *)
Definition captures : Type := list (nat * (nat * nat)).

Definition in_ranges (rs : list (N * N)) (c : N) : bool :=
  existsb (fun r => (fst r <=? c)%N && (c <=? snd r)%N) rs.

Definition swap_case (c : N) : N :=
  if is_upper c then (c + 32)%N else if is_lower c then (c - 32)%N else c.

Definition set_member (ignoreCase : bool) (rs : list (N * N)) (c : N) : bool :=
  in_ranges rs c || (ignoreCase && in_ranges rs (swap_case c)).

(** \w is [A-Za-z0-9_]. *)
Definition is_word (c : N) : bool := is_alnum c || (c =? 95)%N.

Definition is_word_opt (c : option N) : bool :=
  match c with None => false | Some x => is_word x end.

Definition at_word_boundary (x : cursor) : bool :=
  xorb (is_word_opt (c_prev x)) (is_word_opt (hd_error (c_rest x))).

Definition cont : Type := cursor -> captures -> option (cursor * captures).

(** RepeatMatcher: [body] matches one turn of a greedy quantifier
    [{mn,mx}].  A turn that matches the empty string once the minimum is
    reached is refused, so every turn either lowers [mn] or moves on in the
    subject: [fuel] above [mn] plus the number of code units left is never
    used up. *)
Fixpoint repeat_match (body : cont -> cont) (k : cont) (fuel mn : nat) (mx : option nat)
  (x : cursor) (cs : captures) {struct fuel} : option (cursor * captures) :=
  match fuel with
  | O => None
  | S fuel' =>
      match mx with
      | Some O => k x cs
      | _ =>
          let again :=
            body
              (fun y cs' =>
                 if (mn =? 0) && (c_pos y =? c_pos x) then None
                 else repeat_match body k fuel' (Nat.pred mn) (option_map Nat.pred mx) y cs')
              x cs in
          if mn =? 0
          then match again with
               | Some res => Some res
               | None => k x cs
               end
          else again
      end
  end.

Section Matcher.

Variable ignoreCase : bool.

(** [rmatch r k x cs]: match [r] at [x], then continue with [k]; [None] is
    failure, after which the caller backtracks. *)
Fixpoint rmatch (r : regex) (k : cont) (x : cursor) (cs : captures)
  {struct r} : option (cursor * captures) :=
  match r with
  | Empty => k x cs
  | CharSet neg rs =>
      match c_rest x with
      | [] => None
      | c :: tl =>
          if xorb neg (set_member ignoreCase rs c)
          then k (mkCursor (S (c_pos x)) (Some c) tl) cs
          else None
      end
  | Seq r1 r2 => rmatch r1 (fun y cs' => rmatch r2 k y cs') x cs
  | Alt r1 r2 =>
      match rmatch r1 k x cs with
      | Some res => Some res
      | None => rmatch r2 k x cs
      end
  | Repeat r1 mn mx =>
      repeat_match (rmatch r1) k (S (mn + length (c_rest x))) mn mx x cs
  | Group i r1 =>
      rmatch r1 (fun y cs' => k y ((i, (c_pos x, c_pos y)) :: cs')) x cs
  | WordBoundary => if at_word_boundary x then k x cs else None
  | NegLookahead r1 =>
      match rmatch r1 (fun y cs' => Some (y, cs')) x cs with
      | Some _ => None
      | None => k x cs
      end
  end.

End Matcher.

(** A [RegExp] object's pattern and the two flags that matter here. *)
Record RegExp : Type := mkRegExp {
  source : regex;
  flag_i : bool;
  flag_g : bool
}.

(** The array [exec] returns: [index], the end of [match[0]], the groups. *)
Record exec_result : Type := mkExec {
  m_index : nat;
  m_end : nat;
  m_groups : captures
}.

Definition cursor_at (s : jsstring) (i : nat) : cursor :=
  mkCursor i (match i with O => None | S j => nth_error s j end) (skipn i s).

Definition match_at (re : RegExp) (s : jsstring) (i : nat) : option exec_result :=
  match rmatch (flag_i re) (source re) (fun y cs => Some (y, cs)) (cursor_at s i) [] with
  | Some (y, cs) => Some (mkExec i (c_pos y) cs)
  | None => None
  end.

(** Try the start indices [i], [i+1], ... up to the length of [s]. *)
Fixpoint scan (n : nat) (re : RegExp) (s : jsstring) (i : nat) : option exec_result :=
  match match_at re s i with
  | Some m => Some m
  | None =>
      match n with
      | O => None
      | S n' => scan n' re s (S i)
      end
  end.

(** [re.exec(s)] with [re.lastIndex = lastIndex]; a regular expression
    without the [g] flag always starts at 0. *)
Definition exec (re : RegExp) (s : jsstring) (lastIndex : nat) : option exec_result :=
  let start := if flag_g re then lastIndex else 0 in
  if length s <? start then None
  else scan (length s - start) re s start.

(** [match[0]] *)
Definition matched (s : jsstring) (m : exec_result) : jsstring :=
  substring s (m_index m) (m_end m).

(** [match[i]]: [undefined] when the group took no part in the match. *)
Fixpoint group_span (i : nat) (cs : captures) : option (nat * nat) :=
  match cs with
  | [] => None
  | (j, sp) :: cs' => if j =? i then Some sp else group_span i cs'
  end.

Definition group (s : jsstring) (m : exec_result) (i : nat) : option jsstring :=
  match group_span i (m_groups m) with
  | Some (a, b) => Some (substring s a b)
  | None => None
  end.

(** The loop [while ((match = re.exec(s)) !== null) { ... }] after
    [re.lastIndex = 0]: the matches it visits, in order.  [exec] leaves
    [lastIndex] at the end of the match, so an empty match is found again
    and again, and so is any match of a regular expression without [g]:
    the loop then never ends, which is [None].  [fuel] bounds the number
    of iterations; [length s + 1] is always enough, since every non-empty
    match moves [lastIndex] forward. *)
Fixpoint exec_loop (fuel : nat) (re : RegExp) (s : jsstring) (lastIndex : nat)
  : option (list exec_result) :=
  match exec re s lastIndex with
  | None => Some []
  | Some m =>
      if negb (flag_g re) || (m_end m <=? m_index m) then None
      else
        match fuel with
        | O => None
        | S fuel' =>
            match exec_loop fuel' re s (m_end m) with
            | Some ms => Some (m :: ms)
            | None => None
            end
        end
  end.

Definition exec_all (re : RegExp) (s : jsstring) : option (list exec_result) :=
  exec_loop (length s) re s 0.

(** *** Abbreviations for writing patterns *)

Definition chr (a : ascii) : regex := CharSet false [(ch a, ch a)].

Fixpoint seq_of (l : list regex) : regex :=
  match l with
  | [] => Empty
  | [r] => r
  | r :: l' => Seq r (seq_of l')
  end.

Fixpoint alt_of (l : list regex) : regex :=
  match l with
  | [] => Empty
  | [r] => r
  | r :: l' => Alt r (alt_of l')
  end.

(** A literal word of the pattern. *)
Definition str (s : string) : regex :=
  seq_of (List.map chr (list_ascii_of_string s)).

Definition rng (a b : ascii) : N * N := (ch a, ch b).
Definition one (a : ascii) : N * N := (ch a, ch a).

Definition opt (r : regex) : regex := Repeat r 0 (Some 1).
Definition star (r : regex) : regex := Repeat r 0 None.
Definition plus (r : regex) : regex := Repeat r 1 None.
Definition exactly (n : nat) (r : regex) : regex := Repeat r n (Some n).
Definition at_least (n : nat) (r : regex) : regex := Repeat r n None.
Definition between (n m : nat) (r : regex) : regex := Repeat r n (Some m).

(** \s: the white space and line terminator code units. *)
Definition white_space : list (N * N) :=
  [(9, 13); (32, 32); (160, 160); (5760, 5760); (8192, 8202); (8232, 8233);
   (8239, 8239); (8287, 8287); (12288, 12288); (65279, 65279)]%N.

Definition quote : N * N := (34, 34)%N.        (* the double quote *)
Definition apostrophe : N * N := (39, 39)%N.

(** [/^r$/.test(s)] for a pattern anchored at both ends, without the flags
    [g] and [m]: [^] lets a match start at index 0 only, and [$] is the
    last thing the pattern asks for, that the match ends where [s] ends. *)
Definition at_end : cont :=
  fun y cs => match c_rest y with [] => Some (y, cs) | _ :: _ => None end.

Definition test_anchored (ignoreCase : bool) (r : regex) (s : jsstring) : bool :=
  match rmatch ignoreCase r at_end (cursor_at s 0) [] with
  | Some _ => true
  | None => false
  end.

End Regex.

Import Regex.

(* ------------------------------------------------------------------------ *)
(** ** utils/tokenDetector.ts *)

Module TokenDetector.

(** The keys of [TOKEN_PATTERNS]. *)
Inductive PatternName : Type :=
| API_KEY | ACCESS_TOKEN | SECRET_KEY
| BEARER_TOKEN | JWT_TOKEN
| PASSWORD | DATABASE_URL
| AWS_ACCESS_KEY | AWS_SECRET_KEY | AZURE_CLIENT_SECRET
| EMAIL | PHONE | SSN | CREDIT_CARD
| PRIVATE_IP
| UUID | HEX_TOKEN | BASE64_TOKEN.

Definition lower : N * N := rng "a" "z".
Definition upper : N * N := rng "A" "Z".
Definition digits : N * N := rng "0" "9".
Definition digit : regex := CharSet false [digits].

(** [[a-zA-Z0-9_\-\.]] *)
Definition key_chars : regex :=
  CharSet false [lower; upper; digits; one "_"; one "-"; one "."].

(** The class of the double quote and \s. *)
Definition quote_or_space : regex := CharSet false (quote :: white_space).

(** The class of everything but \s, the double quote and the apostrophe. *)
Definition no_space_or_quote : regex :=
  CharSet true (white_space ++ [quote; apostrophe]).

(** [Q*[:=]Q*(body)], with Q the class of the double quote and \s. *)
Definition assigned (body : regex) : regex :=
  seq_of [star quote_or_space; CharSet false [one ":"; one "="];
          star quote_or_space; Group 1 body].

(** [[-.\s]] *)
Definition phone_sep : regex := CharSet false (one "-" :: one "." :: white_space).

(** [(?:25[0-5]|2[0-4][0-9]|[01]?[0-9][0-9]?)] *)
Definition octet : regex :=
  alt_of [seq_of [str "25"; CharSet false [rng "0" "5"]];
          seq_of [chr "2"; CharSet false [rng "0" "4"]; digit];
          seq_of [opt (CharSet false [one "0"; one "1"]); digit; opt digit]].

Definition hex_lower : regex := CharSet false [digits; rng "a" "f"].

Definition pattern_source (p : PatternName) : regex :=
  match p with
  | API_KEY =>
      (* (?:api[_-]?key|apikey|key)Q*[:=]Q*([a-zA-Z0-9_\-\.]{16,}) *)
      Seq (alt_of [seq_of [str "api"; opt (CharSet false [one "_"; one "-"]); str "key"];
                   str "apikey"; str "key"])
          (assigned (at_least 16 key_chars))
  | ACCESS_TOKEN =>
      (* (?:access[_-]?token|accesstoken|token)Q*[:=]Q*([a-zA-Z0-9_\-\.]{16,}) *)
      Seq (alt_of [seq_of [str "access"; opt (CharSet false [one "_"; one "-"]); str "token"];
                   str "accesstoken"; str "token"])
          (assigned (at_least 16 key_chars))
  | SECRET_KEY =>
      (* (?:secret[_-]?key|secretkey|secret)Q*[:=]Q*([a-zA-Z0-9_\-\.]{16,}) *)
      Seq (alt_of [seq_of [str "secret"; opt (CharSet false [one "_"; one "-"]); str "key"];
                   str "secretkey"; str "secret"])
          (assigned (at_least 16 key_chars))
  | BEARER_TOKEN =>
      (* Bearer\s+([a-zA-Z0-9_\-\.]{16,}) *)
      seq_of [str "Bearer"; plus (CharSet false white_space);
              Group 1 (at_least 16 key_chars)]
  | JWT_TOKEN =>
      (* eyJ[a-zA-Z0-9_\-]+\.eyJ[a-zA-Z0-9_\-]+\.[a-zA-Z0-9_\-]+ *)
      let part := plus (CharSet false [lower; upper; digits; one "_"; one "-"]) in
      seq_of [str "eyJ"; part; chr "."; str "eyJ"; part; chr "."; part]
  | PASSWORD =>
      (* (?:password|passwd|pwd)Q*[:=]Q*(P{8,})   with P = no_space_or_quote *)
      Seq (alt_of [str "password"; str "passwd"; str "pwd"])
          (assigned (at_least 8 no_space_or_quote))
  | DATABASE_URL =>
      (* (?:database[_-]?url|db[_-]?url)Q*[:=]Q*(P{10,})   with P = no_space_or_quote *)
      Seq (alt_of [seq_of [str "database"; opt (CharSet false [one "_"; one "-"]); str "url"];
                   seq_of [str "db"; opt (CharSet false [one "_"; one "-"]); str "url"]])
          (assigned (at_least 10 no_space_or_quote))
  | AWS_ACCESS_KEY =>
      (* AKIA[0-9A-Z]{16} *)
      seq_of [str "AKIA"; exactly 16 (CharSet false [digits; upper])]
  | AWS_SECRET_KEY =>
      (* [a-zA-Z0-9\/+=]{40} *)
      exactly 40 (CharSet false [lower; upper; digits; one "/"; one "+"; one "="])
  | AZURE_CLIENT_SECRET =>
      (* [a-zA-Z0-9~\-._]{34,} *)
      at_least 34 (CharSet false [lower; upper; digits; one "~"; one "-"; one "."; one "_"])
  | EMAIL =>
      (* \b[A-Za-z0-9._%+-]+@[A-Za-z0-9.-]+\.[A-Z|a-z]{2,}\b *)
      seq_of [WordBoundary;
              plus (CharSet false [upper; lower; digits; one "."; one "_"; one "%";
                                   one "+"; one "-"]);
              chr "@";
              plus (CharSet false [upper; lower; digits; one "."; one "-"]);
              chr ".";
              at_least 2 (CharSet false [upper; one "|"; lower]);
              WordBoundary]
  | PHONE =>
      (* (?:\+?1[-.\s]?)?\(?[0-9]{3}\)?[-.\s]?[0-9]{3}[-.\s]?[0-9]{4} *)
      seq_of [opt (seq_of [opt (chr "+"); chr "1"; opt phone_sep]);
              opt (chr "("); exactly 3 digit; opt (chr ")"); opt phone_sep;
              exactly 3 digit; opt phone_sep; exactly 4 digit]
  | SSN =>
      (* (?!000|666)[0-8][0-9]{2}-(?!00)[0-9]{2}-(?!0000)[0-9]{4} *)
      seq_of [NegLookahead (alt_of [str "000"; str "666"]);
              CharSet false [rng "0" "8"]; exactly 2 digit; chr "-";
              NegLookahead (str "00"); exactly 2 digit; chr "-";
              NegLookahead (str "0000"); exactly 4 digit]
  | CREDIT_CARD =>
      (* (?:4[0-9]{12}(?:[0-9]{3})?|5[1-5][0-9]{14}|3[47][0-9]{13}|3[0-9]{13}
            |6(?:011|5[0-9]{2})[0-9]{12}) *)
      alt_of [seq_of [chr "4"; exactly 12 digit; opt (exactly 3 digit)];
              seq_of [chr "5"; CharSet false [rng "1" "5"]; exactly 14 digit];
              seq_of [chr "3"; CharSet false [one "4"; one "7"]; exactly 13 digit];
              seq_of [chr "3"; exactly 13 digit];
              seq_of [chr "6"; alt_of [str "011"; seq_of [chr "5"; exactly 2 digit]];
                      exactly 12 digit]]
  | PRIVATE_IP =>
      (* 10\.o\.o\.o | 172\.(?:1[6-9]|2[0-9]|3[0-1])\.o\.o | 192\.168\.o\.o *)
      alt_of [seq_of [str "10"; chr "."; octet; chr "."; octet; chr "."; octet];
              seq_of [str "172"; chr ".";
                      alt_of [seq_of [chr "1"; CharSet false [rng "6" "9"]];
                              seq_of [chr "2"; digit];
                              seq_of [chr "3"; CharSet false [rng "0" "1"]]];
                      chr "."; octet; chr "."; octet];
              seq_of [str "192"; chr "."; str "168"; chr "."; octet; chr "."; octet]]
  | UUID =>
      (* [0-9a-f]{8}-[0-9a-f]{4}-[0-9a-f]{4}-[0-9a-f]{4}-[0-9a-f]{12} *)
      seq_of [exactly 8 hex_lower; chr "-"; exactly 4 hex_lower; chr "-";
              exactly 4 hex_lower; chr "-"; exactly 4 hex_lower; chr "-";
              exactly 12 hex_lower]
  | HEX_TOKEN =>
      (* [a-fA-F0-9]{32,} *)
      at_least 32 (CharSet false [rng "a" "f"; rng "A" "F"; digits])
  | BASE64_TOKEN =>
      (* [A-Za-z0-9+/]{20,}={0,2} *)
      seq_of [at_least 20 (CharSet false [upper; lower; digits; one "+"; one "/"]);
              between 0 2 (chr "=")]
  end.

(** [TOKEN_PATTERNS]: every pattern of the catalogue carries the flags [gi]. *)
Definition TOKEN_PATTERNS (p : PatternName) : RegExp :=
  mkRegExp (pattern_source p) true true.

(** [TokenDetectionConfig] *)
Record TokenDetectionConfig : Type := mkConfig {
  patterns : list PatternName;
  minLength : Z;
  customPatterns : option (list RegExp);
  exclusions : option (list jsstring);
  caseSensitive : bool
}.

Definition DEFAULT_DETECTION_CONFIG : TokenDetectionConfig :=
  mkConfig
    [API_KEY; ACCESS_TOKEN; SECRET_KEY; BEARER_TOKEN; JWT_TOKEN; PASSWORD;
     EMAIL; PHONE; PRIVATE_IP; UUID]
    8
    None
    (Some [lit "localhost"; lit "127.0.0.1"; lit "example.com"; lit "test@example.com"])
    false.

(** The [type] field of a token: a pattern name or the string 'CUSTOM'. *)
Inductive TokenType : Type :=
| Named (p : PatternName)
| CUSTOM.

(** [DetectedToken]; [confidence] is kept in hundredths, an exact decimal
    where the code has a double.  The sums of [calculateConfidence] are
    exact here; in the code they carry the rounding of binary floating
    point (0.8 - 0.1 is 0.7000000000000001), which is far below the steps
    of 0.1 and can only show when two confidences that are equal here are
    compared. *)
Record DetectedToken : Type := mkToken {
  value : jsstring;
  type : TokenType;
  startIndex : nat;
  endIndex : nat;
  confidence : Z
}.

(** *** calculateEntropy *)

Definition is_high_surrogate (c : N) : bool := (55296 <=? c)%N && (c <=? 56319)%N.
Definition is_low_surrogate (c : N) : bool := (56320 <=? c)%N && (c <=? 57343)%N.

(** [for (const char of str)] walks code points: a surrogate pair is one
    character. *)
Fixpoint code_points (s : jsstring) : list jsstring :=
  match s with
  | [] => []
  | h :: t =>
      match t with
      | l :: t' =>
          if is_high_surrogate h && is_low_surrogate l
          then [h; l] :: code_points t'
          else [h] :: code_points t
      | [] => [[h]]
      end
  end.

(** [freq[char] = (freq[char] || 0) + 1] *)
Fixpoint bump (c : jsstring) (freq : list (jsstring * nat)) : list (jsstring * nat) :=
  match freq with
  | [] => [(c, 1)]
  | (d, n) :: freq' => if JS.eqb c d then (d, S n) :: freq' else (d, n) :: bump c freq'
  end.

Definition frequencies (s : jsstring) : list (jsstring * nat) :=
  fold_left (fun freq c => bump c freq) (code_points s) [].

(** The entropy is [sum (c/n) * log2 (n/c)] over the counts [c], with [n]
    the length in code units.  Only its comparisons with 4 and with 2 are
    used, and those are decided exactly:
      entropy > k  <->  n ^ (sum c) > 2 ^ (k n) * prod (c ^ c).
    The code sums doubles; its comparison can differ from the exact one
    only for a string whose entropy is [k] up to the rounding of the
    sum. *)
Definition entropy_sides (s : jsstring) (k : Z) : Z * Z :=
  let counts := List.map (fun e => Z.of_nat (snd e)) (frequencies s) in
  let n := Z.of_nat (length s) in
  let m := fold_right Z.add 0%Z counts in
  ((n ^ m)%Z, (2 ^ (k * n) * fold_right (fun c acc => c ^ c * acc) 1 counts)%Z).

Definition entropy_gt (s : jsstring) (k : Z) : bool :=
  match s with
  | [] => false
  | _ => let (l, r) := entropy_sides s k in (r <? l)%Z
  end.

Definition entropy_lt (s : jsstring) (k : Z) : bool :=
  match s with
  | [] => true
  | _ => let (l, r) := entropy_sides s k in (l <? r)%Z
  end.

(** *** calculateConfidence *)

Definition baseConfidence (p : PatternName) : Z :=
  match p with
  | JWT_TOKEN => 95
  | AWS_ACCESS_KEY => 95
  | BEARER_TOKEN => 90
  | API_KEY => 85
  | SECRET_KEY => 85
  | EMAIL => 90
  | UUID => 90
  | CREDIT_CARD => 95
  | PHONE => 80
  | PRIVATE_IP => 80
  | PASSWORD => 70
  | HEX_TOKEN => 60
  | BASE64_TOKEN => 60
  | _ => 50
  end.

Definition calculateConfidence (p : PatternName) (v : jsstring) : Z :=
  let c0 := baseConfidence p in
  let c1 := if 50 <? length v then (c0 + 10)%Z
            else if length v <? 16 then (c0 - 10)%Z
            else c0 in
  let c2 := if entropy_gt v 4 then (c1 + 10)%Z
            else if entropy_lt v 2 then (c1 - 20)%Z
            else c1 in
  Z.max 0 (Z.min 100 c2).

(** *** deduplicateTokens *)

(** The test of [result.some(existing => ...)] and of [findIndex]. *)
Definition overlaps (token existing : DetectedToken) : bool :=
  ((startIndex existing <=? startIndex token) && (startIndex token <? endIndex existing))
  || ((startIndex existing <? endIndex token) && (endIndex token <=? endIndex existing))
  || ((startIndex token <=? startIndex existing) && (endIndex existing <=? endIndex token)).

(** [tokens.sort((a, b) => a.startIndex - b.startIndex)]: the sort of the
    runtime is stable. *)
Fixpoint insert_by_start (t : DetectedToken) (l : list DetectedToken) : list DetectedToken :=
  match l with
  | [] => [t]
  | h :: l' =>
      if startIndex t <=? startIndex h then t :: l else h :: insert_by_start t l'
  end.

Definition sort_by_start (l : list DetectedToken) : list DetectedToken :=
  fold_right insert_by_start [] l.

(** [result.findIndex(p)] *)
Fixpoint findIndex (p : DetectedToken -> bool) (l : list DetectedToken) : option nat :=
  match l with
  | [] => None
  | h :: l' => if p h then Some 0 else option_map S (findIndex p l')
  end.

(** [result[i] = token] for [i] within the array. *)
Fixpoint set_at (i : nat) (t : DetectedToken) (l : list DetectedToken) : list DetectedToken :=
  match l, i with
  | [], _ => []
  | _ :: l', O => t :: l'
  | h :: l', S j => h :: set_at j t l'
  end.

(** One turn of the loop [for (const token of tokens)]. *)
Definition dedup_step (result : list DetectedToken) (token : DetectedToken)
  : list DetectedToken :=
  if negb (existsb (overlaps token) result) then result ++ [token]
  else
    match findIndex (overlaps token) result with
    | Some i =>
        match nth_error result i with
        | Some existing =>
            if (confidence existing <? confidence token)%Z
            then set_at i token result
            else result
        | None => result
        end
    | None => result
    end.

Definition deduplicateTokens (tokens : list DetectedToken) : list DetectedToken :=
  fold_left dedup_step (sort_by_start tokens) [].

(** *** detectTokens *)

(** [exclusions?.includes(v)] *)
Definition excluded (cfg : TokenDetectionConfig) (v : jsstring) : bool :=
  match exclusions cfg with
  | None => false
  | Some l => existsb (JS.eqb v) l
  end.

(** [match[1] || match[0]] *)
Definition group_or_match (s : jsstring) (m : exec_result) : jsstring :=
  match group s m 1 with
  | Some g => if truthy g then g else matched s m
  | None => matched s m
  end.

(** The body of the inner [while] loop for one match of a named pattern:
    the token pushed, if any. *)
Definition named_token (cfg : TokenDetectionConfig) (text processedText : jsstring)
  (p : PatternName) (m : exec_result) : option DetectedToken :=
  let v := group_or_match processedText m in
  if (Z.of_nat (length v) <? minLength cfg)%Z || excluded cfg (toLowerCase v) then None
  else
    Some (mkToken
            (if caseSensitive cfg then v
             else substring text (m_index m) (m_index m + length v))
            (Named p)
            (m_index m)
            (m_index m + length v)
            (calculateConfidence p v)).

(** The same for a custom pattern. *)
Definition custom_token (cfg : TokenDetectionConfig) (text processedText : jsstring)
  (m : exec_result) : option DetectedToken :=
  let v := matched processedText m in
  if (minLength cfg <=? Z.of_nat (length v))%Z then
    Some (mkToken
            (if caseSensitive cfg then v
             else substring text (m_index m) (m_index m + length v))
            CUSTOM
            (m_index m)
            (m_index m + length v)
            70)
  else None.

Fixpoint keep_some {A : Type} (l : list (option A)) : list A :=
  match l with
  | [] => []
  | Some a :: l' => a :: keep_some l'
  | None :: l' => keep_some l'
  end.

(** All tokens pushed by the loops over one pattern, when they end. *)
Definition run_pattern (re : RegExp) (processedText : jsstring)
  (body : exec_result -> option DetectedToken) : option (list DetectedToken) :=
  match exec_all re processedText with
  | Some ms => Some (keep_some (List.map body ms))
  | None => None
  end.

(** Runs the loops one after the other; [None] as soon as one never ends. *)
Fixpoint run_all (runs : list (option (list DetectedToken))) : option (list DetectedToken) :=
  match runs with
  | [] => Some []
  | None :: _ => None
  | Some ts :: runs' =>
      match run_all runs' with
      | Some ts' => Some (ts ++ ts')
      | None => None
      end
  end.

(** The array [detected] before [deduplicateTokens]. *)
Definition candidates (cfg : TokenDetectionConfig) (text : jsstring)
  : option (list DetectedToken) :=
  let processedText := if caseSensitive cfg then text else toLowerCase text in
  run_all
    (List.map (fun p => run_pattern (TOKEN_PATTERNS p) processedText
                          (named_token cfg text processedText p))
              (patterns cfg)
     ++
     match customPatterns cfg with
     | None => []
     | Some res =>
         List.map (fun re => run_pattern re processedText
                               (custom_token cfg text processedText))
                  res
     end).

(** [detectTokens(text)]; [None] when a matching loop never ends. *)
Definition detectTokens (cfg : TokenDetectionConfig) (text : jsstring)
  : option (list DetectedToken) :=
  match candidates cfg text with
  | Some detected => Some (deduplicateTokens detected)
  | None => None
  end.

(** [hasSensitiveTokens(text)] *)
Definition hasSensitiveTokens (cfg : TokenDetectionConfig) (text : jsstring) : option bool :=
  match detectTokens cfg text with
  | Some tokens => Some (0 <? length tokens)
  | None => None
  end.

End TokenDetector.

Import TokenDetector.

(* ------------------------------------------------------------------------ *)
(** ** core/types.ts *)

Inductive AnonymizationStrategy : Type := HASH_SALT | EMBEDDINGS.

Inductive StorageBackend : Type := MEMORY | VAULT.

(** The three error classes; the message is kept without its interpolated
    parts. *)
Inductive error : Type :=
| ValidationError (message : string)
| StorageError (message : string)
| SignatureError (message : string).

(** The outcome of a call that can throw. *)
Inductive result (A : Type) : Type :=
| Ok (a : A)
| Throw (e : error).

Arguments Ok {A} a.
Arguments Throw {A} e.

Definition is_ok {A : Type} (r : result A) : bool :=
  match r with Ok _ => true | Throw _ => false end.

Definition is_signature_error {A : Type} (r : result A) : bool :=
  match r with Throw (SignatureError _) => true | _ => false end.

Module AnonProxyConfig.
Record t : Type := make {
  strategy : AnonymizationStrategy;
  storage : StorageBackend;
  enableSignatures : bool;
  signatureSecret : option jsstring;
  enableLogging : bool;
  customSalt : option jsstring
}.
End AnonProxyConfig.

Module AnonymizationResult.
Record t : Type := make {
  anonPrompt : jsstring;
  mapId : jsstring;
  signature : option jsstring
}.
End AnonymizationResult.

(** An insertion-ordered [Map<string, V>]: oldest entry first, no key
    twice. *)
Module JsMap.

Section WithValue.

Variable V : Type.

Definition t : Type := list (jsstring * V).

Fixpoint get (m : t) (k : jsstring) : option V :=
  match m with
  | [] => None
  | (k', v) :: m' => if JS.eqb k k' then Some v else get m' k
  end.

Definition has (m : t) (k : jsstring) : bool :=
  match get m k with Some _ => true | None => false end.

(** [m.set(k, v)]: a present key keeps its place. *)
Fixpoint set (m : t) (k : jsstring) (v : V) : t :=
  match m with
  | [] => [(k, v)]
  | (k', v') :: m' => if JS.eqb k k' then (k', v) :: m' else (k', v') :: set m' k v
  end.

Fixpoint delete (m : t) (k : jsstring) : t :=
  match m with
  | [] => []
  | (k', v') :: m' => if JS.eqb k k' then m' else (k', v') :: delete m' k
  end.

Definition size (m : t) : nat := length m.

(** [m.keys().next().value] *)
Definition first_key (m : t) : option jsstring :=
  match m with
  | [] => None
  | (k, _) :: _ => Some k
  end.

Definition keys (m : t) : list jsstring := List.map fst m.

End WithValue.

End JsMap.

Module MappingData.
Record t : Type := make {
  id : jsstring;
  mappings : JsMap.t jsstring;
  createdAt : Z;
  signature : option jsstring;
  strategy : AnonymizationStrategy
}.

(** [{ ...mappingData, createdAt: now }] *)
Definition with_createdAt (d : t) (now : Z) : t :=
  make (id d) (mappings d) now (signature d) (strategy d).

(** [mappingData.signature = s] *)
Definition with_signature (d : t) (s : option jsstring) : t :=
  make (id d) (mappings d) (createdAt d) s (strategy d).

End MappingData.

(** [StorageInterface], over the state [S] of a backend.  Every method hands
    back the state it leaves; the clock reading of a call is its last
    argument. *)
Class StorageInterface (S : Type) : Type := {
  store : S -> jsstring -> MappingData.t -> Z -> result unit * S;
  retrieve : S -> jsstring -> Z -> result (option MappingData.t) * S;
  delete : S -> jsstring -> result unit * S
}.

(** [AnonymizationStrategyInterface] *)
Record StrategyImpl : Type := mkStrategy {
  anonymize_token : jsstring -> AnonProxyConfig.t -> result jsstring;
  isReversible : bool
}.

(* ------------------------------------------------------------------------ *)
(** ** utils/crypto.ts *)

Module CryptoUtils.

(** The two digests taken from Node's [crypto] module:
      [createHash('sha256').update(s).digest('base64')] and
      [createHmac('sha256', secret).update(data).digest('base64')]. *)
Class NodeCrypto : Type := {
  sha256_base64 : jsstring -> jsstring;
  hmac_sha256_base64 : jsstring -> jsstring -> jsstring
}.

(** [randomBytes(n)] reads [n] bytes of the entropy source [src]. *)
Definition randomBytes (src : nat -> N) (n : nat) : list N :=
  List.map (fun i => (src i mod 256)%N) (seq 0 n).

Definition hex_digit (d : N) : N := if (d <? 10)%N then (48 + d)%N else (87 + d)%N.

(** [buffer.toString('hex')] *)
Definition to_hex (bytes : list N) : jsstring :=
  flat_map (fun b => [hex_digit (b / 16); hex_digit (b mod 16)]) bytes.

Definition generateId (src : nat -> N) : jsstring := to_hex (randomBytes src 16).

Section WithCrypto.

Context {crypto : NodeCrypto}.

Definition hashWithSalt (input salt : jsstring) : jsstring :=
  sha256_base64 (input ++ salt).

Definition createHmac (data secret : jsstring) : jsstring :=
  hmac_sha256_base64 secret data.

End WithCrypto.

(** ToInt32 and the two bitwise operators on it. *)
Definition to_int32 (z : Z) : Z := ((z + 2 ^ 31) mod 2 ^ 32 - 2 ^ 31)%Z.
Definition bit_xor (a b : Z) : Z := to_int32 (Z.lxor (to_int32 a) (to_int32 b)).
Definition bit_or (a b : Z) : Z := to_int32 (Z.lor (to_int32 a) (to_int32 b)).

(** [s.charCodeAt(i)]; out of range it is NaN, which the bitwise operators
    read as 0. *)
Definition charCodeAt (s : jsstring) (i : nat) : Z :=
  match nth_error s i with
  | Some c => Z.of_N c
  | None => 0%Z
  end.

(** The loop [for (let i = 0; i < a.length; i++) result |= ...] with [n]
    turns left, together with the indices it has read so far. *)
Fixpoint compare_loop (n i : nat) (a b : jsstring) (res : Z) (reads : list nat)
  : Z * list nat :=
  match n with
  | O => (res, reads)
  | S n' =>
      compare_loop n' (S i) a b
        (bit_or res (bit_xor (charCodeAt a i) (charCodeAt b i)))
        (reads ++ [i])
  end.

(** [constantTimeCompare] and the indices whose code units it read. *)
Definition constantTimeCompare_run (a b : jsstring) : bool * list nat :=
  if negb (length a =? length b) then (false, [])
  else
    let (res, reads) := compare_loop (length a) 0 a b 0%Z [] in
    ((res =? 0)%Z, reads).

Definition constantTimeCompare (a b : jsstring) : bool :=
  fst (constantTimeCompare_run a b).

Definition constantTimeCompare_reads (a b : jsstring) : list nat :=
  snd (constantTimeCompare_run a b).

Section WithCrypto2.

Context {crypto : NodeCrypto}.

Definition verifyHmac (data signature secret : jsstring) : bool :=
  constantTimeCompare signature (createHmac data secret).

(** [hash.substring(0, 16).replace(/[^a-zA-Z0-9]/g, '')] *)
Definition shortHash (hash : jsstring) : jsstring :=
  filter is_alnum (substring hash 0 16).

Definition generateProxyToken (originalToken salt prefix : jsstring) : jsstring :=
  prefix ++ shortHash (hashWithSalt originalToken salt).

End WithCrypto2.

(** The default value of the parameter [prefix]. *)
Definition anon_prefix : jsstring := lit "anon_".

(** [buffer.toString('base64')]: the alphabet, then three bytes to four
    characters, padded with [=]. *)
Definition base64_char (d : N) : N :=
  if (d <? 26)%N then (65 + d)%N
  else if (d <? 52)%N then (71 + d)%N
  else if (d <? 62)%N then (d - 4)%N
  else if (d =? 62)%N then 43%N
  else 47%N.

Fixpoint to_base64 (bytes : list N) : jsstring :=
  match bytes with
  | [] => []
  | [a] => [base64_char (a / 4); base64_char ((a mod 4) * 16); 61; 61]%N
  | [a; b] =>
      [base64_char (a / 4); base64_char ((a mod 4) * 16 + b / 16);
       base64_char ((b mod 16) * 4); 61]%N
  | a :: b :: c :: rest =>
      [base64_char (a / 4); base64_char ((a mod 4) * 16 + b / 16);
       base64_char ((b mod 16) * 4 + c / 64); base64_char (c mod 64)]%N
      ++ to_base64 rest
  end.

(** The sizes the runtime refuses.  [randomBytes(n)] throws a RangeError
    for [n] above [max_random_bytes]: 2^31 - 1, or less where a buffer of
    that size cannot be allocated.  [buffer.toString(encoding)] throws when
    the text would be longer than [max_string_length], the constant
    [buffer.constants.MAX_STRING_LENGTH] of the runtime. *)
Record BufferLimits : Type := mkLimits {
  max_random_bytes : Z;
  max_string_length : Z
}.

(** The limits of Node on 64-bit V8 with memory to spare. *)
Definition node_limits : BufferLimits := mkLimits (2 ^ 31 - 1) (2 ^ 29 - 24).

(** [generateSalt(length)] for an integer [length].  What [randomBytes] or
    [toString] throw is caught and thrown again as a SignatureError whose
    message ends with the message of the runtime. *)
Definition generateSalt (limits : BufferLimits) (src : nat -> N) (length : Z)
  : result jsstring :=
  if (length <=? 0)%Z
  then Throw (SignatureError "Failed to generate salt: Salt length must be positive")
  else if (max_random_bytes limits <? length)%Z
  then Throw (SignatureError "Failed to generate salt")
  else if (max_string_length limits <? 4 * ((length + 2) / 3))%Z
  then Throw (SignatureError "Failed to generate salt")
  else Ok (to_base64 (randomBytes src (Z.to_nat length))).

(** [/^[a-zA-Z0-9_]+$/] *)
Definition proxy_chars_pattern : regex :=
  Repeat (CharSet false [(97, 122); (65, 90); (48, 57); (95, 95)]%N) 1 None.

(** [isValidProxyToken(token, prefix)] *)
Definition isValidProxyToken (token prefix : jsstring) : bool :=
  starts_with prefix token
  && (length prefix <? length token)
  && test_anchored false proxy_chars_pattern token.

End CryptoUtils.

Import CryptoUtils.

(* ------------------------------------------------------------------------ *)
(** ** Node's crypto module

    The digests [CryptoUtils] asks of Node: SHA-256 (FIPS 180-4) and HMAC
    (RFC 2104) over the UTF-8 bytes of the strings, written in Base64. *)

Module Digest.

Local Open Scope N_scope.

(** Words of 32 bits. *)
Definition w32 (x : N) : N := x mod 4294967296.
Definition add32 (x y : N) : N := w32 (x + y).
Definition not32 (x : N) : N := 4294967295 - w32 x.
Definition rotr (n x : N) : N := N.lor (N.shiftr x n) (w32 (N.shiftl x (32 - n))).

Definition Ch (x y z : N) : N := N.lxor (N.land x y) (N.land (not32 x) z).
Definition Maj (x y z : N) : N := N.lxor (N.lxor (N.land x y) (N.land x z)) (N.land y z).
Definition Sigma0 (x : N) : N := N.lxor (N.lxor (rotr 2 x) (rotr 13 x)) (rotr 22 x).
Definition Sigma1 (x : N) : N := N.lxor (N.lxor (rotr 6 x) (rotr 11 x)) (rotr 25 x).
Definition sigma0 (x : N) : N := N.lxor (N.lxor (rotr 7 x) (rotr 18 x)) (N.shiftr x 3).
Definition sigma1 (x : N) : N := N.lxor (N.lxor (rotr 17 x) (rotr 19 x)) (N.shiftr x 10).

(** No number from 2 to [p - 1] divides [p]. *)
Definition is_prime (p : N) : bool :=
  forallb (fun d => negb (p mod N.of_nat d =? 0)) (seq 2 (N.to_nat p - 2)).

(** The primes below [n], in order. *)
Definition primes_below (n : nat) : list N :=
  filter is_prime (List.map N.of_nat (seq 2 (n - 2))).

(** The integer cube root of [x], bit after bit below [2 ^ n]. *)
Fixpoint cube_root (n : nat) (x r : N) : N :=
  match n with
  | O => r
  | S n' =>
      let r' := r + 2 ^ N.of_nat n' in
      cube_root n' x (if r' * r' * r' <=? x then r' else r)
  end.

(** The first thirty-two bits of the fractional parts of the cube roots
    of the first sixty-four primes, and of the square roots of the first
    eight. *)
Definition K : list N :=
  Eval vm_compute in
    List.map (fun p => w32 (cube_root 40 (p * 2 ^ 96) 0)) (primes_below 312).

Definition H0 : list N :=
  Eval vm_compute in
    List.map (fun p => w32 (N.sqrt (p * 2 ^ 64))) (primes_below 20).

(** One round on the working variables [a .. h]. *)
Definition round (st : list N) (k w : N) : list N :=
  match st with
  | [a; b; c; d; e; f; g; h] =>
      let t1 := add32 (add32 (add32 (add32 h (Sigma1 e)) (Ch e f g)) k) w in
      let t2 := add32 (Sigma0 a) (Maj a b c) in
      [add32 t1 t2; a; b; c; add32 d t1; e; f; g]
  | _ => st
  end.

(** The 64 rounds; [win] holds the sixteen words of the message schedule
    from the current one on. *)
Fixpoint rounds (ks : list N) (win : list N) (st : list N) : list N :=
  match ks with
  | [] => st
  | k :: ks' =>
      match win with
      | w0 :: w1 :: w2 :: w3 :: w4 :: w5 :: w6 :: w7 :: w8 :: w9 :: w10 :: w11 :: w12
           :: w13 :: w14 :: w15 :: _ =>
          rounds ks'
            [w1; w2; w3; w4; w5; w6; w7; w8; w9; w10; w11; w12; w13; w14; w15;
             add32 (add32 (add32 (sigma1 w14) w9) (sigma0 w1)) w0]
            (round st k w0)
      | _ => st
      end
  end.

(** Big-endian words of a block of bytes. *)
Fixpoint words (bytes : list N) : list N :=
  match bytes with
  | a :: b :: c :: d :: rest => (a * 16777216 + b * 65536 + c * 256 + d) :: words rest
  | _ => []
  end.

Definition compress (h : list N) (block : list N) : list N :=
  List.map (fun p => add32 (fst p) (snd p)) (combine h (rounds K (words block) h)).

(** The blocks of 64 bytes of a padded message. *)
Fixpoint blocks (n : nat) (bytes : list N) : list (list N) :=
  match n with
  | O => []
  | S n' => firstn 64 bytes :: blocks n' (skipn 64 bytes)
  end.

Definition be_bytes (n : nat) (x : N) : list N :=
  List.map (fun i => (x / 256 ^ N.of_nat i) mod 256) (rev (seq 0 n)).

(** The message, the byte 0x80, zeros up to 56 modulo 64, and the length
    in bits on eight bytes. *)
Definition pad (bytes : list N) : list N :=
  let l := length bytes in
  let zeros := ((64 - (l + 9) mod 64) mod 64)%nat in
  bytes ++ [128] ++ repeat 0 zeros ++ be_bytes 8 (8 * N.of_nat l).

Definition sha256 (bytes : list N) : list N :=
  let padded := pad bytes in
  flat_map (be_bytes 4)
    (fold_left compress (blocks (length padded / 64) padded) H0).

(** HMAC (RFC 2104) with SHA-256, whose blocks have 64 bytes. *)
Definition hmac_sha256 (key data : list N) : list N :=
  let k0 := if (64 <? length key)%nat then sha256 key else key in
  let k := k0 ++ repeat 0 (64 - length k0) in
  sha256 (List.map (N.lxor 92) k ++ sha256 (List.map (N.lxor 54) k ++ data)).

(** The UTF-8 bytes of a string of UTF-16 code units: a surrogate pair is
    one code point of four bytes, a surrogate on its own becomes U+FFFD. *)
Fixpoint utf8 (s : list N) : list N :=
  match s with
  | [] => []
  | c :: t =>
      if c <? 128 then c :: utf8 t
      else if c <? 2048 then [192 + c / 64; 128 + c mod 64] ++ utf8 t
      else if (55296 <=? c) && (c <=? 56319) then
        match t with
        | l :: t' =>
            if (56320 <=? l) && (l <=? 57343) then
              let cp := 65536 + (c - 55296) * 1024 + (l - 56320) in
              [240 + cp / 262144; 128 + (cp / 4096) mod 64; 128 + (cp / 64) mod 64;
               128 + cp mod 64] ++ utf8 t'
            else [239; 191; 189] ++ utf8 t
        | [] => [239; 191; 189]
        end
      else if (56320 <=? c) && (c <=? 57343) then [239; 191; 189] ++ utf8 t
      else [224 + c / 4096; 128 + (c / 64) mod 64; 128 + c mod 64] ++ utf8 t
  end.

End Digest.

(** [createHash('sha256').update(s).digest('base64')] and
    [createHmac('sha256', secret).update(data).digest('base64')] as Node
    computes them. *)
Definition node_crypto : NodeCrypto :=
  Build_NodeCrypto
    (fun s => to_base64 (Digest.sha256 (Digest.utf8 s)))
    (fun secret data =>
       to_base64 (Digest.hmac_sha256 (Digest.utf8 secret) (Digest.utf8 data))).

(* ------------------------------------------------------------------------ *)
(** ** storage/memoryStorage.ts *)

Module MemoryStorage.

Record t : Type := make {
  mappings : JsMap.t MappingData.t;
  maxSize : Z;
  ttlMs : Z
}.

(** [new MemoryStorage(maxSize, ttlMs)] *)
Definition new (maxSize ttlMs : Z) : t := make [] maxSize ttlMs.

(** [new MemoryStorage()]: 10000 entries, one hour. *)
Definition default : t := new 10000 3600000.

Definition with_mappings (s : t) (m : JsMap.t MappingData.t) : t :=
  make m (maxSize s) (ttlMs s).

Definition store (s : t) (mapId : jsstring) (mappingData : MappingData.t) (now : Z)
  : result unit * t :=
  if negb (truthy mapId)
  then (Throw (StorageError "Map ID must be a non-empty string"), s)
  else
    let m :=
      if (maxSize s <=? Z.of_nat (JsMap.size (mappings s)))%Z
         && negb (JsMap.has (mappings s) mapId)
      then
        match JsMap.first_key (mappings s) with
        | Some oldestKey =>
            if truthy oldestKey then JsMap.delete (mappings s) oldestKey
            else mappings s
        | None => mappings s
        end
      else mappings s in
    (Ok tt, with_mappings s (JsMap.set m mapId (MappingData.with_createdAt mappingData now))).

Definition retrieve (s : t) (mapId : jsstring) (now : Z)
  : result (option MappingData.t) * t :=
  if negb (truthy mapId)
  then (Throw (StorageError "Map ID must be a non-empty string"), s)
  else
    match JsMap.get (mappings s) mapId with
    | None => (Ok None, s)
    | Some mappingData =>
        if (0 <? ttlMs s)%Z && (ttlMs s <? now - MappingData.createdAt mappingData)%Z
        then (Ok None, with_mappings s (JsMap.delete (mappings s) mapId))
        else (Ok (Some mappingData), s)
    end.

Definition delete (s : t) (mapId : jsstring) : result unit * t :=
  if negb (truthy mapId)
  then (Throw (StorageError "Failed to delete mapping: Map ID must be a non-empty string"), s)
  else (Ok tt, with_mappings s (JsMap.delete (mappings s) mapId)).

Definition clear (s : t) : t := with_mappings s [].

(** The sweep the interval timer runs every five minutes. *)
Definition cleanup (s : t) (now : Z) : t :=
  if (ttlMs s <=? 0)%Z then s
  else
    with_mappings s
      (filter (fun e => negb (ttlMs s <? now - MappingData.createdAt (snd e))%Z)
              (mappings s)).

Definition exists_ (s : t) (mapId : jsstring) (now : Z) : bool * t :=
  match retrieve s mapId now with
  | (Ok (Some _), s') => (true, s')
  | (_, s') => (false, s')
  end.

(** [setTTL(ttlMs)] *)
Definition setTTL (s : t) (ttl : Z) : t := make (mappings s) (maxSize s) ttl.

(** [getAllMappingIds()] *)
Definition getAllMappingIds (s : t) : list jsstring := JsMap.keys (mappings s).

(** [dispose()] *)
Definition dispose (s : t) : t := with_mappings s [].

(** [estimateMemoryUsage()] *)
Definition estimateMemoryUsage (s : t) : Z :=
  fold_left
    (fun totalSize e =>
       totalSize
       + Z.of_nat (length (fst e)) * 2
       + Z.of_nat (length (MappingData.id (snd e))) * 2
       + Z.of_nat (JsMap.size (MappingData.mappings (snd e))) * 50
       + 100)%Z
    (mappings s) 0%Z.

(** The object [getStats()] returns. *)
Module Stats.
Record t : Type := make {
  totalMappings : nat;
  maxSize : Z;
  memoryUsage : Z;
  oldestMapping : option Z;
  newestMapping : option Z;
  ttlMs : Z
}.
End Stats.

(** One turn of the loop [for (const mapping of this.mappings.values())]
    of [getStats]. *)
Definition stats_step (acc : option Z * option Z) (e : jsstring * MappingData.t)
  : option Z * option Z :=
  let c := MappingData.createdAt (snd e) in
  (match fst acc with
   | None => Some c
   | Some oldest => if (c <? oldest)%Z then Some c else Some oldest
   end,
   match snd acc with
   | None => Some c
   | Some newest => if (newest <? c)%Z then Some c else Some newest
   end).

(** [getStats()] *)
Definition getStats (s : t) : Stats.t :=
  let range := fold_left stats_step (mappings s) (None, None) in
  Stats.make (JsMap.size (mappings s)) (maxSize s) (estimateMemoryUsage s)
    (fst range) (snd range) (ttlMs s).

#[global] Instance storage_interface : StorageInterface t :=
  Build_StorageInterface store retrieve delete.

End MemoryStorage.

(* ------------------------------------------------------------------------ *)
(** ** The strategies *)

(** Modelled from the spec: strategies/hashSaltStrategy.ts is not among the
    sources.  "proxy = prefix + first16CharsOfBase64(SHA256(token || salt)),
    with all non-alphanumeric characters in that hash slice stripped.  Salt
    resolution order: config.customSalt if set, else a per-strategy-instance
    generated salt."  The computation itself is
    [CryptoUtils.generateProxyToken], which is in the sources. *)
Definition HashSaltStrategy {crypto : NodeCrypto} (instanceSalt : jsstring) : StrategyImpl :=
  mkStrategy
    (fun token config =>
       let salt := match AnonProxyConfig.customSalt config with
                   | Some s => s
                   | None => instanceSalt
                   end in
       Ok (generateProxyToken token salt anon_prefix))
    true.

(** strategies/embeddingsStrategy.ts: ['sem_' + semanticHash(features)] for
    a non-empty token.  The feature record holds a rounded floating-point
    entropy; [semanticHash] stands for [createSemanticHash] after
    [extractTokenFeatures]. *)
Definition EmbeddingsStrategy (semanticHash : jsstring -> jsstring) : StrategyImpl :=
  mkStrategy
    (fun token config =>
       if negb (truthy token)
       then Throw (ValidationError "Embeddings anonymization failed: Token must be a non-empty string")
       else Ok (lit "sem_" ++ semanticHash token))
    false.

(** [classifyTokenType] of strategies/embeddingsStrategy.ts. *)
Module Embeddings.

Inductive TokenClass : Type :=
| uuid | base64 | hex | email | phone | apikey | generic | unknown.

Definition hex_digit_i : regex := CharSet false [rng "0" "9"; rng "a" "f"].

(** [/^[0-9a-f]{8}-[0-9a-f]{4}-[0-9a-f]{4}-[0-9a-f]{4}-[0-9a-f]{12}$/i] *)
Definition uuid_pattern : regex :=
  seq_of [exactly 8 hex_digit_i; chr "-"; exactly 4 hex_digit_i; chr "-";
          exactly 4 hex_digit_i; chr "-"; exactly 4 hex_digit_i; chr "-";
          exactly 12 hex_digit_i].

Definition base64_class : list (N * N) :=
  [rng "A" "Z"; rng "a" "z"; rng "0" "9"; one "+"; one "/"].

(** [/^[A-Za-z0-9+/]{20,}={0,2}$/] *)
Definition base64_pattern : regex :=
  Seq (at_least 20 (CharSet false base64_class)) (between 0 2 (chr "=")).

Definition hex_class : list (N * N) := [rng "a" "f"; rng "A" "F"; rng "0" "9"].

(** [/^[a-fA-F0-9]{32,}$/] *)
Definition hex_pattern : regex := at_least 32 (CharSet false hex_class).

Definition name_class : list (N * N) :=
  [rng "a" "z"; rng "A" "Z"; rng "0" "9"; one "_"; one "-"; one "."].

(** [/^[a-zA-Z0-9_\-.]+@[a-zA-Z0-9_\-.]+$/] *)
Definition email_pattern : regex :=
  seq_of [plus (CharSet false name_class); chr "@"; plus (CharSet false name_class)].

(** [/^\+?[\ds\-()]{10,}$/]: the class holds the digits, the letter s, the
    hyphen and the two parentheses. *)
Definition phone_pattern : regex :=
  Seq (opt (chr "+"))
      (at_least 10 (CharSet false [rng "0" "9"; one "s"; one "-"; one "("; one ")"])).

(** [/^[a-zA-Z0-9_\-.]{16,}$/] *)
Definition apikey_pattern : regex := at_least 16 (CharSet false name_class).

Definition classifyTokenType (token : jsstring) : TokenClass :=
  if test_anchored true uuid_pattern token then uuid
  else if test_anchored false base64_pattern token then base64
  else if test_anchored false hex_pattern token then hex
  else if test_anchored false email_pattern token then email
  else if test_anchored false phone_pattern token then phone
  else if test_anchored false apikey_pattern token then apikey
  else generic.

End Embeddings.

(* ------------------------------------------------------------------------ *)
(** ** Runtime functions the engine calls *)

Module Runtime.

(** *** JSON.stringify of an array of pairs of strings *)

Definition hex4 (c : N) : jsstring :=
  [hex_digit (c / 4096); hex_digit ((c / 256) mod 16);
   hex_digit ((c / 16) mod 16); hex_digit (c mod 16)].

Definition backslash : N := 92%N.

(** The escape of one code unit that is not part of a surrogate pair. *)
Definition json_escape (c : N) : jsstring :=
  if (c =? 8)%N then [backslash; ch "b"]
  else if (c =? 9)%N then [backslash; ch "t"]
  else if (c =? 10)%N then [backslash; ch "n"]
  else if (c =? 12)%N then [backslash; ch "f"]
  else if (c =? 13)%N then [backslash; ch "r"]
  else if (c =? 34)%N then [backslash; 34%N]
  else if (c =? 92)%N then [backslash; backslash]
  else if (c <? 32)%N || is_high_surrogate c || is_low_surrogate c
       then backslash :: ch "u" :: hex4 c
  else [c].

Fixpoint json_quote_body (s : jsstring) : jsstring :=
  match s with
  | [] => []
  | h :: t =>
      match t with
      | l :: t' =>
          if is_high_surrogate h && is_low_surrogate l
          then h :: l :: json_quote_body t'
          else json_escape h ++ json_quote_body t
      | [] => json_escape h
      end
  end.

(** QuoteJSONString *)
Definition json_quote (s : jsstring) : jsstring :=
  34%N :: json_quote_body s ++ [34%N].

Fixpoint join_with (sep : jsstring) (l : list jsstring) : jsstring :=
  match l with
  | [] => []
  | [x] => x
  | x :: l' => x ++ sep ++ join_with sep l'
  end.

Definition json_array (items : list jsstring) : jsstring :=
  ch "[" :: join_with [ch ","] items ++ [ch "]"].

(** [JSON.stringify(Array.from(mappings.entries()))] *)
Definition json_entries (m : JsMap.t jsstring) : jsstring :=
  json_array (List.map (fun e => json_array [json_quote (fst e); json_quote (snd e)]) m).

(** *** String.prototype.replace with a global literal pattern *)

(** GetSubstitution for a pattern without capture groups: [$$], [$&],
    [$`] and [$'] are expanded, every other code unit stands for itself. *)
Fixpoint expand (replacement matched before after : jsstring) : jsstring :=
  match replacement with
  | [] => []
  | c :: r =>
      if (c =? 36)%N then
        match r with
        | d :: r' =>
            if (d =? 36)%N then 36%N :: expand r' matched before after
            else if (d =? 38)%N then matched ++ expand r' matched before after
            else if (d =? 96)%N then before ++ expand r' matched before after
            else if (d =? 39)%N then after ++ expand r' matched before after
            else c :: expand r matched before after
        | [] => [c]
        end
      else c :: expand r matched before after
  end.

(** [whole.replace(new RegExp(escapeRegExp(p), 'g'), replacement)] from
    index [i] on, where [s] is the rest of [whole] and [skip] code units of
    it belong to the last match.  The escaped pattern matches exactly the
    occurrences of [p], taken from the left and without overlap; the empty
    pattern matches once at every index. *)
Fixpoint replace_from (p replacement whole : jsstring) (skip i : nat) (s : jsstring)
  : jsstring :=
  match s with
  | [] =>
      match p, skip with
      | [], O => expand replacement [] whole []
      | _, _ => []
      end
  | c :: s' =>
      match skip with
      | S k => replace_from p replacement whole k (S i) s'
      | O =>
          if starts_with p s
          then expand replacement p (firstn i whole) (skipn (i + length p) whole)
                 ++ match p with
                    | [] => c :: replace_from p replacement whole 0 (S i) s'
                    | _ :: p' => replace_from p replacement whole (length p') (S i) s'
                    end
          else c :: replace_from p replacement whole 0 (S i) s'
      end
  end.

Definition replace_all (s p replacement : jsstring) : jsstring :=
  replace_from p replacement s 0 0 s.

End Runtime.

Import Runtime.

(* ------------------------------------------------------------------------ *)
(** ** core/anonEngine.ts *)

Module AnonEngine.

Import AnonProxyConfig.

(** The engine over a storage backend with state [S].  Its token detector
    is [new TokenDetector()], the detector of the default configuration. *)
Record t (S : Type) : Type := make {
  config : AnonProxyConfig.t;
  storage : S;
  strategy : StrategyImpl
}.

Arguments make {S} _ _ _.
Arguments config {S} _.
Arguments storage {S} _.
Arguments strategy {S} _.

Definition with_storage {S : Type} (e : t S) (s : S) : t S :=
  make (config e) s (strategy e).

(** The defaults of the constructor, before the caller's options. *)
Definition default_config : AnonProxyConfig.t :=
  AnonProxyConfig.make HASH_SALT MEMORY false None false None.

Definition validateConfig (c : AnonProxyConfig.t) : result unit :=
  if enableSignatures c && negb (truthy_opt (signatureSecret c))
  then Throw (ValidationError "Signature secret is required when enableSignatures is true")
  else Ok tt.

(** [createAnonymizationStrategy]; [instanceSalt] is the salt a fresh
    [HashSaltStrategy] generates for itself. *)
Definition createAnonymizationStrategy {crypto : NodeCrypto}
  (c : AnonProxyConfig.t) (instanceSalt : jsstring) (semanticHash : jsstring -> jsstring)
  : StrategyImpl :=
  match AnonProxyConfig.strategy c with
  | HASH_SALT => HashSaltStrategy instanceSalt
  | EMBEDDINGS => EmbeddingsStrategy semanticHash
  end.

(** The constructor, given the backend [createStorageBackend] builds
    ([MemoryStorage.default] for [MEMORY]). *)
Definition construct {crypto : NodeCrypto} {S : Type}
  (c : AnonProxyConfig.t) (backend : S) (instanceSalt : jsstring)
  (semanticHash : jsstring -> jsstring) : result (t S) :=
  match validateConfig c with
  | Throw e => Throw e
  | Ok _ => Ok (make c backend (createAnonymizationStrategy c instanceSalt semanticHash))
  end.

(** [detectedTokens.sort((a, b) => b.startIndex - a.startIndex)] (stable). *)
Fixpoint insert_desc (x : DetectedToken) (l : list DetectedToken) : list DetectedToken :=
  match l with
  | [] => [x]
  | h :: l' =>
      if startIndex h <=? startIndex x then x :: l else h :: insert_desc x l'
  end.

Definition sort_desc (l : list DetectedToken) : list DetectedToken :=
  fold_right insert_desc [] l.

(** The loop [for (const token of sortedTokens)]: the map of proxies and
    the prompt it leaves. *)
Fixpoint replace_tokens (strat : StrategyImpl) (c : AnonProxyConfig.t)
  (tokens : list DetectedToken) (mappings : JsMap.t jsstring) (prompt : jsstring)
  : result (JsMap.t jsstring * jsstring) :=
  match tokens with
  | [] => Ok (mappings, prompt)
  | token :: rest =>
      match anonymize_token strat (value token) c with
      | Throw _ => Throw (ValidationError "Failed to anonymize token")
      | Ok proxyToken =>
          replace_tokens strat c rest
            (JsMap.set mappings proxyToken (value token))
            (slice_to prompt (startIndex token) ++ proxyToken
               ++ slice_from prompt (endIndex token))
      end
  end.

Section WithCrypto.

Context {crypto : NodeCrypto}.

(** [CryptoUtils.createHmac(data, this.config.signatureSecret!)]: without a
    secret the call throws. *)
Definition sign (data : jsstring) (secret : option jsstring) : result jsstring :=
  match secret with
  | Some s => Ok (createHmac data s)
  | None => Throw (SignatureError "Failed to create HMAC: Data and secret must be strings")
  end.

(** [`${mapId}:${JSON.stringify(Array.from(mappings.entries()))}`] *)
Definition signed_payload (mapId : jsstring) (mappings : JsMap.t jsstring) : jsstring :=
  mapId ++ lit ":" ++ json_entries mappings.

Section WithStorage.

Context {S : Type} {backend : StorageInterface S}.

(** [anonymize(prompt)]; [src] is what [randomBytes] reads and [now] the
    clock.  [None] when token detection does not end. *)
Definition anonymize (e : t S) (prompt : jsstring) (src : nat -> N) (now : Z)
  : option (result AnonymizationResult.t * t S) :=
  if negb (truthy prompt)
  then Some (Throw (ValidationError "Prompt must be a non-empty string"), e)
  else
    match detectTokens DEFAULT_DETECTION_CONFIG prompt with
    | None => None
    | Some [] =>
        let mapId := generateId src in
        let emptyMapping :=
          MappingData.make mapId [] now None (AnonProxyConfig.strategy (config e)) in
        match store (storage e) mapId emptyMapping now with
        | (Throw err, s') => Some (Throw err, with_storage e s')
        | (Ok _, s') =>
            if enableSignatures (config e)
            then
              match sign (mapId ++ lit ":" ++ prompt) (signatureSecret (config e)) with
              | Throw err => Some (Throw err, with_storage e s')
              | Ok sig =>
                  Some (Ok (AnonymizationResult.make prompt mapId (Some sig)),
                        with_storage e s')
              end
            else Some (Ok (AnonymizationResult.make prompt mapId None), with_storage e s')
        end
    | Some detectedTokens =>
        match replace_tokens (strategy e) (config e) (sort_desc detectedTokens) [] prompt with
        | Throw err => Some (Throw err, e)
        | Ok (mappings, anonymizedPrompt) =>
            let mapId := generateId src in
            let unsigned :=
              MappingData.make mapId mappings now None
                (AnonProxyConfig.strategy (config e)) in
            let signed :=
              if enableSignatures (config e)
              then
                match sign (signed_payload mapId mappings) (signatureSecret (config e)) with
                | Throw err => Throw err
                | Ok sig => Ok (MappingData.with_signature unsigned (Some sig))
                end
              else Ok unsigned in
            match signed with
            | Throw err => Some (Throw err, e)
            | Ok mappingData =>
                match store (storage e) mapId mappingData now with
                | (Throw err, s') => Some (Throw err, with_storage e s')
                | (Ok _, s') =>
                    Some (Ok (AnonymizationResult.make anonymizedPrompt mapId
                                (MappingData.signature mappingData)),
                          with_storage e s')
                end
            end
        end
    end.

(** The block [if (this.config.enableSignatures) { ... }] of [deanonymize]. *)
Definition validate_signature (c : AnonProxyConfig.t) (mapId : jsstring)
  (signature : option jsstring) (mappingData : MappingData.t) : result unit :=
  if enableSignatures c then
    match signature with
    | Some sig =>
        if negb (truthy sig)
        then Throw (SignatureError "Signature is required when signatures are enabled")
        else
          match MappingData.signature mappingData with
          | Some stored =>
              if negb (truthy stored)
              then Throw (SignatureError "Stored mapping does not have a signature")
              else if negb (constantTimeCompare sig stored)
              then Throw (SignatureError "Invalid signature - mapping may have been tampered with")
              else
                match signatureSecret c with
                | None => Throw (SignatureError "Failed to verify HMAC")
                | Some secret =>
                    if negb (verifyHmac
                               (signed_payload mapId (MappingData.mappings mappingData))
                               stored secret)
                    then Throw (SignatureError "Mapping data signature verification failed")
                    else Ok tt
                end
          | None => Throw (SignatureError "Stored mapping does not have a signature")
          end
    | None => Throw (SignatureError "Signature is required when signatures are enabled")
    end
  else Ok tt.

(** The loop [for (const [proxyToken, originalToken] of ...entries())]. *)
Definition restore_tokens (output : jsstring) (mappings : JsMap.t jsstring) : jsstring :=
  fold_left (fun out e => replace_all out (fst e) (snd e)) mappings output.

(** [deanonymize] from the retrieved [mappingData] on. *)
Definition restore (c : AnonProxyConfig.t) (output mapId : jsstring)
  (signature : option jsstring) (mappingData : MappingData.t) : result jsstring :=
  match validate_signature c mapId signature mappingData with
  | Throw err => Throw err
  | Ok _ =>
      if JsMap.size (MappingData.mappings mappingData) =? 0 then Ok output
      else Ok (restore_tokens output (MappingData.mappings mappingData))
  end.

(** [deanonymize(output, mapId, signature?)] at clock reading [now]. *)
Definition deanonymize (e : t S) (output mapId : jsstring) (signature : option jsstring)
  (now : Z) : result jsstring * t S :=
  if negb (truthy output)
  then (Throw (ValidationError "Output must be a non-empty string"), e)
  else if negb (truthy mapId)
  then (Throw (ValidationError "Map ID must be a non-empty string"), e)
  else
    match retrieve (storage e) mapId now with
    | (Throw err, s') => (Throw err, with_storage e s')
    | (Ok None, s') => (Throw (ValidationError "Mapping not found for ID"), with_storage e s')
    | (Ok (Some mappingData), s') =>
        (restore (config e) output mapId signature mappingData, with_storage e s')
    end.

(** [deleteMapping(mapId)] *)
Definition deleteMapping (e : t S) (mapId : jsstring) : result unit * t S :=
  if negb (truthy mapId)
  then (Throw (ValidationError "Map ID must be a non-empty string"), e)
  else
    match delete (storage e) mapId with
    | (r, s') => (r, with_storage e s')
    end.

End WithStorage.

End WithCrypto.

End AnonEngine.

(* ------------------------------------------------------------------------ *)
(** ** index.ts: the one-shot functions

    For a configuration whose storage is [MEMORY], the case in which
    [createStorageBackend] builds [new MemoryStorage()].  [instanceSalt]
    and [semanticHash] are what the strategy of the new engine uses. *)

Module Index.

Section WithCrypto.

Context {crypto : NodeCrypto}.

Variable instanceSalt : jsstring.
Variable semanticHash : jsstring -> jsstring.

(** [createAnonEngine(config)] *)
Definition createAnonEngine (c : AnonProxyConfig.t) : result (AnonEngine.t MemoryStorage.t) :=
  AnonEngine.construct c MemoryStorage.default instanceSalt semanticHash.

(** [anonymize(prompt, config)]: a new engine, used once and disposed of. *)
Definition anonymize (prompt : jsstring) (c : AnonProxyConfig.t) (src : nat -> N) (now : Z)
  : option (result AnonymizationResult.t) :=
  match createAnonEngine c with
  | Throw err => Some (Throw err)
  | Ok engine =>
      match AnonEngine.anonymize engine prompt src now with
      | Some (r, _) => Some r
      | None => None
      end
  end.

(** [deanonymize(output, mapId, signature, config)] *)
Definition deanonymize (output mapId : jsstring) (signature : option jsstring)
  (c : AnonProxyConfig.t) (now : Z) : result jsstring :=
  match createAnonEngine c with
  | Throw err => Throw err
  | Ok engine => fst (AnonEngine.deanonymize engine output mapId signature now)
  end.

End WithCrypto.

End Index.

(* ======================================================================== *)
(** * Vocabulary of the statements *)

Import AnonEngine.

(** ** Progress of the matcher *)

(** The least number of code units a match of [r] consumes. *)
Fixpoint min_len (r : regex) : nat :=
  match r with
  | Empty => 0
  | CharSet _ _ => 1
  | Seq r1 r2 => min_len r1 + min_len r2
  | Alt r1 r2 => Nat.min (min_len r1) (min_len r2)
  | Repeat r1 mn mx =>
      match mx with
      | Some m => Nat.min mn m
      | None => mn
      end * min_len r1
  | Group _ r1 => min_len r1
  | WordBoundary => 0
  | NegLookahead _ => 0
  end.

(** A cursor that really is a position of [s]. *)
Definition cursor_ok (s : jsstring) (x : cursor) : Prop :=
  c_rest x = skipn (c_pos x) s /\ c_pos x <= length s.

(** Whenever [body k] succeeds, it has called [k] at a position of [s] at
    least [n] code units further on. *)
Definition progresses (s : jsstring) (n : nat) (body : cont -> cont) : Prop :=
  forall (k : cont) (x : cursor) (cs : captures) (res : cursor * captures),
    cursor_ok s x ->
    body k x cs = Some res ->
    exists y cs', cursor_ok s y /\ c_pos x + n <= c_pos y /\ k y cs' = Some res.

Definition turns (mn : nat) (mx : option nat) : nat :=
  match mx with
  | Some m => Nat.min mn m
  | None => mn
  end.

(** ** Spans of detected tokens *)

Definition span_nonempty (t : DetectedToken) : Prop := startIndex t < endIndex t.

(** Two half-open spans share no index. *)
Definition spans_disjoint (a b : DetectedToken) : Prop :=
  endIndex a <= startIndex b \/ endIndex b <= startIndex a.

Definition sorted_by_start (l : list DetectedToken) : Prop :=
  StronglySorted (fun a b => startIndex a <= startIndex b) l.

Definition non_overlapping (l : list DetectedToken) : Prop :=
  ForallOrdPairs spans_disjoint l.

(** Every accepted span ends before the next one starts. *)
Definition chained (l : list DetectedToken) : Prop :=
  StronglySorted (fun a b => endIndex a <= startIndex b) l.

(** What the loop holds before it takes a token that starts at [bound] or
    later. *)
Definition accepted_ok (bound : nat) (res : list DetectedToken) : Prop :=
  chained res /\ Forall span_nonempty res /\
  Forall (fun e => startIndex e <= bound) res.

(** The reading of C4's second half: of two overlapping candidates, the one
    with the higher confidence is returned and the other is not. *)
Definition higher_confidence_wins (cfg : TokenDetectionConfig) (text : jsstring) : Prop :=
  forall detected out a b,
    candidates cfg text = Some detected ->
    detectTokens cfg text = Some out ->
    In a detected -> In b detected ->
    overlaps a b = true ->
    (confidence b < confidence a)%Z ->
    In a out /\ ~ In b out.

Definition chained_text : jsstring := lit "pwd=ab@cd.com;10.0.0.1".

(** ** Tables, proxies and digests *)

(** A table as [MemoryStorage] builds it: no key twice, no empty key. *)
Definition table_ok (V : Type) (m : JsMap.t V) : Prop :=
  NoDup (JsMap.keys m) /\ Forall (fun k => truthy k = true) (JsMap.keys m).

(** The format [^anon_[A-Za-z0-9]+$]. *)
Definition proxy_format (s : jsstring) : Prop :=
  exists body, s = lit "anon_" ++ body /\ body <> [] /\
               Forall (fun c => is_alnum c = true) body.

(** The proxy in the words of the specification: the prefix 'anon_', then
    the first 16 characters of the Base64 SHA-256 hash of the token
    followed by the salt, without their non-alphanumeric characters. *)
Definition hash_salt_proxy {crypto : NodeCrypto} (token salt : jsstring) : jsstring :=
  lit "anon_" ++ filter is_alnum (firstn 16 (sha256_base64 (token ++ salt))).

(** The format [^anon_[A-Za-z0-9]{0,16}$]. *)
Definition proxy_format_loose (s : jsstring) : Prop :=
  exists body, s = lit "anon_" ++ body /\ length body <= 16 /\
               Forall (fun c => is_alnum c = true) body.

(** [/^anon_[a-zA-Z0-9]+$/], the expression the repository's tests hold a
    proxy against. *)
Definition alnum_ranges : list (N * N) := [rng "a" "z"; rng "A" "Z"; rng "0" "9"].

Definition anon_token_regex : regex :=
  Seq (str "anon_") (plus (CharSet false alnum_ranges)).

(** A stand-in for Node's digests whose answers are easy to read. *)
Definition toy_crypto : NodeCrypto :=
  Build_NodeCrypto
    (fun s => lit "Zm9v+/" ++ s)
    (fun secret data => lit "mac:" ++ secret ++ lit "/" ++ data).

(** Digests that answer the Base64 text of thirty-two bytes 255, which
    begins with sixteen [/]. *)
Definition slash_crypto : NodeCrypto :=
  Build_NodeCrypto
    (fun _ => to_base64 (repeat 255%N 32))
    (fun _ _ => to_base64 (repeat 255%N 32)).

(** ** Engines, mappings and replacement *)

Definition api_key_text : jsstring := lit "API key: sk-1234567890abcdef".

Definition case_sensitive_config : TokenDetectionConfig :=
  mkConfig (patterns DEFAULT_DETECTION_CONFIG) (minLength DEFAULT_DETECTION_CONFIG)
    None (exclusions DEFAULT_DETECTION_CONFIG) true.

(** The mapping [anonymize] persists for a prompt without tokens. *)
Definition empty_mapping (c : AnonProxyConfig.t) (mapId : jsstring) (now : Z)
  : MappingData.t :=
  MappingData.make mapId [] now None (AnonProxyConfig.strategy c).

(** The engine after [this.storage.store(mapId, d)] at clock reading [now]. *)
Definition after_store (e : AnonEngine.t MemoryStorage.t) (mapId : jsstring)
  (d : MappingData.t) (now : Z) : AnonEngine.t MemoryStorage.t :=
  with_storage e (snd (MemoryStorage.store (storage e) mapId d now)).

(** The engine after [anonymize] stored the mapping of a prompt without
    tokens. *)
Definition after_empty_store (e : AnonEngine.t MemoryStorage.t) (src : nat -> N) (now : Z)
  : AnonEngine.t MemoryStorage.t :=
  after_store e (generateId src) (empty_mapping (config e) (generateId src) now) now.

(** The mapping [anonymize] persists for a prompt with tokens when
    signatures are on. *)
Definition signed_mapping {crypto : NodeCrypto} (c : AnonProxyConfig.t)
  (mapId : jsstring) (entries : JsMap.t jsstring) (now : Z) (secret : jsstring)
  : MappingData.t :=
  MappingData.make mapId entries now
    (Some (createHmac (signed_payload mapId entries) secret))
    (AnonProxyConfig.strategy c).

(** A replacement text without [$]: it is inserted as it stands. *)
Definition plain (r : jsstring) : Prop := ~ In 36%N r.

(** How often the code unit [c] occurs in [s]. *)
Definition occurrences (c : N) (s : jsstring) : nat := count_occ N.eq_dec s c.

(** ** The example prompt of the specification *)

Definition c1_prompt : jsstring :=
  lit "API key: sk-1234567890abcdef, email: user@example.com".

Definition c1_key : jsstring := lit "sk-1234567890abcdef".

Definition c1_email : jsstring := lit "user@example.com".

(** The value the detector reports for the API key. *)
Definition c1_key_value : jsstring := lit "key: sk-1234567890a".

Definition c1_tokens : list DetectedToken :=
  [mkToken c1_key_value (Named API_KEY) 4 23 95;
   mkToken c1_email (Named EMAIL) 37 53 90].

(** The engine of the default configuration. *)
Definition default_engine {crypto : NodeCrypto} (salt : jsstring)
  : AnonEngine.t MemoryStorage.t :=
  AnonEngine.make default_config MemoryStorage.default (HashSaltStrategy salt).

Definition key_proxy {crypto : NodeCrypto} (salt : jsstring) : jsstring :=
  generateProxyToken c1_key_value salt anon_prefix.

Definition email_proxy {crypto : NodeCrypto} (salt : jsstring) : jsstring :=
  generateProxyToken c1_email salt anon_prefix.

(** The map [anonymize] builds for [c1_prompt]: the e-mail address first. *)
Definition c1_entries {crypto : NodeCrypto} (salt : jsstring) : JsMap.t jsstring :=
  JsMap.set (JsMap.set [] (email_proxy salt) c1_email) (key_proxy salt) c1_key_value.

Definition c1_anonPrompt {crypto : NodeCrypto} (salt : jsstring) : jsstring :=
  lit "API " ++ key_proxy salt ++ lit "bcdef, email: " ++ email_proxy salt.

(** [/anon_[a-zA-Z0-9]+/g], the expression the repository's tests read the
    proxy tokens of an anonymized prompt with. *)
Definition anon_token_pattern : RegExp := mkRegExp anon_token_regex false true.

(** [text.match(/anon_[a-zA-Z0-9]+/g) || []]: the matched texts from left
    to right.  A match of this expression is never empty, so the matches
    are those of the loop over [exec]. *)
Definition proxy_tokens (text : jsstring) : option (list jsstring) :=
  match exec_all anon_token_pattern text with
  | Some ms => Some (List.map (matched text) ms)
  | None => None
  end.

(** The first proxy token as it stands in the anonymized prompt: the
    proxy, then what the span of the API key left of the key. *)
Definition c1_first_token {crypto : NodeCrypto} (salt : jsstring) : jsstring :=
  key_proxy salt ++ lit "bcdef".

(** A text consisting of the two proxy tokens. *)
Definition c1_echo {crypto : NodeCrypto} (salt : jsstring) : jsstring :=
  c1_first_token salt ++ lit " " ++ email_proxy salt.

(** What [deanonymize] makes of it. *)
Definition c1_restored : jsstring := lit "key: sk-1234567890abcdef user@example.com".

Definition c1_stored {crypto : NodeCrypto} (salt : jsstring) (src : nat -> N) (now : Z)
  : MappingData.t :=
  MappingData.make (generateId src) (c1_entries salt) now None HASH_SALT.

Definition c1_engine_after {crypto : NodeCrypto} (salt : jsstring) (src : nat -> N) (now : Z)
  : AnonEngine.t MemoryStorage.t :=
  with_storage (default_engine salt)
    (MemoryStorage.make [(generateId src, c1_stored salt src now)] 10000 3600000).

(** ** The prompt without tokens of the repository's tests *)

(** The configuration of the repository's engine tests: signatures on. *)
Definition signed_config : AnonProxyConfig.t :=
  AnonProxyConfig.make HASH_SALT MEMORY true (Some (lit "test-secret-key")) false None.

Definition signed_engine {crypto : NodeCrypto} (salt : jsstring)
  : AnonEngine.t MemoryStorage.t :=
  AnonEngine.make signed_config MemoryStorage.default (HashSaltStrategy salt).

Definition simple_prompt : jsstring := lit "Simple prompt".

Definition plain_output : jsstring := lit "This response has no proxy tokens".

(** The signature [anonymize] returns for [simple_prompt]. *)
Definition returned_signature {crypto : NodeCrypto} (src : nat -> N) : jsstring :=
  createHmac (generateId src ++ lit ":" ++ simple_prompt) (lit "test-secret-key").

(** The no-op property for one prompt, as the specification words it:
    whatever text comes back, at whatever later time, [deanonymize] with
    the returned id and signature succeeds and returns it unchanged. *)
Definition idempotent_noop {crypto : NodeCrypto} (e : AnonEngine.t MemoryStorage.t)
  (prompt : jsstring) (src : nat -> N) (now : Z) : Prop :=
  exists r e',
    anonymize e prompt src now = Some (Ok r, e') /\
    AnonymizationResult.anonPrompt r = prompt /\
    forall output now',
      (now <= now')%Z ->
      fst (deanonymize e' output (AnonymizationResult.mapId r)
             (AnonymizationResult.signature r) now') = Ok output.

(** ** Concrete inputs *)

Definition zero_source : nat -> N := fun _ => 0%N.

Definition toy_engine : AnonEngine.t MemoryStorage.t :=
  @default_engine toy_crypto (lit "salt").

Definition toy_signed_engine : AnonEngine.t MemoryStorage.t :=
  @signed_engine toy_crypto (lit "salt").

Definition sample_data : MappingData.t :=
  MappingData.make (lit "m") [(lit "anon_x", lit "secret-value")] 0 None HASH_SALT.

Definition full_store : MemoryStorage.t :=
  MemoryStorage.make [(lit "a", sample_data); (lit "b", sample_data)] 2 0.

(** A mapping signed the way [anonymize] signs one, under [toy_crypto]. *)
Definition signed_data : MappingData.t :=
  MappingData.with_signature sample_data
    (Some (@createHmac toy_crypto
             (signed_payload (lit "m") (MappingData.mappings sample_data))
             (lit "test-secret-key"))).

Definition wf_stringb (s : jsstring) : bool := forallb (fun c => (c <? 65536)%N) s.

(** ** Histories of a memory store *)

(** The operations a client, or the interval timer, applies to a
    [MemoryStorage]. *)
Inductive storage_op : Type :=
| OpStore (mapId : jsstring) (mappingData : MappingData.t) (now : Z)
| OpRetrieve (mapId : jsstring) (now : Z)
| OpDelete (mapId : jsstring)
| OpCleanup (now : Z)
| OpClear
| OpSetTTL (ttlMs : Z)
| OpDispose.

(** The store an operation leaves, whether it returned or threw. *)
Definition run_op (s : MemoryStorage.t) (o : storage_op) : MemoryStorage.t :=
  match o with
  | OpStore mapId d now => snd (MemoryStorage.store s mapId d now)
  | OpRetrieve mapId now => snd (MemoryStorage.retrieve s mapId now)
  | OpDelete mapId => snd (MemoryStorage.delete s mapId)
  | OpCleanup now => MemoryStorage.cleanup s now
  | OpClear => MemoryStorage.clear s
  | OpSetTTL ttl => MemoryStorage.setTTL s ttl
  | OpDispose => MemoryStorage.dispose s
  end.

Definition run_ops (s : MemoryStorage.t) (ops : list storage_op) : MemoryStorage.t :=
  fold_left run_op ops s.

(** An entry that is not older than the TTL at clock reading [now], or
    any entry when the TTL is off. *)
Definition fresh (s : MemoryStorage.t) (d : MappingData.t) (now : Z) : Prop :=
  (MemoryStorage.ttlMs s <= 0 \/ now - MappingData.createdAt d <= MemoryStorage.ttlMs s)%Z.

(** ** Alphabets *)

(** The characters of a lower-case hexadecimal numeral. *)
Definition lower_hex_char (c : N) : bool :=
  is_digit c || ((97 <=? c)%N && (c <=? 102)%N).

(** The characters of Base64 text: the alphabet and the padding. *)
Definition base64_text_char (c : N) : bool :=
  is_alnum c || (c =? 43)%N || (c =? 47)%N || (c =? 61)%N.

(** Only letters, digits and underscores. *)
Definition word_string (s : jsstring) : Prop := Forall (fun c => is_word c = true) s.

(** The cursor [n] code units further on, or at the end of the subject. *)
Fixpoint advance (x : cursor) (n : nat) : cursor :=
  match n, c_rest x with
  | S n', c :: tl => advance (mkCursor (S (c_pos x)) (Some c) tl) n'
  | _, _ => x
  end.

(** A string of hexadecimal digits of either case. *)
Definition hex_string (s : jsstring) : Prop :=
  Forall (fun c => set_member false Embeddings.hex_class c = true) s.

(** ** Outcomes of the engine *)

Definition is_validation_error {A : Type} (r : result A) : bool :=
  match r with Throw (ValidationError _) => true | _ => false end.

(** An engine over the table [m] of capacity 2 without TTL. *)
Definition engine_over (m : JsMap.t MappingData.t) : AnonEngine.t MemoryStorage.t :=
  with_storage toy_engine (MemoryStorage.make m 2 0).

(** The same table under the engine with signatures on. *)
Definition signed_engine_over (m : JsMap.t MappingData.t) : AnonEngine.t MemoryStorage.t :=
  with_storage toy_signed_engine (MemoryStorage.make m 2 0).

(** The signature stored with [signed_data]. *)
Definition stored_signature : jsstring :=
  @createHmac toy_crypto (signed_payload (lit "m") (MappingData.mappings sample_data))
    (lit "test-secret-key").

(** A prompt whose password holds two dollar signs. *)
Definition dollar_prompt : jsstring := lit "pwd=pa$$w0rd12 done".

(** An output that holds the proxy of [sample_data]. *)
Definition proxy_output : jsstring := lit "use anon_x here".

(** ** Captures and tokens inside the text *)

(** Every capture lies between [lo] and [hi]. *)
Definition caps_within (lo hi : nat) (cs : captures) : Prop :=
  Forall (fun c => lo <= fst (snd c) /\ fst (snd c) <= snd (snd c) /\ snd (snd c) <= hi) cs.

(** Whenever [body k] succeeds from a position at or after [lo], it has
    called [k] at a position of [s] not before it, with captures that lie
    between [lo] and that position if they did so before. *)
Definition keeps_caps (s : jsstring) (lo : nat) (body : cont -> cont) : Prop :=
  forall (k : cont) (x : cursor) (cs : captures) (res : cursor * captures),
    cursor_ok s x ->
    lo <= c_pos x ->
    caps_within lo (c_pos x) cs ->
    body k x cs = Some res ->
    exists y cs',
      cursor_ok s y /\ c_pos x <= c_pos y /\ caps_within lo (c_pos y) cs' /\
      k y cs' = Some res.

(** A match that is not empty, lies in [s] and holds its captures. *)
Definition match_ok (s : jsstring) (m : exec_result) : Prop :=
  m_index m < m_end m /\ m_end m <= length s /\
  caps_within (m_index m) (m_end m) (m_groups m).

(** Text whose code units are all below 256: on it [toLowerCase] of this
    development is that of the runtime. *)
Definition latin1 (s : jsstring) : Prop := Forall (fun c => (c < 256)%N) s.

(** What a returned token says about the text it was found in. *)
Definition token_in_text (cfg : TokenDetectionConfig) (text : jsstring) (t : DetectedToken)
  : Prop :=
  startIndex t < endIndex t /\
  endIndex t <= length text /\
  length (value t) = endIndex t - startIndex t /\
  (minLength cfg <= Z.of_nat (length (value t)))%Z /\
  (caseSensitive cfg = false -> value t = substring text (startIndex t) (endIndex t)) /\
  (0 <= confidence t <= 100)%Z.

(** A text of forty characters in which the key comes late. *)
Definition late_key_text : jsstring := lit "see api_key = abcdefghijklmnop1234 here.".

(** ** A prompt cut at its tokens *)

(** The prompt as the text between the tokens and the tokens' values. *)
Inductive piece : Type :=
| Text (s : jsstring)
| Token (v : jsstring).

(** The pieces put together again, with [f v] in the place of the token
    value [v]. *)
Definition render (f : jsstring -> jsstring) (ps : list piece) : jsstring :=
  flat_map (fun p => match p with Text s => s | Token v => f v end) ps.

(** The text from [pos] on, cut at the tokens [toks], which are in order. *)
Fixpoint pieces_of (text : jsstring) (pos : nat) (toks : list DetectedToken) : list piece :=
  match toks with
  | [] => [Text (skipn pos text)]
  | t :: rest =>
      Text (substring text pos (startIndex t)) :: Token (value t)
        :: pieces_of text (endIndex t) rest
  end.

(** The tokens [toks] follow each other in [text] from [pos] on, none
    empty, each with the text of its span as its value. *)
Fixpoint spans_from (text : jsstring) (pos : nat) (toks : list DetectedToken) : Prop :=
  match toks with
  | [] => pos <= length text
  | t :: rest =>
      pos <= startIndex t /\ startIndex t < endIndex t /\ endIndex t <= length text /\
      value t = substring text (startIndex t) (endIndex t) /\
      spans_from text (endIndex t) rest
  end.

(** What stands for the value [v] once the proxies of the values [done]
    have been replaced. *)
Definition restored (px : jsstring -> jsstring) (done : list jsstring) (v : jsstring)
  : jsstring :=
  if existsb (JS.eqb v) done then v else px v.

(** The code unit [u] is not among the first [k] of [s]. *)
Definition quiet (k : nat) (u : N) (s : jsstring) : Prop :=
  forall j, j < k -> nth_error s j <> Some u.

(** The entries the loop of [anonymize] sets, token after token. *)
Definition entries_of (px : jsstring -> jsstring) (toks : list DetectedToken)
  (m : JsMap.t jsstring) : JsMap.t jsstring :=
  fold_left (fun m t => JsMap.set m (px (value t)) (value t)) toks m.

(** No proxy of a detected value is the beginning of the proxy of another
    detected value; in particular different values have different
    proxies. *)
Definition proxies_prefix_free (px : jsstring -> jsstring) (toks : list DetectedToken)
  : Prop :=
  forall t t',
    In t toks -> In t' toks ->
    starts_with (px (value t)) (px (value t')) = true -> value t = value t'.

(** Pieces whose texts lack the code unit [u] and whose token values are
    among [vals]. *)
Definition pieces_ok (u : N) (vals : list jsstring) (ps : list piece) : Prop :=
  Forall (fun p => match p with Text s => ~ In u s | Token v => In v vals end) ps.
(** The code unit of the underscore, which every [anon_] proxy holds once. *)
Definition underscore : N := 95%N.

(** ** Reading a quoted JSON string back *)

(** The value of a hexadecimal digit. *)
Definition unhex (x : N) : N := if (x <=? 57)%N then (x - 48)%N else (x - 87)%N.

(** The code unit a two-character escape stands for. *)
Definition unescape (x : N) : N :=
  if (x =? 98)%N then 8%N          (* b *)
  else if (x =? 116)%N then 9%N    (* t *)
  else if (x =? 110)%N then 10%N   (* n *)
  else if (x =? 102)%N then 12%N   (* f *)
  else if (x =? 114)%N then 13%N   (* r *)
  else x.

(** Reads the body of a quoted string up to its closing quote: the string
    and what follows the quote. *)
Fixpoint json_unquote_body (o : jsstring) : option (jsstring * jsstring) :=
  match o with
  | [] => None
  | c :: o1 =>
      if (c =? 34)%N then Some ([], o1)
      else if (c =? 92)%N then
        match o1 with
        | [] => None
        | x :: o2 =>
            if (x =? 117)%N then
              match o2 with
              | a :: b :: c2 :: d :: o3 =>
                  match json_unquote_body o3 with
                  | Some (s, rest) =>
                      Some ((unhex a * 4096 + unhex b * 256 + unhex c2 * 16 + unhex d)%N :: s,
                            rest)
                  | None => None
                  end
              | _ => None
              end
            else
              match json_unquote_body o2 with
              | Some (s, rest) => Some (unescape x :: s, rest)
              | None => None
              end
        end
      else
        match json_unquote_body o1 with
        | Some (s, rest) => Some (c :: s, rest)
        | None => None
        end
  end.

(** Keys and values are strings of the runtime. *)
Definition wf_entries (m : JsMap.t jsstring) : Prop :=
  Forall (fun e => wf_string (fst e) /\ wf_string (snd e)) m.

(** The signed mapping with other entries in the place of its own. *)
Definition with_entries (d : MappingData.t) (m : JsMap.t jsstring) : MappingData.t :=
  MappingData.make (MappingData.id d) m (MappingData.createdAt d)
    (MappingData.signature d) (MappingData.strategy d).

(* ======================================================================== *)
(** * Theorems *)

(* ------------------------------------------------------------------------ *)
(** ** constantTimeCompare *)

Lemma to_int32_small (z : Z) : (0 <= z < 65536)%Z -> to_int32 z = z.
Proof.
  intros H. unfold to_int32.
  rewrite Z.mod_small; lia.
Qed.

Lemma lxor_small (x y : Z) :
  (0 <= x < 65536)%Z -> (0 <= y < 65536)%Z -> (0 <= Z.lxor x y < 65536)%Z.
Proof.
  intros Hx Hy. split.
  - apply Z.lxor_nonneg. lia.
  - destruct (Z.eq_dec (Z.lxor x y) 0) as [E | E]; [lia |].
    assert (Hpos : (0 < Z.lxor x y)%Z).
    { assert (0 <= Z.lxor x y)%Z by (apply Z.lxor_nonneg; lia). lia. }
    change 65536%Z with (2 ^ 16)%Z.
    apply Z.log2_lt_pow2; [exact Hpos |].
    pose proof (Z.log2_lxor x y ltac:(lia) ltac:(lia)) as Hl.
    assert (Z.log2 x < 16)%Z.
    { destruct (Z.eq_dec x 0) as [-> | ]; [simpl; lia |].
      apply Z.log2_lt_pow2; [lia | simpl; lia]. }
    assert (Z.log2 y < 16)%Z.
    { destruct (Z.eq_dec y 0) as [-> | ]; [simpl; lia |].
      apply Z.log2_lt_pow2; [lia | simpl; lia]. }
    lia.
Qed.

Lemma lor_small (x y : Z) :
  (0 <= x < 65536)%Z -> (0 <= y < 65536)%Z -> (0 <= Z.lor x y < 65536)%Z.
Proof.
  intros Hx Hy. split.
  - apply Z.lor_nonneg. lia.
  - destruct (Z.eq_dec (Z.lor x y) 0) as [E | E]; [lia |].
    assert (Hpos : (0 < Z.lor x y)%Z).
    { assert (0 <= Z.lor x y)%Z by (apply Z.lor_nonneg; lia). lia. }
    change 65536%Z with (2 ^ 16)%Z.
    apply Z.log2_lt_pow2; [exact Hpos |].
    pose proof (Z.log2_lor x y ltac:(lia) ltac:(lia)) as Hl.
    assert (Z.log2 x < 16)%Z.
    { destruct (Z.eq_dec x 0) as [-> | ]; [simpl; lia |].
      apply Z.log2_lt_pow2; [lia | simpl; lia]. }
    assert (Z.log2 y < 16)%Z.
    { destruct (Z.eq_dec y 0) as [-> | ]; [simpl; lia |].
      apply Z.log2_lt_pow2; [lia | simpl; lia]. }
    lia.
Qed.

Lemma bit_xor_small (x y : Z) :
  (0 <= x < 65536)%Z -> (0 <= y < 65536)%Z -> bit_xor x y = Z.lxor x y.
Proof.
  intros Hx Hy. unfold bit_xor.
  rewrite (to_int32_small Hx), (to_int32_small Hy).
  apply to_int32_small, lxor_small; assumption.
Qed.

Lemma bit_or_small (x y : Z) :
  (0 <= x < 65536)%Z -> (0 <= y < 65536)%Z -> bit_or x y = Z.lor x y.
Proof.
  intros Hx Hy. unfold bit_or.
  rewrite (to_int32_small Hx), (to_int32_small Hy).
  apply to_int32_small, lor_small; assumption.
Qed.

Lemma skipn_nth_error {A : Type} (l : list A) (i : nat) (x : A) :
  nth_error l i = Some x -> skipn i l = x :: skipn (S i) l.
Proof.
  revert i. induction l as [| h l IH]; intros [| i] H; simpl in *; try discriminate.
  - congruence.
  - apply IH in H. exact H.
Qed.

Lemma wf_nth_error (s : jsstring) (i : nat) (c : N) :
  wf_string s -> nth_error s i = Some c -> (0 <= Z.of_N c < 65536)%Z.
Proof.
  intros Hs Hn. apply nth_error_In in Hn.
  unfold wf_string in Hs. rewrite Forall_forall in Hs.
  specialize (Hs c Hn). unfold code_unit in Hs. lia.
Qed.

Lemma compare_loop_reads (n i : nat) (a b : jsstring) (res : Z) (reads : list nat) :
  snd (compare_loop n i a b res reads) = reads ++ seq i n.
Proof.
  revert i res reads. induction n as [| n IH]; intros i res reads; simpl.
  - now rewrite app_nil_r.
  - rewrite IH, <- app_assoc. reflexivity.
Qed.

Lemma compare_loop_zero (a b : jsstring) :
  wf_string a -> wf_string b -> length a = length b ->
  forall (n i : nat) (res : Z) (reads : list nat),
    i + n = length a ->
    (0 <= res < 65536)%Z ->
    (fst (compare_loop n i a b res reads) = 0%Z <-> res = 0%Z /\ skipn i a = skipn i b).
Proof.
  intros Ha Hb Hlen. induction n as [| n IH]; intros i res reads Hi Hres; simpl.
  - rewrite !skipn_all2 by lia. tauto.
  - destruct (nth_error a i) as [x |] eqn:Ex;
      [| apply nth_error_None in Ex; lia].
    destruct (nth_error b i) as [y |] eqn:Ey;
      [| apply nth_error_None in Ey; lia].
    pose proof (wf_nth_error i Ha Ex) as Hx.
    pose proof (wf_nth_error i Hb Ey) as Hy.
    unfold charCodeAt. rewrite Ex, Ey.
    rewrite (bit_xor_small Hx Hy).
    pose proof (lxor_small Hx Hy) as Hxy.
    rewrite (bit_or_small Hres Hxy).
    rewrite IH by (try lia; apply lor_small; assumption).
    rewrite (skipn_nth_error _ _ Ex), (skipn_nth_error _ _ Ey).
    rewrite Z.lor_eq_0_iff, Z.lxor_eq_0_iff.
    split.
    + intros [[H1 H2] H3]. split; [exact H1 |].
      apply N2Z.inj in H2. congruence.
    + intros [H1 H2]. inversion H2; subst. tauto.
Qed.

Lemma constantTimeCompare_true_iff (a b : jsstring) :
  wf_string a -> wf_string b ->
  (constantTimeCompare a b = true <-> a = b).
Proof.
  intros Ha Hb.
  unfold constantTimeCompare, constantTimeCompare_run.
  destruct (Nat.eqb_spec (length a) (length b)) as [Hlen | Hlen]; simpl.
  - destruct (compare_loop (length a) 0 a b 0 []) as [res reads] eqn:E.
    simpl. rewrite Z.eqb_eq.
    pose proof (@compare_loop_zero a b Ha Hb Hlen (length a) 0 0%Z [] eq_refl ltac:(lia)) as H.
    rewrite E in H. simpl in H. rewrite H. tauto.
  - split; [discriminate | intros ->; contradiction].
Qed.

Lemma wf_stringb_ok (s : jsstring) : wf_stringb s = true -> wf_string s.
Proof.
  unfold wf_stringb, wf_string. rewrite forallb_forall, Forall_forall.
  intros H c Hc. apply N.ltb_lt. auto.
Qed.

(** C9: on strings of 16-bit code units [constantTimeCompare a b] is true
    exactly when [a = b]; it is false for different lengths and for
    different strings of one length; and for equal lengths it reads every
    index [0 .. length a - 1], whatever it finds. *)
Theorem C9_constantTimeCompare (a b : jsstring) :
  wf_string a -> wf_string b ->
  (constantTimeCompare a b = true <-> a = b) /\
  (length a <> length b -> constantTimeCompare a b = false) /\
  (length a = length b -> a <> b -> constantTimeCompare a b = false) /\
  (length a = length b -> constantTimeCompare_reads a b = seq 0 (length a)).
Proof.
  intros Ha Hb.
  pose proof (constantTimeCompare_true_iff Ha Hb) as Hiff.
  split; [exact Hiff |]. split; [| split].
  - intros Hlen. apply not_true_is_false. intros E.
    apply Hiff in E. subst. contradiction.
  - intros _ Hne. apply not_true_is_false. intros E.
    apply Hiff in E. contradiction.
  - intros Hlen. unfold constantTimeCompare_reads, constantTimeCompare_run.
    rewrite Hlen, Nat.eqb_refl. simpl. rewrite <- Hlen.
    pose proof (compare_loop_reads (length a) 0 a b 0 []) as H.
    destruct (compare_loop (length a) 0 a b 0 []) as [res reads].
    simpl in *. exact H.
Qed.

(** C9 on two strings that differ in their last character. *)
Lemma C9_witness :
  constantTimeCompare (lit "secret123") (lit "secret124") = false /\
  constantTimeCompare_reads (lit "secret123") (lit "secret124") = seq 0 9.
Proof.
  assert (Ha : wf_string (lit "secret123")) by (apply wf_stringb_ok; reflexivity).
  assert (Hb : wf_string (lit "secret124")) by (apply wf_stringb_ok; reflexivity).
  destruct (@C9_constantTimeCompare (lit "secret123") (lit "secret124") Ha Hb)
    as (_ & _ & Hne & Hreads).
  split.
  - apply Hne; [reflexivity | discriminate].
  - apply Hreads. reflexivity.
Defined.

(* ------------------------------------------------------------------------ *)
(** ** The regular expressions of the catalogue always move on *)

Lemma cursor_at_ok (s : jsstring) (i : nat) : i <= length s -> cursor_ok s (cursor_at s i).
Proof. intros H. split; simpl; auto. Qed.

Lemma skipn_cons_inv {A : Type} (s : list A) (n : nat) (c : A) (tl : list A) :
  skipn n s = c :: tl -> skipn (S n) s = tl /\ S n <= length s.
Proof.
  revert n. induction s as [| h s IH]; intros n H.
  - destruct n; discriminate.
  - destruct n as [| n]; simpl in *.
    + inversion H; subst. split; [reflexivity | lia].
    + apply IH in H. destruct H as [H1 H2]. split; [exact H1 | lia].
Qed.

Lemma turns_pred (mn : nat) (mx : option nat) :
  mx <> Some 0 -> mn <> 0 ->
  turns mn mx = S (turns (Nat.pred mn) (option_map Nat.pred mx)).
Proof.
  intros Hmx Hmn. destruct mn as [| mn]; [contradiction |].
  destruct mx as [[| m] |]; simpl; try reflexivity. contradiction.
Qed.

Lemma repeat_match_progress (s : jsstring) (n : nat) (body : cont -> cont) :
  progresses s n body ->
  forall (fuel mn : nat) (mx : option nat),
    progresses s (turns mn mx * n) (fun k => repeat_match body k fuel mn mx).
Proof.
  intros Hbody fuel. unfold progresses.
  induction fuel as [| fuel IHf]; intros mn mx k x cs res Hx H; simpl in H;
    [discriminate |].
  assert (Hturn : forall (c : bool) (r : cursor * captures),
    body (fun y cs' =>
            if c && (c_pos y =? c_pos x) then None
            else repeat_match body k fuel (Nat.pred mn) (option_map Nat.pred mx) y cs')
         x cs = Some r ->
    exists y cs',
      cursor_ok s y /\
      c_pos x + (n + turns (Nat.pred mn) (option_map Nat.pred mx) * n) <= c_pos y /\
      k y cs' = Some r).
  { intros c r Hm. apply Hbody in Hm; [| exact Hx].
    destruct Hm as (y & cs1 & Hy & Hle & Hm).
    destruct (c && (c_pos y =? c_pos x)); [discriminate |].
    apply IHf in Hm; [| exact Hy].
    destruct Hm as (z & cs2 & Hz & Hle2 & Hm).
    exists z, cs2. split; [exact Hz | split; [lia | exact Hm]]. }
  assert (Hstay : forall r, k x cs = Some r ->
    exists y cs', cursor_ok s y /\ c_pos x + 0 <= c_pos y /\ k y cs' = Some r).
  { intros r Hk. exists x, cs. split; [exact Hx | split; [lia | exact Hk]]. }
  destruct mx as [[| m] |].
  - replace (turns mn (Some 0)) with 0 by (unfold turns; lia).
    exact (Hstay _ H).
  - destruct (Nat.eqb_spec mn 0) as [-> | Hmn].
    + change (turns 0 (Some (S m)) * n) with 0.
      match type of H with
      | match ?t with _ => _ end = _ => destruct t as [p |] eqn:E
      end.
      * inversion H; subst.
        destruct (Hturn true _ E) as (y & cs' & Hy & Hle & Hk).
        exists y, cs'. split; [exact Hy | split; [lia | exact Hk]].
      * exact (Hstay _ H).
    + rewrite (@turns_pred mn (Some (S m))) by congruence.
      exact (Hturn false _ H).
  - destruct (Nat.eqb_spec mn 0) as [-> | Hmn].
    + change (turns 0 None * n) with 0.
      match type of H with
      | match ?t with _ => _ end = _ => destruct t as [p |] eqn:E
      end.
      * inversion H; subst.
        destruct (Hturn true _ E) as (y & cs' & Hy & Hle & Hk).
        exists y, cs'. split; [exact Hy | split; [lia | exact Hk]].
      * exact (Hstay _ H).
    + rewrite (@turns_pred mn None) by congruence.
      exact (Hturn false _ H).
Qed.

Lemma rmatch_progress (ic : bool) (s : jsstring) (r : regex) :
  progresses s (min_len r) (rmatch ic r).
Proof.
  unfold progresses.
  induction r as [| neg rs | r1 IH1 r2 IH2 | r1 IH1 r2 IH2 | r1 IH1 mn mx | i r1 IH1 | | r1 IH1];
    intros k x cs res Hx H; cbn [rmatch] in H; cbn [min_len].
  - exists x, cs. split; [exact Hx | split; [lia | exact H]].
  - destruct (c_rest x) as [| c tl] eqn:E; [discriminate |].
    destruct (xorb neg (set_member ic rs c)); [| discriminate].
    destruct Hx as [Hr Hl]. rewrite Hr in E.
    apply skipn_cons_inv in E. destruct E as [E1 E2].
    eexists _, cs. split; [| split; [| exact H]]; simpl; [| lia].
    split; simpl; auto.
  - apply IH1 in H; [| exact Hx]. destruct H as (y & cs1 & Hy & Hle & H).
    apply IH2 in H; [| exact Hy]. destruct H as (z & cs2 & Hz & Hle2 & H).
    exists z, cs2. split; [exact Hz | split; [lia | exact H]].
  - destruct (rmatch ic r1 k x cs) eqn:E.
    + inversion H; subst. apply IH1 in E; [| exact Hx].
      destruct E as (y & cs1 & Hy & Hle & E).
      exists y, cs1. split; [exact Hy | split; [lia | exact E]].
    + apply IH2 in H; [| exact Hx].
      destruct H as (y & cs1 & Hy & Hle & H).
      exists y, cs1. split; [exact Hy | split; [lia | exact H]].
  - exact (@repeat_match_progress s (min_len r1) (rmatch ic r1) IH1 _ mn mx k x cs res Hx H).
  - apply IH1 in H; [| exact Hx]. destruct H as (y & cs1 & Hy & Hle & H).
    eexists y, _. split; [exact Hy | split; [lia | exact H]].
  - destruct (at_word_boundary x); [| discriminate].
    exists x, cs. split; [exact Hx | split; [lia | exact H]].
  - destruct (rmatch ic r1 _ x cs); [discriminate |].
    exists x, cs. split; [exact Hx | split; [lia | exact H]].
Qed.

Lemma match_at_bounds (re : RegExp) (s : jsstring) (i : nat) (m : exec_result) :
  i <= length s -> match_at re s i = Some m ->
  m_index m = i /\ i + min_len (source re) <= m_end m /\ m_end m <= length s.
Proof.
  intros Hi H. unfold match_at in H.
  destruct (rmatch _ _ _ _ _) as [[y cs] |] eqn:E; [| discriminate].
  inversion H; subst; clear H. simpl.
  apply (@rmatch_progress (flag_i re) s) in E; [| apply cursor_at_ok; exact Hi].
  destruct E as (z & cs' & [Hz1 Hz2] & Hle & E).
  inversion E; subst. simpl in Hle. auto.
Qed.

Lemma scan_bounds (re : RegExp) (s : jsstring) :
  forall (n i : nat) (m : exec_result),
    i + n = length s -> scan n re s i = Some m ->
    i <= m_index m /\ m_index m + min_len (source re) <= m_end m /\ m_end m <= length s.
Proof.
  induction n as [| n IH]; intros i m Hi H; simpl in H.
  - destruct (match_at re s i) eqn:E; [| discriminate].
    inversion H; subst. apply match_at_bounds in E; [| lia]. lia.
  - destruct (match_at re s i) eqn:E.
    + inversion H; subst. apply match_at_bounds in E; [| lia]. lia.
    + apply IH in H; [| lia]. lia.
Qed.

Lemma exec_bounds (re : RegExp) (s : jsstring) (lastIndex : nat) (m : exec_result) :
  exec re s lastIndex = Some m ->
  m_index m + min_len (source re) <= m_end m /\ m_end m <= length s /\
  (flag_g re = true -> lastIndex <= m_index m).
Proof.
  unfold exec. intros H.
  destruct (Nat.ltb_spec (length s) (if flag_g re then lastIndex else 0)) as [Hlt | Hle];
    [discriminate |].
  apply scan_bounds in H; [| lia].
  destruct (flag_g re); split; try split; try lia; discriminate.
Qed.

(** Every match the loop visits is non-empty and lies within [s]. *)
Lemma exec_loop_spans (re : RegExp) (s : jsstring) :
  forall (fuel lastIndex : nat) (ms : list exec_result),
    exec_loop fuel re s lastIndex = Some ms ->
    Forall (fun m => m_index m < m_end m /\ m_end m <= length s) ms.
Proof.
  induction fuel as [| fuel IH]; intros li ms H; simpl in H.
  - destruct (exec re s li) as [m |] eqn:E.
    + destruct (negb (flag_g re) || (m_end m <=? m_index m)); discriminate.
    + inversion H; subst. constructor.
  - destruct (exec re s li) as [m |] eqn:E.
    + destruct (negb (flag_g re) || (m_end m <=? m_index m)) eqn:C; [discriminate |].
      destruct (exec_loop fuel re s (m_end m)) as [ms' |] eqn:E'; [| discriminate].
      inversion H; subst. constructor.
      * apply orb_false_iff in C. destruct C as [_ C].
        apply Nat.leb_gt in C. apply exec_bounds in E. lia.
      * eapply IH; eauto.
    + inversion H; subst. constructor.
Qed.

(** The loop is reported as endless only when it is: some [exec] call
    returns an empty match, or the regular expression lacks the [g] flag
    and matches. *)
Lemma exec_loop_endless (re : RegExp) (s : jsstring) :
  forall (fuel lastIndex : nat),
    length s <= lastIndex + fuel ->
    exec_loop fuel re s lastIndex = None ->
    exists li m, exec re s li = Some m /\
                 (flag_g re = false \/ m_end m <= m_index m).
Proof.
  induction fuel as [| fuel IH]; intros li Hf H; simpl in H.
  - destruct (exec re s li) as [m |] eqn:E; [| discriminate].
    destruct (negb (flag_g re)) eqn:G; simpl in H.
    + exists li, m. split; [exact E | left]. now destruct (flag_g re).
    + destruct (Nat.leb_spec (m_end m) (m_index m)) as [C | C].
      * exists li, m. auto.
      * apply exec_bounds in E. destruct E as (E1 & E2 & E3).
        assert (flag_g re = true) by now destruct (flag_g re).
        specialize (E3 H0). lia.
  - destruct (exec re s li) as [m |] eqn:E; [| discriminate].
    destruct (negb (flag_g re)) eqn:G; simpl in H.
    + exists li, m. split; [exact E | left]. now destruct (flag_g re).
    + destruct (Nat.leb_spec (m_end m) (m_index m)) as [C | C].
      * exists li, m. auto.
      * destruct (exec_loop fuel re s (m_end m)) as [ms' |] eqn:E'; [discriminate |].
        apply IH in E'; [exact E' |].
        apply exec_bounds in E. destruct E as (E1 & E2 & E3).
        assert (flag_g re = true) by now destruct (flag_g re).
        specialize (E3 H0). lia.
Qed.

(** A global pattern that cannot match the empty string is always run to
    the end. *)
Lemma exec_all_total (re : RegExp) (s : jsstring) :
  flag_g re = true -> 1 <= min_len (source re) ->
  exists ms, exec_all re s = Some ms.
Proof.
  intros G Hmin. unfold exec_all.
  destruct (exec_loop (length s) re s 0) as [ms |] eqn:E; [eauto |].
  apply exec_loop_endless in E; [| lia].
  destruct E as (li & m & E & [C | C]); [congruence |].
  apply exec_bounds in E. lia.
Qed.

Lemma catalogue_min_len (p : PatternName) : 1 <= min_len (pattern_source p).
Proof. destruct p; vm_compute; lia. Qed.

(* ------------------------------------------------------------------------ *)
(** ** deduplicateTokens *)

Lemma token_eq_dec (a b : DetectedToken) : {a = b} + {a <> b}.
Proof.
  decide equality.
  - apply Z.eq_dec.
  - apply Nat.eq_dec.
  - apply Nat.eq_dec.
  - decide equality. decide equality.
  - apply (list_eq_dec N.eq_dec).
Qed.

Lemma overlaps_true (t e : DetectedToken) :
  overlaps t e = true <->
  (startIndex e <= startIndex t < endIndex e) \/
  (startIndex e < endIndex t <= endIndex e) \/
  (startIndex t <= startIndex e /\ endIndex e <= endIndex t).
Proof.
  unfold overlaps. rewrite !orb_true_iff, !andb_true_iff.
  rewrite !Nat.leb_le, !Nat.ltb_lt. tauto.
Qed.

Lemma overlaps_not_disjoint (t e : DetectedToken) :
  span_nonempty t -> span_nonempty e ->
  (overlaps t e = true <-> ~ spans_disjoint t e).
Proof.
  unfold span_nonempty, spans_disjoint. intros Ht He.
  rewrite overlaps_true. lia.
Qed.

Lemma overlaps_false_disjoint (t e : DetectedToken) :
  span_nonempty t -> span_nonempty e ->
  overlaps t e = false -> spans_disjoint t e.
Proof.
  intros Ht He H.
  destruct (overlaps_not_disjoint Ht He) as [_ H2].
  unfold spans_disjoint in *. 
  destruct (le_dec (endIndex t) (startIndex e)); [auto |].
  destruct (le_dec (endIndex e) (startIndex t)); [auto |].
  rewrite H2 in H; [discriminate | lia].
Qed.

(** *** The sort *)

Lemma insert_by_start_perm (t : DetectedToken) (l : list DetectedToken) :
  Permutation (insert_by_start t l) (t :: l).
Proof.
  induction l as [| h l IH]; simpl; [reflexivity |].
  destruct (startIndex t <=? startIndex h); [reflexivity |].
  rewrite IH. apply perm_swap.
Qed.

Lemma sort_by_start_perm (l : list DetectedToken) : Permutation (sort_by_start l) l.
Proof.
  induction l as [| h l IH]; simpl; [reflexivity |].
  unfold sort_by_start in *. simpl.
  rewrite insert_by_start_perm. now constructor.
Qed.

Lemma insert_by_start_sorted (t : DetectedToken) (l : list DetectedToken) :
  sorted_by_start l -> sorted_by_start (insert_by_start t l).
Proof.
  unfold sorted_by_start. induction l as [| h l IH]; intros Hs; simpl.
  - constructor; constructor.
  - destruct (Nat.leb_spec (startIndex t) (startIndex h)) as [Hle | Hgt].
    + constructor; [exact Hs |].
      inversion Hs as [| ? ? Hs' Hall]; subst.
      constructor; [exact Hle |].
      eapply Forall_impl; [| exact Hall]. intros x Hx. simpl in Hx. lia.
    + inversion Hs as [| ? ? Hs' Hall]; subst.
      constructor; [apply IH; exact Hs' |].
      assert (Hin : Forall (fun b => startIndex h <= startIndex b) (t :: l)).
      { constructor; [lia | exact Hall]. }
      rewrite Forall_forall in *. intros x Hx. apply Hin.
      eapply Permutation_in; [apply insert_by_start_perm | exact Hx].
Qed.

Lemma sort_by_start_sorted (l : list DetectedToken) : sorted_by_start (sort_by_start l).
Proof.
  induction l as [| h l IH]; simpl; [constructor |].
  apply insert_by_start_sorted. exact IH.
Qed.

(** *** Lists *)

Lemma findIndex_some (p : DetectedToken -> bool) (l : list DetectedToken) (i : nat) :
  findIndex p l = Some i ->
  exists pre e post,
    l = pre ++ e :: post /\ length pre = i /\ p e = true /\
    Forall (fun x => p x = false) pre.
Proof.
  revert i. induction l as [| h l IH]; intros i H; simpl in H; [discriminate |].
  destruct (p h) eqn:E.
  - inversion H; subst. exists [], h, l. repeat split; auto.
  - destruct (findIndex p l) as [j |] eqn:F; [| discriminate].
    inversion H; subst.
    destruct (IH j eq_refl) as (pre & e & post & -> & Hlen & He & Hpre).
    exists (h :: pre), e, post. simpl. repeat split; auto.
Qed.

Lemma findIndex_none (p : DetectedToken -> bool) (l : list DetectedToken) :
  findIndex p l = None -> existsb p l = false.
Proof.
  induction l as [| h l IH]; intros H; simpl in *; [reflexivity |].
  destruct (p h); [discriminate |].
  destruct (findIndex p l); [discriminate |]. simpl. auto.
Qed.

Lemma nth_error_middle (pre : list DetectedToken) (e : DetectedToken) (post : list DetectedToken) :
  nth_error (pre ++ e :: post) (length pre) = Some e.
Proof. induction pre; simpl; auto. Qed.

Lemma set_at_middle (pre : list DetectedToken) (e t : DetectedToken) (post : list DetectedToken) :
  set_at (length pre) t (pre ++ e :: post) = pre ++ t :: post.
Proof. induction pre as [| h pre IH]; simpl; [reflexivity | now rewrite IH]. Qed.

Lemma strongly_sorted_snoc {A : Type} (R : A -> A -> Prop) (l : list A) (x : A) :
  StronglySorted R l -> Forall (fun y => R y x) l -> StronglySorted R (l ++ [x]).
Proof.
  induction l as [| h l IH]; intros Hs Hall; simpl.
  - constructor; constructor.
  - inversion Hs; subst. inversion Hall; subst.
    constructor; [apply IH; assumption |].
    apply Forall_app. split; [assumption | constructor; [assumption | constructor]].
Qed.

Lemma strongly_sorted_middle {A : Type} (R : A -> A -> Prop) (pre : list A) (e : A) (post : list A) :
  StronglySorted R (pre ++ e :: post) ->
  StronglySorted R pre /\ Forall (fun y => R y e) pre /\ Forall (R e) post.
Proof.
  induction pre as [| h pre IH]; intros Hs; simpl in *.
  - inversion Hs; subst. repeat split; [constructor | constructor | assumption].
  - inversion Hs as [| ? ? Hs' Hall]; subst.
    destruct (IH Hs') as (H1 & H2 & H3).
    apply Forall_app in Hall. destruct Hall as [Ha Hb].
    inversion Hb; subst.
    repeat split; [constructor; assumption | constructor; assumption | assumption].
Qed.

(** *** One turn of the loop *)

(** The two outcomes of a turn, as the loop decides them. *)
Lemma dedup_step_cases (res : list DetectedToken) (t : DetectedToken) :
  (existsb (overlaps t) res = false /\ dedup_step res t = res ++ [t]) \/
  (exists pre e post,
     res = pre ++ e :: post /\
     Forall (fun x => overlaps t x = false) pre /\
     overlaps t e = true /\
     dedup_step res t =
       if (confidence e <? confidence t)%Z then pre ++ t :: post else res).
Proof.
  unfold dedup_step.
  destruct (existsb (overlaps t) res) eqn:E; simpl; [right | left; auto].
  destruct (findIndex (overlaps t) res) as [i |] eqn:F.
  - destruct (findIndex_some _ _ F) as (pre & e & post & -> & Hlen & He & Hpre).
    exists pre, e, post. subst i.
    rewrite nth_error_middle, set_at_middle. auto.
  - apply findIndex_none in F. congruence.
Qed.

Lemma dedup_step_incl (res : list DetectedToken) (t x : DetectedToken) :
  In x (dedup_step res t) -> In x res \/ x = t.
Proof.
  destruct (dedup_step_cases res t) as [[_ ->] | (pre & e & post & -> & _ & _ & ->)].
  - rewrite in_app_iff. simpl. intros [H | [H | []]]; auto.
  - destruct (confidence e <? confidence t)%Z; [| auto].
    rewrite !in_app_iff. simpl. intros [H | [H | H]]; auto.
Qed.

Lemma dedup_step_ok (res : list DetectedToken) (t : DetectedToken) :
  accepted_ok (startIndex t) res -> span_nonempty t ->
  accepted_ok (startIndex t) (dedup_step res t).
Proof.
  intros (Hch & Hne & Hb) Ht.
  destruct (dedup_step_cases res t) as [[Hno ->] | (pre & e & post & -> & Hpre & He & ->)].
  - repeat split.
    + apply strongly_sorted_snoc; [exact Hch |].
      rewrite Forall_forall in *. intros y Hy.
      assert (Hoy : overlaps t y = false).
      { destruct (overlaps t y) eqn:O; [| reflexivity].
        assert (existsb (overlaps t) res = true)
          by (apply existsb_exists; exists y; auto).
        congruence. }
      pose proof (overlaps_false_disjoint Ht (Hne y Hy) Hoy) as Hd.
      specialize (Hb y Hy). specialize (Hne y Hy).
      unfold spans_disjoint, span_nonempty in *. simpl in Hb. lia.
    + apply Forall_app. split; [exact Hne | constructor; [exact Ht | constructor]].
    + apply Forall_app. split; [exact Hb | constructor; [lia | constructor]].
  - destruct (confidence e <? confidence t)%Z; [| repeat split; assumption].
    destruct (strongly_sorted_middle _ _ _ Hch) as (Hs1 & Hs2 & Hs3).
    apply Forall_app in Hne. destruct Hne as [Hne1 Hne2].
    apply Forall_app in Hb. destruct Hb as [Hb1 Hb2].
    inversion Hne2 as [| ? ? Hne_e Hne_post]; subst.
    inversion Hb2 as [| ? ? Hb_e Hb_post]; subst.
    assert (Hlt : startIndex t < endIndex e).
    { apply overlaps_true in He. unfold span_nonempty in *. lia. }
    assert (post = []).
    { destruct post as [| f post]; [reflexivity |].
      inversion Hs3; subst. inversion Hb_post; subst. lia. }
    subst post. repeat split.
    + apply strongly_sorted_snoc; [exact Hs1 |].
      eapply Forall_impl; [| exact Hs2]. intros y Hy. simpl in Hy.
      unfold span_nonempty in Hne_e. lia.
    + apply Forall_app. split; [exact Hne1 | constructor; [exact Ht | constructor]].
    + apply Forall_app. split; [exact Hb1 | constructor; [lia | constructor]].
Qed.

Lemma accepted_ok_mono (b b' : nat) (res : list DetectedToken) :
  b <= b' -> accepted_ok b res -> accepted_ok b' res.
Proof.
  intros Hle (H1 & H2 & H3). repeat split; auto.
  eapply Forall_impl; [| exact H3]. intros x Hx. simpl in Hx. lia.
Qed.

Lemma fold_dedup_ok (tokens : list DetectedToken) :
  forall (res : list DetectedToken) (bound : nat),
    sorted_by_start tokens -> Forall span_nonempty tokens ->
    Forall (fun t => bound <= startIndex t) tokens ->
    accepted_ok bound res ->
    chained (fold_left dedup_step tokens res) /\
    Forall span_nonempty (fold_left dedup_step tokens res).
Proof.
  induction tokens as [| t tokens IH]; intros res bound Hs Hne Hb Hok; simpl.
  - destruct Hok as (H1 & H2 & _). auto.
  - inversion Hs as [| ? ? Hs' Hall]; subst.
    inversion Hne; subst. inversion Hb; subst.
    apply (IH _ (startIndex t)); auto.
    apply dedup_step_ok; [| assumption].
    eapply accepted_ok_mono; [| exact Hok]. assumption.
Qed.

Lemma chained_sorted (l : list DetectedToken) :
  chained l -> Forall span_nonempty l -> sorted_by_start l /\ non_overlapping l.
Proof.
  unfold chained, sorted_by_start, non_overlapping.
  induction l as [| h l IH]; intros Hc Hne.
  - split; constructor.
  - inversion Hc as [| ? ? Hc' Hall]; subst. inversion Hne as [| ? ? Hh Hne']; subst.
    destruct (IH Hc' Hne') as [H1 H2].
    split; constructor; auto.
    + rewrite Forall_forall in *. intros x Hx.
      specialize (Hall x Hx). unfold span_nonempty in Hh. lia.
    + eapply Forall_impl; [| exact Hall]. intros x Hx. left. exact Hx.
Qed.

Lemma deduplicateTokens_sorted (tokens : list DetectedToken) :
  Forall span_nonempty tokens ->
  sorted_by_start (deduplicateTokens tokens) /\ non_overlapping (deduplicateTokens tokens).
Proof.
  intros Hne. unfold deduplicateTokens.
  destruct (@fold_dedup_ok (sort_by_start tokens) [] 0) as [H1 H2].
  - apply sort_by_start_sorted.
  - rewrite Forall_forall in *. intros x Hx. apply Hne.
    eapply Permutation_in; [apply sort_by_start_perm | exact Hx].
  - rewrite Forall_forall. intros; lia.
  - repeat split; constructor.
  - apply chained_sorted; assumption.
Qed.

Lemma fold_dedup_incl (tokens : list DetectedToken) :
  forall (res : list DetectedToken) (x : DetectedToken),
    In x (fold_left dedup_step tokens res) -> In x res \/ In x tokens.
Proof.
  induction tokens as [| t tokens IH]; intros res x H; simpl in *; [auto |].
  apply IH in H. destruct H as [H | H]; [| auto].
  apply dedup_step_incl in H. destruct H as [H | ->]; auto.
Qed.

Lemma deduplicateTokens_incl (tokens : list DetectedToken) :
  incl (deduplicateTokens tokens) tokens.
Proof.
  intros x Hx. unfold deduplicateTokens in Hx.
  apply fold_dedup_incl in Hx. destruct Hx as [[] | Hx].
  eapply Permutation_in; [apply sort_by_start_perm | exact Hx].
Qed.

(** *** A candidate that overlaps no other one *)

Section Isolated.

Variable c : DetectedToken.
Variable universe : list DetectedToken.
Hypothesis c_nonempty : span_nonempty c.
Hypothesis universe_nonempty : Forall span_nonempty universe.
Hypothesis c_isolated :
  forall d, In d universe -> d <> c -> spans_disjoint c d.

Lemma isolated_overlap (d : DetectedToken) :
  In d universe -> (overlaps d c = true \/ overlaps c d = true) -> d = c.
Proof.
  intros Hd Ho. destruct (token_eq_dec d c) as [E | E]; [exact E | exfalso].
  pose proof (c_isolated Hd E) as Hdis.
  rewrite Forall_forall in universe_nonempty.
  pose proof (universe_nonempty d Hd) as Hne.
  destruct Ho as [Ho | Ho].
  - apply (overlaps_not_disjoint Hne c_nonempty) in Ho.
    apply Ho. unfold spans_disjoint in *. tauto.
  - apply (overlaps_not_disjoint c_nonempty Hne) in Ho. contradiction.
Qed.

Lemma dedup_step_keeps (res : list DetectedToken) (t : DetectedToken) :
  incl res universe -> In t universe ->
  In c res -> In c (dedup_step res t).
Proof.
  intros Hres Ht Hc.
  destruct (dedup_step_cases res t) as [[_ ->] | (pre & e & post & -> & _ & He & ->)].
  - apply in_app_iff. auto.
  - destruct (confidence e <? confidence t)%Z eqn:Cf; [| exact Hc].
    destruct (token_eq_dec e c) as [-> | Hec].
    + assert (t = c) by (apply isolated_overlap; auto).
      subst t. apply Z.ltb_lt in Cf. lia.
    + rewrite in_app_iff in *. simpl in *. destruct Hc as [Hc | [Hc | Hc]]; auto.
      contradiction.
Qed.

Lemma dedup_step_takes (res : list DetectedToken) :
  incl res universe -> In c (dedup_step res c).
Proof.
  intros Hres.
  destruct (dedup_step_cases res c) as [[_ ->] | (pre & e & post & -> & _ & He & ->)].
  - apply in_app_iff. simpl. auto.
  - assert (e = c).
    { apply isolated_overlap; [| auto].
      apply Hres. apply in_app_iff. simpl. auto. }
    subst e. destruct (confidence c <? confidence c)%Z;
      apply in_app_iff; simpl; auto.
Qed.

Lemma fold_dedup_keeps (tokens : list DetectedToken) :
  forall res : list DetectedToken,
    incl res universe -> incl tokens universe ->
    In c res \/ In c tokens ->
    In c (fold_left dedup_step tokens res).
Proof.
  induction tokens as [| t tokens IH]; intros res Hres Htok Hc; simpl.
  - destruct Hc as [Hc | []]. exact Hc.
  - assert (Hres' : incl (dedup_step res t) universe).
    { intros x Hx. apply dedup_step_incl in Hx. destruct Hx as [Hx | ->].
      - apply Hres. exact Hx.
      - apply Htok. simpl. auto. }
    apply IH; [exact Hres' | intros x Hx; apply Htok; simpl; auto |].
    destruct Hc as [Hc | [-> | Hc]].
    + left. apply dedup_step_keeps; auto. apply Htok. simpl. auto.
    + left. apply dedup_step_takes. exact Hres.
    + right. exact Hc.
Qed.

End Isolated.

Lemma deduplicateTokens_keeps_isolated (tokens : list DetectedToken) (c : DetectedToken) :
  Forall span_nonempty tokens ->
  In c tokens ->
  (forall d, In d tokens -> d <> c -> spans_disjoint c d) ->
  In c (deduplicateTokens tokens).
Proof.
  intros Hne Hc Hiso. unfold deduplicateTokens.
  apply (@fold_dedup_keeps c tokens); auto.
  - rewrite Forall_forall in Hne. auto.
  - intros x [].
  - intros x Hx. eapply Permutation_in; [apply sort_by_start_perm | exact Hx].
  - right. eapply Permutation_in; [symmetry; apply sort_by_start_perm | exact Hc].
Qed.

(* ------------------------------------------------------------------------ *)
(** ** detectTokens *)

Lemma substring_length (s : jsstring) (a b : nat) :
  a <= b -> b <= length s -> length (substring s a b) = b - a.
Proof.
  intros Hab Hb. unfold substring.
  rewrite length_firstn, length_skipn. lia.
Qed.

Lemma truthy_nonempty (s : jsstring) : truthy s = true -> 1 <= length s.
Proof. destruct s; simpl; [discriminate | lia]. Qed.

Lemma group_or_match_nonempty (s : jsstring) (m : exec_result) :
  m_index m < m_end m -> m_end m <= length s ->
  1 <= length (group_or_match s m).
Proof.
  intros H1 H2. unfold group_or_match.
  assert (Hm : 1 <= length (matched s m)).
  { unfold matched. rewrite substring_length; lia. }
  destruct (group s m 1) as [g |]; [| exact Hm].
  destruct (truthy g) eqn:T; [apply truthy_nonempty; exact T | exact Hm].
Qed.

Lemma named_token_nonempty (cfg : TokenDetectionConfig) (text pt : jsstring)
  (p : PatternName) (m : exec_result) (t : DetectedToken) :
  m_index m < m_end m -> m_end m <= length pt ->
  named_token cfg text pt p m = Some t -> span_nonempty t.
Proof.
  intros H1 H2 H. unfold named_token in H.
  destruct (_ || _); [discriminate |].
  inversion H; subst. unfold span_nonempty. simpl.
  pose proof (group_or_match_nonempty pt m H1 H2). lia.
Qed.

Lemma custom_token_nonempty (cfg : TokenDetectionConfig) (text pt : jsstring)
  (m : exec_result) (t : DetectedToken) :
  m_index m < m_end m -> m_end m <= length pt ->
  custom_token cfg text pt m = Some t -> span_nonempty t.
Proof.
  intros H1 H2 H. unfold custom_token in H.
  destruct (_ <=? _)%Z; [| discriminate].
  inversion H; subst. unfold span_nonempty. simpl.
  unfold matched. rewrite substring_length; lia.
Qed.

Lemma keep_some_forall {A B : Type} (P : A -> Prop) (Q : B -> Prop)
  (f : A -> option B) (l : list A) :
  (forall a b, P a -> f a = Some b -> Q b) ->
  Forall P l -> Forall Q (keep_some (List.map f l)).
Proof.
  intros Hf. induction l as [| a l IH]; intros Hl; simpl; [constructor |].
  inversion Hl; subst.
  destruct (f a) as [b |] eqn:E; [constructor; eauto | auto].
Qed.

Lemma run_pattern_nonempty (re : RegExp) (pt : jsstring)
  (body : exec_result -> option DetectedToken) (ts : list DetectedToken) :
  (forall m t, m_index m < m_end m /\ m_end m <= length pt ->
               body m = Some t -> span_nonempty t) ->
  run_pattern re pt body = Some ts -> Forall span_nonempty ts.
Proof.
  intros Hbody H. unfold run_pattern in H.
  destruct (exec_all re pt) as [ms |] eqn:E; [| discriminate].
  inversion H; subst. unfold exec_all in E.
  apply exec_loop_spans in E.
  eapply keep_some_forall; [| exact E]. exact Hbody.
Qed.

Lemma run_all_forall (P : DetectedToken -> Prop) (runs : list (option (list DetectedToken))) :
  forall ts,
    Forall (fun r => forall l, r = Some l -> Forall P l) runs ->
    run_all runs = Some ts -> Forall P ts.
Proof.
  induction runs as [| r runs IH]; intros ts Hr H; simpl in H.
  - inversion H; subst. constructor.
  - destruct r as [l |]; [| discriminate].
    destruct (run_all runs) as [ts' |] eqn:E; [| discriminate].
    inversion H; subst. inversion Hr; subst.
    apply Forall_app. split; auto.
Qed.

Lemma candidates_nonempty (cfg : TokenDetectionConfig) (text : jsstring)
  (detected : list DetectedToken) :
  candidates cfg text = Some detected -> Forall span_nonempty detected.
Proof.
  unfold candidates. intros H.
  eapply run_all_forall; [| exact H].
  apply Forall_app. split.
  - rewrite Forall_forall. intros r Hr l ->.
    apply in_map_iff in Hr. destruct Hr as (p & Hp & _).
    eapply run_pattern_nonempty; [| exact Hp].
    intros m t [H1 H2]. apply named_token_nonempty; assumption.
  - destruct (customPatterns cfg) as [res |]; [| constructor].
    rewrite Forall_forall. intros r Hr l ->.
    apply in_map_iff in Hr. destruct Hr as (re & Hp & _).
    eapply run_pattern_nonempty; [| exact Hp].
    intros m t [H1 H2]. apply custom_token_nonempty; assumption.
Qed.

(** With the patterns of the catalogue alone, detection always returns. *)
Lemma run_all_total (runs : list (option (list DetectedToken))) :
  Forall (fun r => exists l, r = Some l) runs -> exists ts, run_all runs = Some ts.
Proof.
  induction runs as [| r runs IH]; intros H; simpl; [eauto |].
  inversion H as [| ? ? [l ->] Hrest]; subst.
  destruct (IH Hrest) as [ts ->]. eauto.
Qed.

Lemma detectTokens_returns (cfg : TokenDetectionConfig) (text : jsstring) :
  customPatterns cfg = None -> exists out, detectTokens cfg text = Some out.
Proof.
  intros Hc. unfold detectTokens, candidates. rewrite Hc, app_nil_r.
  destruct (run_all _) as [ts |] eqn:E; [eauto |].
  exfalso.
  match type of E with
  | run_all ?runs = None => destruct (@run_all_total runs) as [ts E']
  end; [| congruence].
  rewrite Forall_forall. intros r Hr.
  apply in_map_iff in Hr. destruct Hr as (p & <- & _).
  unfold run_pattern.
  match goal with
  | |- context [exec_all ?re ?s] => destruct (@exec_all_total re s) as [ms ->]
  end; [reflexivity | apply catalogue_min_len | eauto].
Qed.

(** C4, refuted as stated: in [pwd=ab@cd.com;10.0.0.1] the PASSWORD
    candidate (confidence 0.70) overlaps the PRIVATE_IP candidate
    (confidence 0.50), yet the result drops PASSWORD and keeps
    PRIVATE_IP. *)
Lemma C4_counterexample : ~ higher_confidence_wins DEFAULT_DETECTION_CONFIG chained_text.
Proof.
  intros H.
  set (pw := mkToken (lit "pwd=ab@cd.com;10.0") (Named PASSWORD) 0 18 70).
  set (em := mkToken (lit "ab@cd.com") (Named EMAIL) 4 13 80).
  set (ip := mkToken (lit "10.0.0.1") (Named PRIVATE_IP) 14 22 50).
  assert (Hc : candidates DEFAULT_DETECTION_CONFIG chained_text = Some [pw; em; ip])
    by (vm_compute; reflexivity).
  assert (Hd : detectTokens DEFAULT_DETECTION_CONFIG chained_text = Some [em; ip])
    by (vm_compute; reflexivity).
  destruct (H [pw; em; ip] [em; ip] pw ip Hc Hd) as [_ Hnot].
  - simpl. auto.
  - simpl. auto.
  - vm_compute. reflexivity.
  - vm_compute. reflexivity.
  - apply Hnot. simpl. auto.
Qed.

(** C4, amended: without custom patterns [detectTokens] always returns;
    whatever it returns is sorted by start index with pairwise disjoint
    spans, is the left-to-right walk of [dedup_step] over the candidates
    sorted by start, holds only candidates, and holds every candidate that
    overlaps no other one.  At each step a candidate that overlaps no
    accepted span is appended; otherwise it takes the place of the first
    accepted span it overlaps when its confidence is strictly higher, and
    is dropped when not. *)
Theorem C4_detectTokens_spans (cfg : TokenDetectionConfig) (text : jsstring) :
  (customPatterns cfg = None -> exists out, detectTokens cfg text = Some out) /\
  forall out,
    detectTokens cfg text = Some out ->
    sorted_by_start out /\
    non_overlapping out /\
    exists detected,
      candidates cfg text = Some detected /\
      out = fold_left dedup_step (sort_by_start detected) [] /\
      incl out detected /\
      (forall c, In c detected ->
                 (forall d, In d detected -> d <> c -> spans_disjoint c d) ->
                 In c out) /\
      (forall accepted t,
         (existsb (overlaps t) accepted = false /\
          dedup_step accepted t = accepted ++ [t]) \/
         (exists pre e post,
            accepted = pre ++ e :: post /\
            Forall (fun x => overlaps t x = false) pre /\
            overlaps t e = true /\
            dedup_step accepted t =
              if (confidence e <? confidence t)%Z then pre ++ t :: post else accepted)).
Proof.
  split; [apply detectTokens_returns |].
  unfold detectTokens. intros out H.
  destruct (candidates cfg text) as [detected |] eqn:E; [| discriminate].
  inversion H; subst; clear H.
  pose proof (candidates_nonempty _ _ E) as Hne.
  destruct (deduplicateTokens_sorted Hne) as [H1 H2].
  split; [exact H1 |]. split; [exact H2 |].
  exists detected. split; [reflexivity |]. split; [reflexivity |].
  split; [apply deduplicateTokens_incl |].
  split; [| apply dedup_step_cases].
  intros c Hc Hiso. apply deduplicateTokens_keeps_isolated; assumption.
Qed.

(** C4 on [pwd=ab@cd.com;10.0.0.1]. *)
Lemma C4_witness :
  sorted_by_start
    [mkToken (lit "ab@cd.com") (Named EMAIL) 4 13 80;
     mkToken (lit "10.0.0.1") (Named PRIVATE_IP) 14 22 50] /\
  non_overlapping
    [mkToken (lit "ab@cd.com") (Named EMAIL) 4 13 80;
     mkToken (lit "10.0.0.1") (Named PRIVATE_IP) 14 22 50].
Proof.
  assert (H : detectTokens DEFAULT_DETECTION_CONFIG chained_text =
              Some [mkToken (lit "ab@cd.com") (Named EMAIL) 4 13 80;
                    mkToken (lit "10.0.0.1") (Named PRIVATE_IP) 14 22 50])
    by (vm_compute; reflexivity).
  destruct (C4_detectTokens_spans DEFAULT_DETECTION_CONFIG chained_text) as [_ Hall].
  destruct (Hall _ H) as (H1 & H2 & _).
  split; assumption.
Defined.

(* ------------------------------------------------------------------------ *)
(** ** The table of MemoryStorage *)

Lemma eqb_spec (a b : jsstring) : reflect (a = b) (JS.eqb a b).
Proof.
  revert b. induction a as [| x a IH]; intros [| y b]; simpl; try (constructor; congruence).
  destruct (N.eqb_spec x y) as [-> | Hne]; simpl.
  - destruct (IH b) as [-> | Hne]; constructor; congruence.
  - constructor. congruence.
Qed.

Lemma eqb_refl (a : jsstring) : JS.eqb a a = true.
Proof. destruct (eqb_spec a a); congruence. Qed.

Lemma eqb_neq (a b : jsstring) : a <> b -> JS.eqb a b = false.
Proof. destruct (eqb_spec a b); congruence. Qed.

Section MapLemmas.

Variable V : Type.
Implicit Types (m : JsMap.t V) (k : jsstring) (v : V).

Lemma get_in_keys m k v : JsMap.get m k = Some v -> In k (JsMap.keys m).
Proof.
  induction m as [| [k' v'] m IH]; simpl; [discriminate |].
  destruct (eqb_spec k k') as [-> | Hne]; auto.
Qed.

Lemma get_not_in_keys m k : ~ In k (JsMap.keys m) -> JsMap.get m k = None.
Proof.
  induction m as [| [k' v'] m IH]; simpl; [reflexivity |].
  intros H. destruct (eqb_spec k k') as [-> | Hne]; [tauto | apply IH; tauto].
Qed.

Lemma has_false_not_in m k : JsMap.has m k = false -> ~ In k (JsMap.keys m).
Proof.
  unfold JsMap.has. induction m as [| [k' v'] m IH]; simpl; [tauto |].
  destruct (eqb_spec k k') as [-> | Hne]; [discriminate |].
  intros H [E | Hin]; [congruence | apply IH; assumption].
Qed.

Lemma set_absent m k v : ~ In k (JsMap.keys m) -> JsMap.set m k v = m ++ [(k, v)].
Proof.
  induction m as [| [k' v'] m IH]; simpl; [reflexivity |].
  intros H. destruct (eqb_spec k k') as [-> | Hne]; [tauto |].
  rewrite IH; tauto.
Qed.

Lemma keys_set_present m k v :
  In k (JsMap.keys m) -> JsMap.keys (JsMap.set m k v) = JsMap.keys m.
Proof.
  induction m as [| [k' v'] m IH]; simpl; [tauto |].
  intros H. destruct (eqb_spec k k') as [-> | Hne]; [reflexivity |].
  simpl. f_equal. apply IH. destruct H; congruence.
Qed.

Lemma get_set_same m k v : JsMap.get (JsMap.set m k v) k = Some v.
Proof.
  induction m as [| [k' v'] m IH]; simpl.
  - now rewrite eqb_refl.
  - destruct (eqb_spec k k') as [-> | Hne]; simpl.
    + now rewrite eqb_refl.
    + rewrite (eqb_neq Hne). exact IH.
Qed.

Lemma get_delete_same m k : NoDup (JsMap.keys m) -> JsMap.get (JsMap.delete m k) k = None.
Proof.
  induction m as [| [k' v'] m IH]; simpl; [reflexivity |].
  intros H. inversion H; subst.
  destruct (eqb_spec k k') as [-> | Hne]; simpl.
  - apply get_not_in_keys. assumption.
  - rewrite (eqb_neq Hne). auto.
Qed.

Lemma size_delete_present m k :
  In k (JsMap.keys m) -> S (JsMap.size (JsMap.delete m k)) = JsMap.size m.
Proof.
  unfold JsMap.size. induction m as [| [k' v'] m IH]; simpl; [tauto |].
  intros H. destruct (eqb_spec k k') as [-> | Hne]; [reflexivity |].
  simpl. f_equal. apply IH. destruct H; congruence.
Qed.

Lemma keys_app m m' : JsMap.keys (m ++ m') = JsMap.keys m ++ JsMap.keys m'.
Proof. unfold JsMap.keys. apply map_app. Qed.

End MapLemmas.

Lemma generateId_truthy (src : nat -> N) : truthy (generateId src) = true.
Proof. reflexivity. Qed.

(** ** MemoryStorage *)

Section MemoryStorageFacts.

Import MemoryStorage.

Lemma store_ok (s : MemoryStorage.t) (mapId : jsstring) (d : MappingData.t) (now : Z) :
  truthy mapId = true ->
  fst (store s mapId d now) = Ok tt /\
  JsMap.get (mappings (snd (store s mapId d now))) mapId
    = Some (MappingData.with_createdAt d now).
Proof.
  intros Hid. unfold store. rewrite Hid. simpl. split; [reflexivity |].
  apply get_set_same.
Qed.

(** C7: [store] of an id that is not in a table at capacity removes the
    oldest-inserted entry first, after which [retrieve] of that entry's id
    returns absent; [store] of an id already present leaves the set of ids
    as it is; with capacity 2, after three distinct new ids the first is
    absent. *)
Theorem C7_eviction (s : MemoryStorage.t) (mapId : jsstring) (d : MappingData.t) (now : Z) :
  table_ok (mappings s) ->
  truthy mapId = true ->
  (* a new id at capacity: the oldest-inserted entry goes first *)
  ((maxSize s <= Z.of_nat (JsMap.size (mappings s)))%Z ->
   JsMap.has (mappings s) mapId = false ->
   forall oldest d0 rest,
     mappings s = (oldest, d0) :: rest ->
     fst (store s mapId d now) = Ok tt /\
     mappings (snd (store s mapId d now))
       = rest ++ [(mapId, MappingData.with_createdAt d now)] /\
     forall now', fst (retrieve (snd (store s mapId d now)) oldest now') = Ok None) /\
  (* an id already present: nothing is evicted *)
  (JsMap.has (mappings s) mapId = true ->
   fst (store s mapId d now) = Ok tt /\
   JsMap.keys (mappings (snd (store s mapId d now))) = JsMap.keys (mappings s) /\
   JsMap.get (mappings (snd (store s mapId d now))) mapId
     = Some (MappingData.with_createdAt d now)) /\
  (* capacity 2, three distinct new ids *)
  (forall a b c da db dc ttl t1 t2 t3 t4,
     truthy a = true -> truthy b = true -> truthy c = true ->
     a <> b -> a <> c -> b <> c ->
     let s1 := snd (store (new 2 ttl) a da t1) in
     let s2 := snd (store s1 b db t2) in
     let s3 := snd (store s2 c dc t3) in
     JsMap.keys (mappings s3) = [b; c] /\
     fst (retrieve s3 a t4) = Ok None).
Proof.
  intros [Hnd Htr] Hid. split; [| split].
  - intros Hcap Hnew oldest d0 rest Hm.
    pose proof (has_false_not_in _ _ Hnew) as Hnotin.
    rewrite Hm in Hnd, Htr, Hnotin. simpl in Hnd, Htr, Hnotin.
    inversion Hnd as [| ? ? Hold Hnd']; subst.
    inversion Htr as [| ? ? Holdt Htr']; subst.
    assert (Hst : store s mapId d now =
                  (Ok tt, with_mappings s (rest ++ [(mapId, MappingData.with_createdAt d now)]))).
    { unfold store. rewrite Hid. simpl.
      apply Z.leb_le in Hcap. rewrite Hcap, Hnew. simpl.
      rewrite Hm. simpl. rewrite Holdt. simpl. rewrite eqb_refl.
      rewrite set_absent by tauto. reflexivity. }
    rewrite Hst. simpl. split; [reflexivity |]. split; [reflexivity |].
    intros now'. unfold retrieve. rewrite Holdt. simpl.
    rewrite get_not_in_keys; [reflexivity |].
    rewrite keys_app, in_app_iff. simpl. intros [H | [H | []]]; [tauto |].
    apply Hnotin. left. congruence.
  - intros Hhas. unfold store. rewrite Hid, Hhas. simpl.
    rewrite andb_false_r. simpl.
    split; [reflexivity |]. split; [| apply get_set_same].
    apply keys_set_present.
    unfold JsMap.has in Hhas.
    destruct (JsMap.get (mappings s) mapId) eqn:G; [| discriminate].
    eapply get_in_keys; eauto.
  - intros a b c da db dc ttl t1 t2 t3 t4 Ha Hb Hc Hab Hac Hbc.
    unfold store, new. simpl. rewrite Ha, Hb, Hc. simpl.
    unfold JsMap.has. simpl.
    rewrite (@eqb_neq b a) by congruence. simpl.
    rewrite (@eqb_neq c a) by congruence.
    rewrite (@eqb_neq c b) by congruence. simpl.
    rewrite Ha. simpl. rewrite eqb_refl. simpl.
    rewrite (@eqb_neq c b) by congruence. simpl.
    split; [reflexivity |].
    unfold retrieve. rewrite Ha. simpl.
    rewrite (@eqb_neq a b) by congruence.
    rewrite (@eqb_neq a c) by congruence. reflexivity.
Qed.

Lemma full_store_ok : table_ok (MemoryStorage.mappings full_store).
Proof.
  split.
  - apply NoDup_cons; [simpl; intros [H | []]; discriminate H |].
    apply NoDup_cons; [simpl; tauto | apply NoDup_nil].
  - repeat constructor.
Qed.

(** C7 on a full table of capacity 2. *)
Lemma C7_witness :
  MemoryStorage.mappings (snd (MemoryStorage.store full_store (lit "c") sample_data 7))
    = [(lit "b", sample_data); (lit "c", MappingData.with_createdAt sample_data 7)] /\
  fst (MemoryStorage.retrieve
         (snd (MemoryStorage.store full_store (lit "c") sample_data 7)) (lit "a") 8)
    = Ok None.
Proof.
  destruct (@C7_eviction full_store (lit "c") sample_data 7%Z full_store_ok eq_refl)
    as [Hnew _].
  destruct (Hnew ltac:(simpl; lia) eq_refl (lit "a") sample_data [(lit "b", sample_data)] eq_refl)
    as (_ & Hm & Hr).
  split; [exact Hm | apply Hr].
Defined.

(** C8: with a positive TTL, [store] stamps the entry with the clock
    reading whatever [createdAt] the caller gave; [retrieve] of an entry
    older than the TTL returns absent and deletes it, so the table is one
    entry smaller; with TTL 100 a [retrieve] 150 later returns absent and
    leaves the table empty. *)
Theorem C8_ttl (s : MemoryStorage.t) :
  (0 < ttlMs s)%Z ->
  table_ok (mappings s) ->
  (* store stamps the clock reading, whatever createdAt the caller gave *)
  (forall mapId d now,
     truthy mapId = true ->
     fst (store s mapId d now) = Ok tt /\
     exists stored,
       JsMap.get (mappings (snd (store s mapId d now))) mapId = Some stored /\
       MappingData.createdAt stored = now /\
       stored = MappingData.with_createdAt d now) /\
  (* an entry older than the TTL is absent and removed on retrieve *)
  (forall mapId d now,
     JsMap.get (mappings s) mapId = Some d ->
     (ttlMs s < now - MappingData.createdAt d)%Z ->
     fst (retrieve s mapId now) = Ok None /\
     mappings (snd (retrieve s mapId now)) = JsMap.delete (mappings s) mapId /\
     JsMap.get (mappings (snd (retrieve s mapId now))) mapId = None /\
     S (JsMap.size (mappings (snd (retrieve s mapId now)))) = JsMap.size (mappings s)) /\
  (* TTL 100 ms: stored, read again 150 ms later *)
  (forall maxSize mapId d now,
     truthy mapId = true ->
     let s1 := snd (store (new maxSize 100) mapId d now) in
     fst (retrieve s1 mapId (now + 150)) = Ok None /\
     mappings (snd (retrieve s1 mapId (now + 150))) = []).
Proof.
  intros Httl [Hnd Htr]. split; [| split].
  - intros mapId d now Hid.
    destruct (@store_ok s mapId d now Hid) as [H1 H2].
    split; [exact H1 |].
    exists (MappingData.with_createdAt d now). auto.
  - intros mapId d now Hget Hold.
    pose proof (get_in_keys _ _ Hget) as Hin.
    assert (Hid : truthy mapId = true).
    { rewrite Forall_forall in Htr. auto. }
    unfold retrieve. rewrite Hid, Hget. simpl.
    apply Z.ltb_lt in Httl. apply Z.ltb_lt in Hold. rewrite Httl, Hold. simpl.
    split; [reflexivity |]. split; [reflexivity |].
    split; [apply get_delete_same; exact Hnd | apply size_delete_present; exact Hin].
  - intros maxSize mapId d now Hid.
    unfold store, new. simpl. rewrite Hid. simpl.
    unfold JsMap.has. simpl.
    destruct (maxSize <=? 0)%Z; simpl;
      unfold retrieve; simpl; rewrite Hid; simpl; rewrite eqb_refl; simpl;
      replace (now + 150 - now)%Z with 150%Z by lia; simpl; auto.
Qed.

(** C8 with TTL 100, stored at 1000 and read at 1150. *)
Lemma C8_witness :
  fst (MemoryStorage.retrieve
         (snd (MemoryStorage.store (MemoryStorage.new 2 100) (lit "m") sample_data 1000))
         (lit "m") 1150)
    = Ok None.
Proof.
  assert (Hok : table_ok (MemoryStorage.mappings (MemoryStorage.new 2 100))).
  { split; constructor. }
  destruct (@C8_ttl (MemoryStorage.new 2 100) ltac:(simpl; lia) Hok) as (_ & _ & H).
  destruct (H 2%Z (lit "m") sample_data 1000%Z eq_refl) as [Hr _].
  exact Hr.
Defined.

End MemoryStorageFacts.

(* ------------------------------------------------------------------------ *)
(** ** generateProxyToken; deanonymize without signatures *)

Lemma substring_0 (s : jsstring) (n : nat) : substring s 0 n = firstn n s.
Proof.
  unfold substring. simpl. rewrite Nat.sub_0_r.
  destruct (Nat.le_ge_cases n (length s)) as [H | H].
  - now rewrite Nat.min_l by exact H.
  - rewrite Nat.min_r by exact H. rewrite firstn_all.
    symmetry. apply firstn_all2. exact H.
Qed.

Lemma filter_nonempty {A : Type} (p : A -> bool) (l : list A) :
  existsb p l = true -> filter p l <> [].
Proof.
  induction l as [| h l IH]; simpl; [discriminate |].
  destruct (p h); [discriminate | exact IH].
Qed.

Lemma filter_all {A : Type} (p : A -> bool) (l : list A) :
  Forall (fun c => p c = true) (filter p l).
Proof.
  rewrite Forall_forall. intros x Hx. apply filter_In in Hx. tauto.
Qed.

Lemma filter_empty {A : Type} (p : A -> bool) (l : list A) :
  existsb p l = false -> filter p l = [].
Proof.
  induction l as [| h l IH]; simpl; [reflexivity |].
  destruct (p h); [discriminate | exact IH].
Qed.

Lemma filter_length_le {A : Type} (p : A -> bool) (l : list A) :
  length (filter p l) <= length l.
Proof. induction l as [| h l IH]; simpl; [lia |]. destruct (p h); simpl; lia. Qed.




(** ** deanonymize without signatures *)

Lemma validate_signature_off {crypto : NodeCrypto} (c : AnonProxyConfig.t)
  (mapId : jsstring) (sig : option jsstring) (d : MappingData.t) :
  AnonProxyConfig.enableSignatures c = false ->
  validate_signature c mapId sig d = Ok tt.
Proof. intros H. unfold validate_signature. now rewrite H. Qed.

(** C10: with [enableSignatures = false], [deanonymize] returns the same
    result and the same engine for any two signature arguments, absent
    included, and what it restores depends on the stored mapping through
    its entries alone, not through its signature field. *)
Theorem C10_signature_ignored {crypto : NodeCrypto} {S : Type}
  {backend : StorageInterface S} (e : AnonEngine.t S) :
  AnonProxyConfig.enableSignatures (config e) = false ->
  (forall output mapId s1 s2 now,
     deanonymize e output mapId s1 now = deanonymize e output mapId s2 now) /\
  (forall output mapId s1 s2 d1 d2,
     MappingData.mappings d1 = MappingData.mappings d2 ->
     restore (config e) output mapId s1 d1 = restore (config e) output mapId s2 d2).
Proof.
  intros Hoff.
  assert (Hrestore : forall output mapId s1 s2 d1 d2,
             MappingData.mappings d1 = MappingData.mappings d2 ->
             restore (config e) output mapId s1 d1 = restore (config e) output mapId s2 d2).
  { intros output mapId s1 s2 d1 d2 Hm. unfold restore.
    rewrite !validate_signature_off by exact Hoff. now rewrite Hm. }
  split; [| exact Hrestore].
  intros output mapId s1 s2 now. unfold deanonymize.
  destruct (negb (truthy output)); [reflexivity |].
  destruct (negb (truthy mapId)); [reflexivity |].
  destruct (retrieve (storage e) mapId now) as [[[d |] | err] s']; try reflexivity.
  f_equal. apply Hrestore. reflexivity.
Qed.

(** C10 on a store that holds a signed mapping under the id [m], with no
    signature and with a forged one: both calls reach the mapping and
    restore its proxy, and a mapping without signature field restores the
    same text.  On the engine with signatures on, over the same store, the
    forged signature and the stored one give different results. *)
Lemma C10_witness :
  @deanonymize toy_crypto _ _ (engine_over [(lit "m", signed_data)])
     proxy_output (lit "m") None 0
  = @deanonymize toy_crypto _ _ (engine_over [(lit "m", signed_data)])
      proxy_output (lit "m") (Some (lit "forged")) 0 /\
  fst (@deanonymize toy_crypto _ _ (engine_over [(lit "m", signed_data)])
         proxy_output (lit "m") (Some (lit "forged")) 0)
  = Ok (lit "use secret-value here") /\
  @restore toy_crypto (config (engine_over [(lit "m", signed_data)]))
     proxy_output (lit "m") None sample_data
  = @restore toy_crypto (config (engine_over [(lit "m", signed_data)]))
      proxy_output (lit "m") (Some (lit "forged")) signed_data /\
  fst (@deanonymize toy_crypto _ _ (signed_engine_over [(lit "m", signed_data)])
         proxy_output (lit "m") (Some (lit "forged")) 0)
  <> fst (@deanonymize toy_crypto _ _ (signed_engine_over [(lit "m", signed_data)])
            proxy_output (lit "m") (Some stored_signature) 0).
Proof.
  destruct (@C10_signature_ignored toy_crypto _ _
              (engine_over [(lit "m", signed_data)]) eq_refl) as [Hsig Hfield].
  split; [apply Hsig |].
  split; [vm_compute; reflexivity |].
  split; [apply Hfield; reflexivity |].
  vm_compute. discriminate.
Defined.

(* ------------------------------------------------------------------------ *)
(** ** Spans of the detected tokens; prompts without tokens *)

#[local] Arguments generateId : simpl never.

(** C5, as the code behaves: on [API key: sk-1234567890abcdef] the API_KEY
    pattern matches at index 4 and its group is [sk-1234567890abcdef] at
    [9, 28).  The default detector returns the value [key: sk-1234567890a]
    with the span [4, 23); the case-sensitive one returns the group text
    with the same span [4, 23), where the input reads
    [key: sk-1234567890a].  The specification says the value is the group text and
    the span is where it lies. *)
Theorem C5_group_span_shifted :
  (exists m,
     exec (TOKEN_PATTERNS API_KEY) (toLowerCase api_key_text) 0 = Some m /\
     m_index m = 4 /\
     group (toLowerCase api_key_text) m 1 = Some (lit "sk-1234567890abcdef") /\
     group_span 1 (m_groups m) = Some (9, 28)) /\
  detectTokens DEFAULT_DETECTION_CONFIG api_key_text
    = Some [mkToken (lit "key: sk-1234567890a") (Named API_KEY) 4 23 95] /\
  detectTokens case_sensitive_config api_key_text
    = Some [mkToken (lit "sk-1234567890abcdef") (Named API_KEY) 4 23 95] /\
  substring api_key_text 4 23 = lit "key: sk-1234567890a" /\
  substring api_key_text 9 28 = lit "sk-1234567890abcdef".
Proof.
  split; [| repeat split; vm_compute; reflexivity].
  eexists. split; [vm_compute; reflexivity |].
  repeat split.
Qed.

Section Stored.

Context {crypto : NodeCrypto}.

Variable e : AnonEngine.t MemoryStorage.t.
Variable mapId : jsstring.
Variable d : MappingData.t.
Variable now : Z.

Hypothesis mapId_truthy : truthy mapId = true.

Lemma retrieve_after_store_cases (now' : Z) :
  fst (MemoryStorage.retrieve (storage (after_store e mapId d now)) mapId now') =
  if (0 <? MemoryStorage.ttlMs (storage e))%Z
     && (MemoryStorage.ttlMs (storage e) <? now' - now)%Z
  then Ok None else Ok (Some (MappingData.with_createdAt d now)).
Proof.
  unfold after_store. cbn [storage with_storage].
  destruct (@store_ok (storage e) mapId d now mapId_truthy) as [_ Hget].
  unfold MemoryStorage.retrieve. rewrite mapId_truthy. cbn [negb].
  rewrite Hget.
  assert (Httl : MemoryStorage.ttlMs (snd (MemoryStorage.store (storage e) mapId d now))
                 = MemoryStorage.ttlMs (storage e)).
  { unfold MemoryStorage.store. rewrite mapId_truthy. reflexivity. }
  rewrite Httl.
  change (MappingData.createdAt (MappingData.with_createdAt d now)) with now.
  destruct (_ && _); reflexivity.
Qed.

Lemma retrieve_after_store (now' : Z) :
  (MemoryStorage.ttlMs (storage e) <= 0 \/
   now' - now <= MemoryStorage.ttlMs (storage e))%Z ->
  fst (MemoryStorage.retrieve (storage (after_store e mapId d now)) mapId now')
  = Ok (Some (MappingData.with_createdAt d now)).
Proof.
  intros Hage. rewrite retrieve_after_store_cases.
  destruct (Z.ltb_spec 0 (MemoryStorage.ttlMs (storage e))); [| reflexivity].
  destruct (Z.ltb_spec (MemoryStorage.ttlMs (storage e)) (now' - now)); [lia |].
  reflexivity.
Qed.

Lemma retrieve_after_store_shape (now' : Z) :
  fst (MemoryStorage.retrieve (storage (after_store e mapId d now)) mapId now')
  = Ok (Some (MappingData.with_createdAt d now)) \/
  fst (MemoryStorage.retrieve (storage (after_store e mapId d now)) mapId now')
  = Ok None.
Proof.
  rewrite retrieve_after_store_cases. destruct (_ && _); auto.
Qed.

(** While the entry is in the store, [deanonymize] works on the mapping
    that was stored. *)
Lemma deanonymize_after_store (output : jsstring) (sig : option jsstring) (now' : Z) :
  truthy output = true ->
  (MemoryStorage.ttlMs (storage e) <= 0 \/
   now' - now <= MemoryStorage.ttlMs (storage e))%Z ->
  fst (deanonymize (after_store e mapId d now) output mapId sig now') =
  restore (config e) output mapId sig (MappingData.with_createdAt d now).
Proof.
  intros Hout Hage. unfold deanonymize. rewrite Hout, mapId_truthy.
  cbn [negb retrieve MemoryStorage.storage_interface].
  pose proof (@retrieve_after_store now' Hage) as Hr.
  destruct (MemoryStorage.retrieve (storage (after_store e mapId d now)) mapId now')
    as [r s'].
  cbn [fst] in Hr. subst r. reflexivity.
Qed.

(** At any time, [deanonymize] either works on the mapping that was stored
    or does not find it. *)
Lemma deanonymize_after_store_shape (output : jsstring) (sig : option jsstring) (now' : Z) :
  is_ok (fst (deanonymize (after_store e mapId d now) output mapId sig now')) = true ->
  is_ok (restore (config e) output mapId sig (MappingData.with_createdAt d now)) = true.
Proof.
  unfold deanonymize.
  destruct (negb (truthy output)); [discriminate |].
  destruct (negb (truthy mapId)); [discriminate |].
  cbn [retrieve MemoryStorage.storage_interface].
  destruct (retrieve_after_store_shape now') as [Hr | Hr];
    destruct (MemoryStorage.retrieve (storage (after_store e mapId d now)) mapId now')
      as [r s'];
    cbn [fst] in Hr; subst r; cbn [fst]; [auto | discriminate].
Qed.

End Stored.

Section NoTokens.

Context {crypto : NodeCrypto}.

Variable e : AnonEngine.t MemoryStorage.t.
Variable prompt : jsstring.
Variable src : nat -> N.
Variable now : Z.

Hypothesis prompt_truthy : truthy prompt = true.
Hypothesis no_tokens : detectTokens DEFAULT_DETECTION_CONFIG prompt = Some [].

Lemma anonymize_no_tokens :
  anonymize e prompt src now =
  Some (match (if AnonProxyConfig.enableSignatures (config e)
               then sign (generateId src ++ lit ":" ++ prompt)
                         (AnonProxyConfig.signatureSecret (config e))
               else Ok [])
        with
        | Throw err => Throw err
        | Ok sig =>
            Ok (AnonymizationResult.make prompt (generateId src)
                  (if AnonProxyConfig.enableSignatures (config e) then Some sig else None))
        end, after_empty_store e src now).
Proof.
  unfold anonymize. rewrite prompt_truthy, no_tokens.
  cbn [negb store MemoryStorage.storage_interface].
  unfold after_empty_store, after_store.
  fold (empty_mapping (config e) (generateId src) now).
  assert (Hs : fst (MemoryStorage.store (storage e) (generateId src)
                      (empty_mapping (config e) (generateId src) now) now) = Ok tt)
    by (apply store_ok; apply generateId_truthy).
  destruct (MemoryStorage.store (storage e) (generateId src)
              (empty_mapping (config e) (generateId src) now) now) as [r s'].
  simpl in Hs. subst r. cbn [snd].
  destruct (AnonProxyConfig.enableSignatures (config e)); [| reflexivity].
  destruct (sign _ _); reflexivity.
Qed.

(** What [deanonymize] does with the mapping of a prompt without tokens. *)
Lemma deanonymize_no_tokens (output : jsstring) (sig : option jsstring) (now' : Z) :
  truthy output = true ->
  (MemoryStorage.ttlMs (storage e) <= 0 \/
   now' - now <= MemoryStorage.ttlMs (storage e))%Z ->
  fst (deanonymize (after_empty_store e src now) output (generateId src) sig now') =
  restore (config e) output (generateId src) sig
    (empty_mapping (config e) (generateId src) now).
Proof.
  intros Hout Hage. unfold after_empty_store.
  rewrite (@deanonymize_after_store crypto e (generateId src)
             (empty_mapping (config e) (generateId src) now) now
             (generateId_truthy src) output sig now' Hout Hage).
  reflexivity.
Qed.

Lemma restore_unsigned_mapping (output : jsstring) (sig : option jsstring) :
  AnonProxyConfig.enableSignatures (config e) = true ->
  is_signature_error
    (restore (config e) output (generateId src) sig
       (empty_mapping (config e) (generateId src) now)) = true.
Proof.
  intros Hon. unfold restore, validate_signature. rewrite Hon. simpl.
  destruct sig as [s |]; [| reflexivity].
  destruct (truthy s); reflexivity.
Qed.

Lemma deanonymize_unsigned_never_ok (output : jsstring) (sig : option jsstring) (now' : Z) :
  AnonProxyConfig.enableSignatures (config e) = true ->
  is_ok (fst (deanonymize (after_empty_store e src now) output (generateId src) sig now'))
  = false.
Proof.
  intros Hon. apply not_true_is_false. intros Hok.
  unfold after_empty_store in Hok.
  apply (@deanonymize_after_store_shape crypto e (generateId src)
           (empty_mapping (config e) (generateId src) now) now
           (generateId_truthy src)) in Hok.
  pose proof (restore_unsigned_mapping output sig Hon) as Hs.
  change (MappingData.with_createdAt (empty_mapping (config e) (generateId src) now) now)
    with (empty_mapping (config e) (generateId src) now) in Hok.
  destruct (restore _ _ _ _ _) as [? | []]; simpl in *; congruence.
Qed.

End NoTokens.

(** With signatures on, the mapping of a prompt without tokens is stored
    unsigned, and [deanonymize] rejects the signature [anonymize] returned. *)
Lemma signed_no_tokens_rejected {crypto : NodeCrypto}
  (e : AnonEngine.t MemoryStorage.t) (prompt output secret : jsstring)
  (src : nat -> N) (now : Z) :
  AnonProxyConfig.enableSignatures (config e) = true ->
  AnonProxyConfig.signatureSecret (config e) = Some secret ->
  truthy prompt = true ->
  truthy output = true ->
  detectTokens DEFAULT_DETECTION_CONFIG prompt = Some [] ->
  exists r e',
    anonymize e prompt src now = Some (Ok r, e') /\
    AnonymizationResult.anonPrompt r = prompt /\
    AnonymizationResult.mapId r = generateId src /\
    AnonymizationResult.signature r
      = Some (createHmac (generateId src ++ lit ":" ++ prompt) secret) /\
    JsMap.get (MemoryStorage.mappings (storage e')) (generateId src)
      = Some (MappingData.make (generateId src) [] now None
                (AnonProxyConfig.strategy (config e))) /\
    is_signature_error
      (fst (deanonymize e' output (AnonymizationResult.mapId r)
              (AnonymizationResult.signature r) now)) = true /\
    forall now',
      is_ok (fst (deanonymize e' output (AnonymizationResult.mapId r)
                    (AnonymizationResult.signature r) now')) = false.
Proof.
  intros Hon Hsec Hp Hout Hno.
  pose proof (@anonymize_no_tokens crypto e prompt src now Hp Hno) as Ha.
  rewrite Hon, Hsec in Ha. cbn [sign] in Ha.
  eexists _, _. split; [exact Ha |].
  cbn [AnonymizationResult.anonPrompt AnonymizationResult.mapId
       AnonymizationResult.signature storage with_storage].
  split; [reflexivity |]. split; [reflexivity |]. split; [reflexivity |].
  split; [| split].
  - apply (@store_ok (storage e)). apply generateId_truthy.
  - rewrite (@deanonymize_no_tokens crypto e src now output _ now Hout).
    + apply restore_unsigned_mapping. exact Hon.
    + lia.
  - intros now'. apply deanonymize_unsigned_never_ok. exact Hon.
Qed.

(* ------------------------------------------------------------------------ *)
(** ** Literal replacement *)

Lemma expand_plain (r m b a : jsstring) : plain r -> expand r m b a = r.
Proof.
  unfold plain. induction r as [| c r IH]; intros H; simpl; [reflexivity |].
  destruct (N.eqb_spec c 36) as [-> | Hne]; [simpl in H; tauto |].
  rewrite IH; [reflexivity |]. simpl in H. tauto.
Qed.

Lemma starts_with_sep (c0 : N) (p a b : jsstring) :
  ~ In c0 p -> starts_with p (a ++ c0 :: b) = starts_with p a.
Proof.
  revert a. induction p as [| x p IH]; intros a H; [reflexivity |].
  destruct a as [| h a]; simpl.
  - destruct (N.eqb_spec x c0) as [-> | Hne]; [simpl in H; tauto | reflexivity].
  - rewrite IH; [reflexivity | simpl in H; tauto].
Qed.

Lemma starts_with_length (p s : jsstring) :
  starts_with p s = true -> length p <= length s.
Proof.
  revert s. induction p as [| x p IH]; intros s H; simpl; [lia |].
  destruct s as [| h s]; simpl in *; [discriminate |].
  apply andb_true_iff in H. destruct H as [_ H]. apply IH in H. lia.
Qed.

Lemma starts_with_split (p s : jsstring) :
  starts_with p s = true -> s = p ++ skipn (length p) s.
Proof.
  revert s. induction p as [| x p IH]; intros s H; simpl; [reflexivity |].
  destruct s as [| h s]; simpl in *; [discriminate |].
  apply andb_true_iff in H. destruct H as [Hx H].
  apply N.eqb_eq in Hx. subst. f_equal. apply IH. exact H.
Qed.

Lemma starts_with_refl (p : jsstring) : starts_with p p = true.
Proof. induction p as [| x p IH]; simpl; [reflexivity |]. now rewrite N.eqb_refl. Qed.

Lemma starts_with_in (p s : jsstring) (c : N) :
  starts_with p s = true -> In c p -> In c s.
Proof.
  intros H Hc. rewrite (starts_with_split _ _ H). apply in_app_iff. auto.
Qed.

Section Replace.

Variables p r : jsstring.
Hypothesis p_nonempty : p <> [].

Lemma replace_from_skip_all (w s : jsstring) :
  forall k i, length s <= k -> replace_from p r w k i s = [].
Proof.
  induction s as [| h s IH]; intros k i H; simpl.
  - destruct p; [contradiction | reflexivity].
  - destruct k as [| k]; [simpl in H; lia |].
    apply IH. simpl in H. lia.
Qed.

Lemma replace_from_sep (c0 : N) (w a b : jsstring) :
  ~ In c0 p ->
  forall k i, k <= length a ->
    replace_from p r w k i (a ++ c0 :: b)
    = replace_from p r w k i a ++ c0 :: replace_from p r w 0 (i + length a + 1) b.
Proof.
  intros Hc0. induction a as [| h a IH]; intros k i Hk.
  - assert (k = 0) by (simpl in Hk; lia). subst k.
    change ([] ++ c0 :: b) with (c0 :: b).
    cbn [replace_from].
    replace (starts_with p (c0 :: b)) with false.
    + replace (i + length (@nil N) + 1) with (S i) by (simpl; lia).
      destruct p; [contradiction | reflexivity].
    + symmetry. change (c0 :: b) with ([] ++ c0 :: b).
      rewrite starts_with_sep by exact Hc0.
      destruct p; [contradiction | reflexivity].
  - change ((h :: a) ++ c0 :: b) with (h :: (a ++ c0 :: b)).
    cbn [replace_from].
    replace (i + length (h :: a) + 1) with (S i + length a + 1) by (simpl; lia).
    destruct k as [| k].
    + change (h :: a ++ c0 :: b) with ((h :: a) ++ c0 :: b).
      rewrite starts_with_sep by exact Hc0.
      destruct (starts_with p (h :: a)) eqn:E.
      * destruct p as [| x p'] eqn:Ep; [contradiction |].
        rewrite <- app_assoc. f_equal.
        apply IH. apply starts_with_length in E. simpl in E. lia.
      * simpl. f_equal. apply IH. lia.
    + apply IH. simpl in Hk. lia.
Qed.

Hypothesis r_plain : plain r.

Lemma replace_from_whole (s : jsstring) :
  forall k i w i' w', replace_from p r w k i s = replace_from p r w' k i' s.
Proof.
  induction s as [| h s IH]; intros k i w i' w'; cbn [replace_from].
  - destruct p; [contradiction |]. destruct k; reflexivity.
  - destruct k as [| k]; [| apply IH].
    destruct (starts_with p (h :: s)).
    + rewrite !expand_plain by exact r_plain.
      destruct p; [contradiction |]. f_equal. apply IH.
    + f_equal. apply IH.
Qed.

Lemma replace_from_self (w : jsstring) (i : nat) : replace_from p r w 0 i p = r.
Proof.
  assert (Hp : exists x p', p = x :: p').
  { destruct p as [| x p']; [contradiction | eauto]. }
  destruct Hp as (x & p' & Hp).
  assert (Hskip : replace_from p r w (length p') (S i) p' = [])
    by (apply replace_from_skip_all; lia).
  pose proof (starts_with_refl p) as Hsw.
  pose proof (expand_plain p (firstn i w) (skipn (i + length p) w) r_plain) as Hex.
  revert Hskip Hsw Hex. rewrite Hp. intros Hskip Hsw Hex.
  cbn [replace_from]. rewrite Hsw, Hex, Hskip. apply app_nil_r.
Qed.

Lemma replace_from_absent (c : N) (w s : jsstring) :
  In c p -> ~ In c s -> forall i, replace_from p r w 0 i s = s.
Proof.
  intros Hc. induction s as [| h s IH]; intros Hs i; cbn [replace_from].
  - destruct p; [contradiction | reflexivity].
  - destruct (starts_with p (h :: s)) eqn:E.
    + exfalso. apply Hs. eapply starts_with_in; eauto.
    + f_equal. apply IH. simpl in Hs. tauto.
Qed.

Lemma replace_from_in (x : N) (w s : jsstring) :
  forall k i, In x (replace_from p r w k i s) -> In x s \/ In x r.
Proof.
  induction s as [| h s IH]; intros k i H; cbn [replace_from] in H.
  - destruct p; [contradiction |]. destruct k; simpl in H; tauto.
  - destruct k as [| k].
    + destruct (starts_with p (h :: s)).
      * rewrite expand_plain in H by exact r_plain.
        destruct p; [contradiction |].
        apply in_app_iff in H. destruct H as [H | H]; [auto |].
        apply IH in H. simpl. tauto.
      * simpl in H. destruct H as [-> | H]; [simpl; auto |].
        apply IH in H. simpl. tauto.
    + apply IH in H. simpl. tauto.
Qed.

Variable c : N.
Hypothesis c_not_in_r : ~ In c r.

Lemma count_skipn_le (s : jsstring) (k : nat) : occurrences c (skipn k s) <= occurrences c s.
Proof.
  revert k. induction s as [| h s IH]; intros k; destruct k; simpl; try lia.
  unfold occurrences in *. simpl. specialize (IH k).
  destruct (N.eq_dec h c); lia.
Qed.

Lemma replace_from_count_le (w s : jsstring) :
  forall k i, occurrences c (replace_from p r w k i s) <= occurrences c (skipn k s).
Proof.
  induction s as [| h s IH]; intros k i; cbn [replace_from].
  - destruct p; [contradiction |]. destruct k; simpl; lia.
  - destruct k as [| k]; [| apply IH].
    cbn [skipn].
    destruct (starts_with p (h :: s)).
    + rewrite expand_plain by exact r_plain.
      destruct p as [| x p']; [contradiction |].
      unfold occurrences. rewrite count_occ_app.
      rewrite (proj1 (count_occ_not_In N.eq_dec r c) c_not_in_r).
      pose proof (IH (length p') (S i)) as H1.
      pose proof (count_skipn_le s (length p')) as H2.
      unfold occurrences in *. simpl. destruct (N.eq_dec h c); lia.
    + pose proof (IH 0 (S i)) as H1. unfold occurrences in *. simpl in *.
      destruct (N.eq_dec h c); lia.
Qed.

Hypothesis c_in_p : In c p.

Lemma replace_from_count (w s : jsstring) :
  forall i, replace_from p r w 0 i s = s \/ occurrences c (replace_from p r w 0 i s) < occurrences c s.
Proof.
  induction s as [| h s IH]; intros i; cbn [replace_from].
  - left. destruct p; [contradiction | reflexivity].
  - destruct (starts_with p (h :: s)) eqn:E.
    + right. rewrite expand_plain by exact r_plain.
      pose proof (starts_with_split _ _ E) as Hsplit.
      pose proof (replace_from_count_le w s (length (tl p)) (S i)) as H1.
      assert (Hcp : 1 <= occurrences c p).
      { unfold occurrences. apply (count_occ_In N.eq_dec) in c_in_p. lia. }
      assert (Hs : occurrences c (h :: s) = occurrences c p + occurrences c (skipn (length (tl p)) s)).
      { unfold occurrences. rewrite Hsplit at 1. rewrite count_occ_app. f_equal.
        destruct p; [contradiction | reflexivity]. }
      rewrite Hs.
      assert (Hr : occurrences c r = 0).
      { unfold occurrences. apply count_occ_not_In. exact c_not_in_r. }
      revert H1. destruct p as [| x p']; [contradiction |]. intros H1.
      unfold occurrences in *. rewrite count_occ_app. simpl tl in *. lia.
    + destruct (IH (S i)) as [H | H].
      * left. now rewrite H.
      * right. unfold occurrences in *. simpl. destruct (N.eq_dec h c); lia.
Qed.

End Replace.

(* ------------------------------------------------------------------------ *)
(** ** The example prompt *)

Lemma includes_missing (s p : jsstring) (c : N) :
  In c p -> ~ In c s -> includes s p = false.
Proof.
  intros Hp. induction s as [| h s IH]; intros Hs; simpl.
  - destruct p; [contradiction | reflexivity].
  - destruct (starts_with p (h :: s)) eqn:E.
    + exfalso. apply Hs. eapply starts_with_in; eauto.
    + simpl. apply IH. simpl in Hs. tauto.
Qed.

Lemma not_in_by (c : N) (l : jsstring) :
  forallb (fun x => negb (N.eqb x c)) l = true -> ~ In c l.
Proof.
  intros H Hin. rewrite forallb_forall in H. specialize (H c Hin).
  now rewrite N.eqb_refl in H.
Qed.

Lemma proxy_chars {crypto : NodeCrypto} (token salt : jsstring) (c : N) :
  In c (generateProxyToken token salt anon_prefix) ->
  In c anon_prefix \/ is_alnum c = true.
Proof.
  unfold generateProxyToken, shortHash. rewrite in_app_iff.
  intros [H | H]; [auto | right]. apply filter_In in H. tauto.
Qed.

Lemma proxy_lacks {crypto : NodeCrypto} (token salt : jsstring) (c : N) :
  is_alnum c = false -> ~ In c anon_prefix ->
  ~ In c (generateProxyToken token salt anon_prefix).
Proof.
  intros Ha Hp Hin. apply proxy_chars in Hin. destruct Hin; [tauto | congruence].
Qed.

Lemma proxy_nonempty {crypto : NodeCrypto} (token salt : jsstring) :
  generateProxyToken token salt anon_prefix <> [].
Proof. discriminate. Qed.

Lemma proxy_underscore {crypto : NodeCrypto} (token salt : jsstring) :
  In 95%N (generateProxyToken token salt anon_prefix) /\
  count_occ N.eq_dec (generateProxyToken token salt anon_prefix) 95%N = 1.
Proof.
  unfold generateProxyToken, shortHash. split.
  - apply in_app_iff. left. simpl. tauto.
  - rewrite count_occ_app.
    replace (count_occ N.eq_dec (filter is_alnum _) 95%N) with 0; [reflexivity |].
    symmetry. apply count_occ_not_In. intros H. apply filter_In in H.
    destruct H as [_ H]. discriminate.
Qed.

Lemma c1_detect : detectTokens DEFAULT_DETECTION_CONFIG c1_prompt = Some c1_tokens.
Proof. vm_compute. reflexivity. Qed.

Section C1Proxies.

Context {crypto : NodeCrypto}.
Variable salt : jsstring.

Lemma c1_replace_tokens :
  replace_tokens (HashSaltStrategy salt) default_config (sort_desc c1_tokens) [] c1_prompt
  = Ok (c1_entries salt, c1_anonPrompt salt).
Proof.
  change (sort_desc c1_tokens) with
    [mkToken c1_email (Named EMAIL) 37 53 90;
     mkToken c1_key_value (Named API_KEY) 4 23 95].
  cbn [replace_tokens anonymize_token HashSaltStrategy value startIndex endIndex
       AnonProxyConfig.customSalt default_config].
  fold (key_proxy salt) (email_proxy salt).
  change (slice_to c1_prompt 37) with (lit "API key: sk-1234567890abcdef, email: ").
  change (slice_from c1_prompt 53) with (@nil N).
  unfold slice_to, slice_from.
  change (lit "API key: sk-1234567890abcdef, email: ")
    with (lit "API " ++ lit "key: sk-1234567890a" ++ lit "bcdef, email: ").
  rewrite <- !app_assoc.
  rewrite firstn_app, skipn_app.
  change (length (lit "API ")) with 4.
  change (firstn 4 (lit "API ")) with (lit "API ").
  change (skipn 23 (lit "API ")) with (@nil N).
  change (firstn (4 - 4) _) with (@nil N).
  cbn [Nat.sub app].
  rewrite skipn_app.
  change (skipn 19 (lit "key: sk-1234567890a")) with (@nil N).
  change (length (lit "key: sk-1234567890a")) with 19.
  cbn [Nat.sub app skipn].
  rewrite !app_nil_r.
  reflexivity.
Qed.

Lemma c1_anonPrompt_hides :
  includes (c1_anonPrompt salt) c1_key = false /\
  includes (c1_anonPrompt salt) c1_email = false.
Proof.
  split.
  - apply (@includes_missing _ _ 45%N); [simpl; tauto |].
    unfold c1_anonPrompt. rewrite !in_app_iff.
    intros [H | [H | [H | H]]].
    + revert H. apply not_in_by. reflexivity.
    + revert H. apply proxy_lacks; [reflexivity | apply not_in_by; reflexivity].
    + revert H. apply not_in_by. reflexivity.
    + revert H. apply proxy_lacks; [reflexivity | apply not_in_by; reflexivity].
  - apply (@includes_missing _ _ 64%N); [simpl; tauto |].
    unfold c1_anonPrompt. rewrite !in_app_iff.
    intros [H | [H | [H | H]]].
    + revert H. apply not_in_by. reflexivity.
    + revert H. apply proxy_lacks; [reflexivity | apply not_in_by; reflexivity].
    + revert H. apply not_in_by. reflexivity.
    + revert H. apply proxy_lacks; [reflexivity | apply not_in_by; reflexivity].
Qed.

Lemma c1_entries_key : JsMap.get (c1_entries salt) (key_proxy salt) = Some c1_key_value.
Proof. apply get_set_same. Qed.

Lemma c1_entries_cases :
  (key_proxy salt = email_proxy salt /\
   c1_entries salt = [(email_proxy salt, c1_key_value)]) \/
  (key_proxy salt <> email_proxy salt /\
   c1_entries salt = [(email_proxy salt, c1_email); (key_proxy salt, c1_key_value)]).
Proof.
  unfold c1_entries. cbn [JsMap.set].
  destruct (eqb_spec (key_proxy salt) (email_proxy salt)) as [E | E]; [left | right]; auto.
Qed.

Lemma space_not_in_proxy (token : jsstring) :
  ~ In 32%N (generateProxyToken token salt anon_prefix).
Proof. apply proxy_lacks; [reflexivity | apply not_in_by; reflexivity]. Qed.

Lemma c1_plain_key : plain c1_key_value.
Proof. apply not_in_by. reflexivity. Qed.

Lemma c1_plain_email : plain c1_email.
Proof. apply not_in_by. reflexivity. Qed.

Variable src : nat -> N.
Variable now : Z.

Lemma c1_anonymize :
  anonymize (default_engine salt) c1_prompt src now
  = Some (Ok (AnonymizationResult.make (c1_anonPrompt salt) (generateId src) None),
          c1_engine_after salt src now).
Proof.
  unfold anonymize.
  change (truthy c1_prompt) with true. cbn [negb].
  rewrite c1_detect.
  change (strategy (default_engine salt)) with (HashSaltStrategy salt).
  change (config (default_engine salt)) with default_config.
  unfold c1_tokens at 1.
  rewrite c1_replace_tokens.
  cbn [AnonProxyConfig.enableSignatures default_config].
  cbn [store MemoryStorage.storage_interface].
  unfold MemoryStorage.store.
  rewrite generateId_truthy.
  reflexivity.
Qed.

Lemma c1_deanonymize (output : jsstring) (now' : Z) :
  truthy output = true ->
  (now' - now <= 3600000)%Z ->
  deanonymize (c1_engine_after salt src now) output (generateId src) None now'
  = (Ok (restore_tokens output (c1_entries salt)), c1_engine_after salt src now).
Proof.
  intros Hout Hage. unfold deanonymize. rewrite Hout, generateId_truthy. cbn [negb].
  cbn [retrieve MemoryStorage.storage_interface].
  unfold MemoryStorage.retrieve. rewrite generateId_truthy. cbn [negb].
  unfold c1_engine_after. cbn [storage with_storage MemoryStorage.mappings JsMap.get].
  rewrite eqb_refl.
  cbn [MemoryStorage.ttlMs c1_stored MappingData.createdAt].
  replace (3600000 <? now' - now)%Z with false by (symmetry; apply Z.ltb_ge; exact Hage).
  rewrite andb_false_r.
  unfold restore.
  rewrite validate_signature_off by reflexivity.
  unfold c1_stored. cbn [MappingData.mappings].
  destruct c1_entries_cases as [[_ ->] | [_ ->]]; reflexivity.
Qed.

End C1Proxies.


(* ------------------------------------------------------------------------ *)
(** ** The no-op and the signature check *)

Lemma simple_prompt_no_tokens :
  detectTokens DEFAULT_DETECTION_CONFIG simple_prompt = Some [].
Proof. vm_compute. reflexivity. Qed.

(** C2, refuted as stated: the default engine stores the empty mapping of
    [Simple prompt], and [deanonymize] of the empty text under that id
    throws, so it is not true that whatever comes back is returned
    unchanged. *)
Lemma C2_counterexample :
  ~ @idempotent_noop toy_crypto toy_engine simple_prompt zero_source 0.
Proof.
  intros (r & e' & _ & _ & H).
  specialize (H [] 0%Z ltac:(lia)). discriminate H.
Qed.

(** C2, amended: with signatures off, a non-empty prompt without
    detectable tokens comes back unchanged with a new id under which an
    empty mapping is stored, and [deanonymize] of any non-empty text under
    that id, with any signature argument, returns the text unchanged
    whenever the backend still returns the stored mapping; the memory
    backend does so while the entry has not outlived the TTL. *)
Theorem C2_noop_without_signatures {crypto : NodeCrypto} (prompt : jsstring)
  (src : nat -> N) (now : Z) :
  truthy prompt = true ->
  detectTokens DEFAULT_DETECTION_CONFIG prompt = Some [] ->
  (* any backend *)
  (forall (S : Type) (backend : StorageInterface S) (e : AnonEngine.t S) (s1 : S),
     AnonProxyConfig.enableSignatures (config e) = false ->
     store (storage e) (generateId src)
       (empty_mapping (config e) (generateId src) now) now = (Ok tt, s1) ->
     anonymize e prompt src now
       = Some (Ok (AnonymizationResult.make prompt (generateId src) None),
               with_storage e s1) /\
     forall output sig now' d s2,
       truthy output = true ->
       retrieve s1 (generateId src) now' = (Ok (Some d), s2) ->
       MappingData.mappings d = [] ->
       deanonymize (with_storage e s1) output (generateId src) sig now'
         = (Ok output, with_storage e s2)) /\
  (* the memory backend *)
  (forall e : AnonEngine.t MemoryStorage.t,
     AnonProxyConfig.enableSignatures (config e) = false ->
     anonymize e prompt src now
       = Some (Ok (AnonymizationResult.make prompt (generateId src) None),
               after_empty_store e src now) /\
     JsMap.get (MemoryStorage.mappings (storage (after_empty_store e src now)))
         (generateId src)
       = Some (empty_mapping (config e) (generateId src) now) /\
     forall output sig now',
       truthy output = true ->
       (MemoryStorage.ttlMs (storage e) <= 0 \/
        now' - now <= MemoryStorage.ttlMs (storage e))%Z ->
       fst (deanonymize (after_empty_store e src now) output (generateId src) sig now')
         = Ok output).
Proof.
  intros Hp Hno. split.
  - intros S backend e s1 Hoff Hstore. split.
    + unfold anonymize. rewrite Hp, Hno. cbn [negb].
      fold (empty_mapping (config e) (generateId src) now).
      rewrite Hstore, Hoff. reflexivity.
    + intros output sig now' d s2 Hout Hret Hm.
      unfold deanonymize. rewrite Hout, generateId_truthy. cbn [negb].
      cbn [storage with_storage]. rewrite Hret.
      unfold restore. cbn [config with_storage].
      rewrite validate_signature_off by exact Hoff.
      rewrite Hm. reflexivity.
  - intros e Hoff. split; [| split].
    + rewrite (@anonymize_no_tokens crypto e prompt src now Hp Hno).
      rewrite Hoff. reflexivity.
    + unfold after_empty_store, after_store. cbn [storage with_storage].
      apply (@store_ok (storage e)). apply generateId_truthy.
    + intros output sig now' Hout Hage.
      rewrite (@deanonymize_no_tokens crypto e src now output sig now' Hout Hage).
      unfold restore. rewrite validate_signature_off by exact Hoff. reflexivity.
Qed.

(** C2 on [Simple prompt] and the answer of the repository's test. *)
Lemma C2_witness :
  fst (@deanonymize toy_crypto _ _ (after_empty_store toy_engine zero_source 0)
         plain_output (generateId zero_source) None 5)
  = Ok plain_output.
Proof.
  destruct (@C2_noop_without_signatures toy_crypto simple_prompt zero_source 0%Z
              eq_refl simple_prompt_no_tokens) as [_ Hmem].
  destruct (Hmem toy_engine eq_refl) as (_ & _ & H).
  apply H; [reflexivity | right; simpl; lia].
Defined.

(** C3, as the code behaves: the engine of the repository's tests
    (signatures on, secret [test-secret-key]) stores the mapping of
    [Simple prompt] without a signature and returns the HMAC of
    [id:prompt]; [deanonymize] with the untouched store and that returned
    signature throws a signature error.  The specification says this call raises
    no signature error. *)
Theorem C3_returned_signature_rejected {crypto : NodeCrypto} (salt : jsstring)
  (src : nat -> N) (now : Z) :
  construct signed_config MemoryStorage.default salt (fun s => s) = Ok (signed_engine salt) /\
  anonymize (signed_engine salt) simple_prompt src now
    = Some (Ok (AnonymizationResult.make simple_prompt (generateId src)
                  (Some (returned_signature src))),
            after_empty_store (signed_engine salt) src now) /\
  JsMap.get (MemoryStorage.mappings (storage (after_empty_store (signed_engine salt) src now)))
      (generateId src)
    = Some (empty_mapping signed_config (generateId src) now) /\
  MappingData.signature (empty_mapping signed_config (generateId src) now) = None /\
  is_signature_error
    (validate_signature signed_config (generateId src) (Some (returned_signature src))
       (empty_mapping signed_config (generateId src) now)) = true /\
  is_signature_error
    (fst (deanonymize (after_empty_store (signed_engine salt) src now) plain_output
            (generateId src) (Some (returned_signature src)) now)) = true.
Proof.
  split; [reflexivity |].
  split.
  { rewrite (@anonymize_no_tokens crypto (signed_engine salt) simple_prompt src now eq_refl
               simple_prompt_no_tokens).
    reflexivity. }
  split.
  { unfold after_empty_store, after_store. cbn [storage with_storage].
    apply (@store_ok (storage (signed_engine salt))). apply generateId_truthy. }
  split; [reflexivity |].
  split.
  { unfold validate_signature. cbn [AnonProxyConfig.enableSignatures signed_config].
    destruct (negb (truthy (returned_signature src))); reflexivity. }
  rewrite (@deanonymize_no_tokens crypto (signed_engine salt) src now plain_output
             (Some (returned_signature src)) now eq_refl).
  - apply (@restore_unsigned_mapping crypto (signed_engine salt) src now). reflexivity.
  - right. simpl. lia.
Qed.

(** X1: with signatures on, the check of [deanonymize] either passes or
    throws a signature error, and it passes exactly when the caller's
    signature is non-empty, equals the stored one, and is the HMAC of
    [id:JSON(entries)] under the configured secret. *)
Theorem validate_signature_accepts_iff {crypto : NodeCrypto} (c : AnonProxyConfig.t)
  (mapId : jsstring) (sig : option jsstring) (d : MappingData.t) :
  AnonProxyConfig.enableSignatures c = true ->
  (forall s, sig = Some s -> wf_string s) ->
  (forall s, MappingData.signature d = Some s -> wf_string s) ->
  (forall secret, AnonProxyConfig.signatureSecret c = Some secret ->
     wf_string (createHmac (signed_payload mapId (MappingData.mappings d)) secret)) ->
  (validate_signature c mapId sig d = Ok tt \/
   is_signature_error (validate_signature c mapId sig d) = true) /\
  (validate_signature c mapId sig d = Ok tt <->
   exists s secret,
     sig = Some s /\ truthy s = true /\
     MappingData.signature d = Some s /\
     AnonProxyConfig.signatureSecret c = Some secret /\
     s = createHmac (signed_payload mapId (MappingData.mappings d)) secret).
Proof.
  intros Hon Hsig Hstored Hmac.
  unfold validate_signature, verifyHmac. rewrite Hon.
  destruct sig as [s |];
    [| split; [right; reflexivity |];
       split; [discriminate | intros (? & ? & ? & _); discriminate]].
  destruct (truthy s) eqn:Ts; cbn [negb];
    [| split; [right; reflexivity |];
       split; [discriminate | intros (? & ? & E & T & _); congruence]].
  destruct (MappingData.signature d) as [stored |];
    [| split; [right; reflexivity |];
       split; [discriminate | intros (? & ? & _ & _ & ? & _); discriminate]].
  destruct (truthy stored) eqn:Tst; cbn [negb];
    [| split; [right; reflexivity |];
       split; [discriminate | intros (? & ? & E & _ & E' & _); congruence]].
  pose proof (@constantTimeCompare_true_iff s stored (Hsig s eq_refl) (Hstored stored eq_refl))
    as Hcmp.
  destruct (constantTimeCompare s stored) eqn:Ec; cbn [negb];
    [| split; [right; reflexivity |];
       split; [discriminate |
               intros (? & ? & E & _ & E' & _);
               assert (s = stored) by congruence;
               apply Hcmp in H; discriminate]].
  assert (s = stored) by (apply Hcmp; reflexivity). subst stored.
  destruct (AnonProxyConfig.signatureSecret c) as [secret |];
    [| split; [right; reflexivity |];
       split; [discriminate | intros (? & ? & _ & _ & _ & ? & _); discriminate]].
  pose proof (@constantTimeCompare_true_iff s
                (createHmac (signed_payload mapId (MappingData.mappings d)) secret)
                (Hsig s eq_refl) (Hmac secret eq_refl)) as Hver.
  clear Hcmp Ec.
  destruct (constantTimeCompare s
              (createHmac (signed_payload mapId (MappingData.mappings d)) secret)) eqn:Ev;
    cbn [negb].
  - split; [left; reflexivity |].
    split; [| reflexivity].
    intros _. exists s, secret. repeat split; auto. apply Hver. reflexivity.
  - split; [right; reflexivity |].
    split; [discriminate |].
    intros (s' & secret' & E1 & _ & _ & E2 & E3).
    injection E1 as <-. injection E2 as <-.
    apply Hver in E3. congruence.
Qed.

(** X1 on a signed mapping: a forged signature is rejected, the stored one
    is accepted. *)
Lemma validate_signature_witness :
  @validate_signature toy_crypto signed_config (lit "m") (Some (lit "forged")) signed_data
    <> Ok tt /\
  @validate_signature toy_crypto signed_config (lit "m")
    (MappingData.signature signed_data) signed_data = Ok tt.
Proof.
  split.
  - intros H.
    apply (@validate_signature_accepts_iff toy_crypto signed_config (lit "m")
             (Some (lit "forged")) signed_data eq_refl) in H.
    + destruct H as (s & secret & E1 & _ & E2 & _).
      injection E1 as <-. vm_compute in E2. discriminate E2.
    + intros s E. inversion E. apply wf_stringb_ok. reflexivity.
    + intros s E. inversion E. apply wf_stringb_ok. reflexivity.
    + intros s E. inversion E. apply wf_stringb_ok. reflexivity.
  - apply (@validate_signature_accepts_iff toy_crypto signed_config (lit "m")
             (MappingData.signature signed_data) signed_data eq_refl).
    + intros s E. inversion E. apply wf_stringb_ok. reflexivity.
    + intros s E. inversion E. apply wf_stringb_ok. reflexivity.
    + intros s E. inversion E. apply wf_stringb_ok. reflexivity.
    + eexists _, _. repeat split; reflexivity.
Defined.

(** ** The signed round trip of a prompt with tokens *)

Lemma constantTimeCompare_refl (a : jsstring) :
  wf_string a -> constantTimeCompare a a = true.
Proof. intros Ha. apply (constantTimeCompare_true_iff Ha Ha). reflexivity. Qed.

(** X2: with signatures on, [anonymize] of a prompt with tokens stores the
    mapping together with the HMAC of [id:JSON(entries)] and returns that
    HMAC; while the entry is in the store, [deanonymize] with the returned
    signature passes the check and returns what the replacement loop makes
    of the output: entry after entry in the order of insertion, each
    occurrence of the proxy replaced the way [String.prototype.replace]
    does it, with the original as the replacement string (a [$] pattern in
    an original is expanded, not copied). *)
Theorem anonymize_signs_detected_tokens {crypto : NodeCrypto}
  (e : AnonEngine.t MemoryStorage.t) (prompt secret : jsstring) (src : nat -> N) (now : Z)
  (tok : DetectedToken) (toks : list DetectedToken)
  (entries : JsMap.t jsstring) (anonPrompt : jsstring) :
  AnonProxyConfig.enableSignatures (config e) = true ->
  AnonProxyConfig.signatureSecret (config e) = Some secret ->
  truthy prompt = true ->
  detectTokens DEFAULT_DETECTION_CONFIG prompt = Some (tok :: toks) ->
  replace_tokens (strategy e) (config e) (sort_desc (tok :: toks)) [] prompt
    = Ok (entries, anonPrompt) ->
  anonymize e prompt src now
    = Some (Ok (AnonymizationResult.make anonPrompt (generateId src)
                  (Some (createHmac (signed_payload (generateId src) entries) secret))),
            after_store e (generateId src)
              (signed_mapping (config e) (generateId src) entries now secret) now) /\
  forall output now',
    truthy output = true ->
    truthy (createHmac (signed_payload (generateId src) entries) secret) = true ->
    wf_string (createHmac (signed_payload (generateId src) entries) secret) ->
    (MemoryStorage.ttlMs (storage e) <= 0 \/
     now' - now <= MemoryStorage.ttlMs (storage e))%Z ->
    fst (deanonymize
           (after_store e (generateId src)
              (signed_mapping (config e) (generateId src) entries now secret) now)
           output (generateId src)
           (Some (createHmac (signed_payload (generateId src) entries) secret)) now')
    = Ok (if JsMap.size entries =? 0 then output else restore_tokens output entries).
Proof.
  intros Hon Hsec Hp Hdet Hrep. split.
  - unfold anonymize. rewrite Hp, Hdet. cbn [negb].
    rewrite Hrep, Hon, Hsec. cbn [sign MappingData.with_signature
      MappingData.id MappingData.mappings MappingData.createdAt MappingData.strategy
      MappingData.signature].
    cbn [store MemoryStorage.storage_interface].
    unfold after_store.
    change (MappingData.with_signature _ _)
      with (signed_mapping (config e) (generateId src) entries now secret).
    assert (Hs : fst (MemoryStorage.store (storage e) (generateId src)
                        (signed_mapping (config e) (generateId src) entries now secret) now)
                 = Ok tt)
      by (apply store_ok; apply generateId_truthy).
    destruct (MemoryStorage.store (storage e) (generateId src)
                (signed_mapping (config e) (generateId src) entries now secret) now)
      as [r s'].
    simpl in Hs. subst r. reflexivity.
  - intros output now' Hout Htr Hwf Hage.
    rewrite (@deanonymize_after_store crypto e (generateId src)
               (signed_mapping (config e) (generateId src) entries now secret) now
               (generateId_truthy src) output _ now' Hout Hage).
    unfold restore, validate_signature, verifyHmac.
    cbn [signed_mapping MappingData.with_createdAt MappingData.signature
         MappingData.mappings MappingData.id MappingData.strategy].
    rewrite Hon, Hsec, Htr. cbn [negb].
    rewrite (constantTimeCompare_refl Hwf). cbn [negb].
    destruct (JsMap.size entries =? 0); reflexivity.
Qed.

(** X2 with the engine of the repository's tests.  The anonymized example
    prompt, sent back with the returned signature, is restored to the
    prompt.  For a password with two dollar signs the signature passes as
    well, and the replacement writes one dollar sign for the two. *)
Lemma anonymize_signs_witness :
  (exists r e',
     @anonymize toy_crypto _ _ toy_signed_engine c1_prompt zero_source 0 = Some (Ok r, e') /\
     fst (@deanonymize toy_crypto _ _ e' (AnonymizationResult.anonPrompt r)
            (AnonymizationResult.mapId r) (AnonymizationResult.signature r) 5)
     = Ok c1_prompt) /\
  (exists r e',
     @anonymize toy_crypto _ _ toy_signed_engine dollar_prompt zero_source 0
     = Some (Ok r, e') /\
     AnonymizationResult.anonPrompt r = lit "anon_Zm9vpwdpaw0rd12 done" /\
     fst (@deanonymize toy_crypto _ _ e' (AnonymizationResult.anonPrompt r)
            (AnonymizationResult.mapId r) (AnonymizationResult.signature r) 5)
     = Ok (lit "pwd=pa$w0rd12 done")).
Proof.
  split.
  - destruct (@anonymize_signs_detected_tokens toy_crypto toy_signed_engine c1_prompt
                (lit "test-secret-key") zero_source 0%Z
                (mkToken c1_key_value (Named API_KEY) 4 23 95)
                [mkToken c1_email (Named EMAIL) 37 53 90]
                (@c1_entries toy_crypto (lit "salt")) (@c1_anonPrompt toy_crypto (lit "salt"))
                eq_refl eq_refl eq_refl c1_detect)
      as [Ha Hd].
    + vm_compute. reflexivity.
    + eexists _, _. split; [exact Ha |].
      cbn [AnonymizationResult.mapId AnonymizationResult.signature
           AnonymizationResult.anonPrompt].
      rewrite Hd.
      * vm_compute. reflexivity.
      * reflexivity.
      * reflexivity.
      * apply wf_stringb_ok. vm_compute. reflexivity.
      * right. simpl. lia.
  - destruct (@anonymize_signs_detected_tokens toy_crypto toy_signed_engine dollar_prompt
                (lit "test-secret-key") zero_source 0%Z
                (mkToken (lit "pwd=pa$$w0") (Named PASSWORD) 0 10 60) []
                [(lit "anon_Zm9vpwdpaw0", lit "pwd=pa$$w0")]
                (lit "anon_Zm9vpwdpaw0rd12 done")
                eq_refl eq_refl eq_refl)
      as [Ha Hd].
    + vm_compute. reflexivity.
    + vm_compute. reflexivity.
    + eexists _, _. split; [exact Ha |].
      cbn [AnonymizationResult.mapId AnonymizationResult.signature
           AnonymizationResult.anonPrompt].
      split; [reflexivity |].
      rewrite Hd.
      * vm_compute. reflexivity.
      * reflexivity.
      * reflexivity.
      * apply wf_stringb_ok. vm_compute. reflexivity.
      * right. simpl. lia.
Defined.

(* ------------------------------------------------------------------------ *)
(** ** More on maps *)

Section MapLemmas2.

Variable V : Type.
Implicit Types (m : JsMap.t V) (k : jsstring) (v : V).

Lemma get_set_other m k k' v : k <> k' -> JsMap.get (JsMap.set m k' v) k = JsMap.get m k.
Proof.
  intros Hne. induction m as [| [k0 v0] m IH]; simpl.
  - now rewrite (eqb_neq Hne).
  - destruct (eqb_spec k' k0) as [-> | Hne']; simpl.
    + now rewrite (eqb_neq Hne).
    + rewrite IH. reflexivity.
Qed.

Lemma get_delete_other m k k' : k <> k' -> JsMap.get (JsMap.delete m k') k = JsMap.get m k.
Proof.
  intros Hne. induction m as [| [k0 v0] m IH]; simpl; [reflexivity |].
  destruct (eqb_spec k' k0) as [-> | Hne']; simpl.
  - now rewrite (eqb_neq Hne).
  - rewrite IH. reflexivity.
Qed.

Lemma delete_absent m k : ~ In k (JsMap.keys m) -> JsMap.delete m k = m.
Proof.
  induction m as [| [k0 v0] m IH]; simpl; [reflexivity |].
  intros H. destruct (eqb_spec k k0) as [-> | Hne]; [tauto |].
  rewrite IH; tauto.
Qed.

Lemma keys_delete_incl m k : incl (JsMap.keys (JsMap.delete m k)) (JsMap.keys m).
Proof.
  induction m as [| [k0 v0] m IH]; simpl; [apply incl_refl |].
  destruct (eqb_spec k k0) as [-> | Hne]; simpl.
  - apply incl_tl, incl_refl.
  - intros x [-> | Hx]; [left; reflexivity | right; apply IH; exact Hx].
Qed.

Lemma table_ok_delete m k : table_ok m -> table_ok (JsMap.delete m k).
Proof.
  intros [Hnd Htr]. split.
  - induction m as [| [k0 v0] m IH]; simpl; [constructor |].
    simpl in Hnd. inversion Hnd as [| ? ? Hnot Hnd']; subst.
    inversion Htr; subst.
    destruct (eqb_spec k k0) as [-> | Hne]; [exact Hnd' |].
    simpl. constructor; [| apply IH; assumption].
    intros Hin. apply Hnot. eapply keys_delete_incl; eauto.
  - rewrite Forall_forall in *. intros x Hx. apply Htr.
    eapply keys_delete_incl; eauto.
Qed.

Lemma table_ok_set m k v : table_ok m -> truthy k = true -> table_ok (JsMap.set m k v).
Proof.
  intros [Hnd Htr] Hk.
  destruct (in_dec (list_eq_dec N.eq_dec) k (JsMap.keys m)) as [Hin | Hnot].
  - unfold table_ok. rewrite keys_set_present by exact Hin. split; assumption.
  - unfold table_ok. rewrite set_absent by exact Hnot. rewrite keys_app. simpl. split.
    + apply NoDup_app; [exact Hnd | constructor; [tauto | constructor] |].
      intros x Hx [<- | []]. tauto.
    + apply Forall_app. split; [exact Htr | constructor; [exact Hk | constructor]].
Qed.

Lemma has_true_in m k : JsMap.has m k = true -> In k (JsMap.keys m).
Proof.
  unfold JsMap.has. destruct (JsMap.get m k) eqn:G; [| discriminate].
  intros _. eapply get_in_keys; eauto.
Qed.

Lemma size_set_present m k v : In k (JsMap.keys m) -> JsMap.size (JsMap.set m k v) = JsMap.size m.
Proof.
  intros H. pose proof (@keys_set_present _ m k v H) as E.
  unfold JsMap.size, JsMap.keys in *.
  rewrite <- (length_map fst (JsMap.set m k v)), E. apply length_map.
Qed.

Lemma size_set_absent m k v :
  ~ In k (JsMap.keys m) -> JsMap.size (JsMap.set m k v) = S (JsMap.size m).
Proof.
  intros H. rewrite set_absent by exact H. unfold JsMap.size.
  rewrite length_app. simpl. lia.
Qed.

Lemma size_delete_le m k : JsMap.size (JsMap.delete m k) <= JsMap.size m.
Proof.
  unfold JsMap.size. induction m as [| [k0 v0] m IH]; simpl; [lia |].
  destruct (eqb_spec k k0); simpl; lia.
Qed.

Lemma get_some_in m k v : JsMap.get m k = Some v -> In (k, v) m.
Proof.
  induction m as [| [k0 v0] m IH]; simpl; [discriminate |].
  destruct (eqb_spec k k0) as [-> | Hne].
  - intros H. inversion H. auto.
  - auto.
Qed.

Lemma in_get_some m k v : NoDup (JsMap.keys m) -> In (k, v) m -> JsMap.get m k = Some v.
Proof.
  induction m as [| [k0 v0] m IH]; simpl; [tauto |].
  intros Hnd. inversion Hnd as [| ? ? Hnot Hnd']; subst.
  intros [E | Hin].
  - inversion E; subst. now rewrite eqb_refl.
  - destruct (eqb_spec k k0) as [-> | Hne]; [| auto].
    exfalso. apply Hnot. change k0 with (fst (k0, v)). apply in_map. exact Hin.
Qed.

(** Filtering on the values keeps the entries of the keys it keeps. *)
Lemma get_filter m k (p : V -> bool) :
  NoDup (JsMap.keys m) ->
  JsMap.get (filter (fun e => p (snd e)) m) k =
  match JsMap.get m k with
  | Some v => if p v then Some v else None
  | None => None
  end.
Proof.
  induction m as [| [k0 v0] m IH]; simpl; [reflexivity |].
  intros Hnd. inversion Hnd as [| ? ? Hnot Hnd']; subst.
  destruct (p v0) eqn:P; simpl.
  - destruct (eqb_spec k k0) as [-> | Hne]; [now rewrite P | auto].
  - destruct (eqb_spec k k0) as [-> | Hne]; [| auto].
    rewrite P. apply get_not_in_keys. intros Hin. apply Hnot.
    unfold JsMap.keys in *. apply in_map_iff in Hin.
    destruct Hin as [[k1 v1] [E Hin]]. simpl in E. subst.
    apply filter_In in Hin. destruct Hin as [Hin _].
    change k0 with (fst (k0, v1)). apply in_map. exact Hin.
Qed.

Lemma table_ok_filter m (p : jsstring * V -> bool) : table_ok m -> table_ok (filter p m).
Proof.
  intros [Hnd Htr]. split.
  - induction m as [| [k0 v0] m IH]; simpl; [constructor |].
    simpl in Hnd. inversion Hnd as [| ? ? Hnot Hnd']; subst. inversion Htr; subst.
    destruct (p (k0, v0)); [| auto].
    simpl. constructor; [| auto].
    intros Hin. apply Hnot. unfold JsMap.keys in *. apply in_map_iff in Hin.
    destruct Hin as [[k1 v1] [E Hin]]. simpl in E. subst.
    apply filter_In in Hin. destruct Hin as [Hin _].
    change k0 with (fst (k0, v1)). apply in_map. exact Hin.
  - rewrite Forall_forall in *. intros x Hx. apply Htr.
    unfold JsMap.keys in *. apply in_map_iff in Hx.
    destruct Hx as [e [E Hin]]. apply filter_In in Hin. destruct Hin as [Hin _].
    subst. apply in_map. exact Hin.
Qed.

End MapLemmas2.

(* ------------------------------------------------------------------------ *)
(** ** MemoryStorage: round trip, isolation, capacity, sweep, statistics *)

Lemma with_mappings_same (s : MemoryStorage.t) :
  MemoryStorage.with_mappings s (MemoryStorage.mappings s) = s.
Proof. destruct s; reflexivity. Qed.

(** X3: after [store] under a non-empty id, [retrieve] of that id returns
    the stored data with [createdAt] replaced by the clock reading of the
    store and leaves the table as it is, unless a positive TTL has been
    exceeded, in which case it returns absent; both hold whatever the table
    held before, also when the store evicted an entry or overwrote one. *)
Theorem store_then_retrieve (s : MemoryStorage.t) (mapId : jsstring) (d : MappingData.t)
  (now now' : Z) :
  truthy mapId = true ->
  let s1 := snd (MemoryStorage.store s mapId d now) in
  fst (MemoryStorage.store s mapId d now) = Ok tt /\
  ((MemoryStorage.ttlMs s <= 0 \/ now' - now <= MemoryStorage.ttlMs s)%Z ->
   MemoryStorage.retrieve s1 mapId now'
     = (Ok (Some (MappingData.with_createdAt d now)), s1)) /\
  ((0 < MemoryStorage.ttlMs s /\ MemoryStorage.ttlMs s < now' - now)%Z ->
   fst (MemoryStorage.retrieve s1 mapId now') = Ok None).
Proof.
  intros Hid s1.
  destruct (@store_ok s mapId d now Hid) as [Hok Hget]. fold s1 in Hget.
  assert (Httl : MemoryStorage.ttlMs s1 = MemoryStorage.ttlMs s).
  { unfold s1, MemoryStorage.store. rewrite Hid. reflexivity. }
  split; [exact Hok |].
  unfold MemoryStorage.retrieve. rewrite Hid, Hget, Httl. cbn [negb].
  change (MappingData.createdAt (MappingData.with_createdAt d now)) with now.
  split.
  - intros Hage.
    destruct (Z.ltb_spec 0 (MemoryStorage.ttlMs s)); [| reflexivity].
    destruct (Z.ltb_spec (MemoryStorage.ttlMs s) (now' - now)); [lia | reflexivity].
  - intros [H1 H2]. apply Z.ltb_lt in H1, H2. rewrite H1, H2. reflexivity.
Qed.

(** X3 on a full table of capacity 2 without TTL. *)
Lemma store_then_retrieve_witness :
  MemoryStorage.retrieve
    (snd (MemoryStorage.store full_store (lit "c") sample_data 7)) (lit "c") 1000000
  = (Ok (Some (MappingData.with_createdAt sample_data 7)),
     snd (MemoryStorage.store full_store (lit "c") sample_data 7)).
Proof.
  destruct (@store_then_retrieve full_store (lit "c") sample_data 7%Z 1000000%Z eq_refl)
    as (_ & H & _).
  apply H. left. simpl. lia.
Defined.

(** X4: [store] under one id never changes the entry of another id, with
    one exception: the oldest entry of a table that is at capacity goes
    when the stored id is new. *)
Theorem store_keeps_other_ids (s : MemoryStorage.t) (mapId k : jsstring)
  (d : MappingData.t) (now : Z) :
  table_ok (MemoryStorage.mappings s) ->
  k <> mapId ->
  let after := MemoryStorage.mappings (snd (MemoryStorage.store s mapId d now)) in
  JsMap.get after k = JsMap.get (MemoryStorage.mappings s) k \/
  (JsMap.first_key (MemoryStorage.mappings s) = Some k /\
   (MemoryStorage.maxSize s <= Z.of_nat (JsMap.size (MemoryStorage.mappings s)))%Z /\
   JsMap.has (MemoryStorage.mappings s) mapId = false /\
   JsMap.get after k = None).
Proof.
  intros [Hnd Htr] Hne after. unfold after, MemoryStorage.store.
  destruct (truthy mapId); cbn [negb snd]; [| left; reflexivity].
  cbn [MemoryStorage.mappings MemoryStorage.with_mappings].
  rewrite get_set_other by exact Hne.
  destruct (MemoryStorage.maxSize s <=? Z.of_nat (JsMap.size (MemoryStorage.mappings s)))%Z
    eqn:Hcap; cbn [andb]; [| left; reflexivity].
  destruct (JsMap.has (MemoryStorage.mappings s) mapId) eqn:Hhas; cbn [negb];
    [left; reflexivity |].
  destruct (MemoryStorage.mappings s) as [| [k0 d0] rest] eqn:Hm; cbn [JsMap.first_key];
    [left; reflexivity |].
  simpl in Htr. inversion Htr as [| ? ? Hk0 _]; subst. rewrite Hk0.
  destruct (eqb_spec k k0) as [-> | Hne0].
  - right. split; [reflexivity |]. split; [apply Z.leb_le; exact Hcap |].
    split; [reflexivity |]. apply get_delete_same. exact Hnd.
  - left. apply get_delete_other. exact Hne0.
Qed.

(** X4: storing a third id in the full table leaves the entry of the second. *)
Lemma store_keeps_other_ids_witness :
  JsMap.get (MemoryStorage.mappings
               (snd (MemoryStorage.store full_store (lit "c") sample_data 7))) (lit "b")
  = Some sample_data.
Proof.
  destruct (@store_keeps_other_ids full_store (lit "c") (lit "b") sample_data 7%Z
              full_store_ok ltac:(discriminate)) as [H | (H & _)].
  - exact H.
  - discriminate H.
Defined.

Lemma run_op_invariant (s : MemoryStorage.t) (o : storage_op) :
  table_ok (MemoryStorage.mappings s) ->
  (Z.of_nat (JsMap.size (MemoryStorage.mappings s)) <= Z.max 1 (MemoryStorage.maxSize s))%Z ->
  table_ok (MemoryStorage.mappings (run_op s o)) /\
  (Z.of_nat (JsMap.size (MemoryStorage.mappings (run_op s o)))
     <= Z.max 1 (MemoryStorage.maxSize (run_op s o)))%Z /\
  MemoryStorage.maxSize (run_op s o) = MemoryStorage.maxSize s.
Proof.
  intros Hok Hsz. destruct o as [mapId d now | mapId now | mapId | now | | ttl |];
    cbn [run_op].
  - (* store *)
    unfold MemoryStorage.store.
    destruct (truthy mapId) eqn:Hid; cbn [negb snd]; [| auto].
    cbn [MemoryStorage.mappings MemoryStorage.with_mappings MemoryStorage.maxSize].
    destruct (JsMap.has (MemoryStorage.mappings s) mapId) eqn:Hhas.
    + rewrite andb_false_r.
      split; [apply table_ok_set; assumption |]. split; [| reflexivity].
      rewrite size_set_present by (apply has_true_in; exact Hhas). exact Hsz.
    + rewrite andb_true_r. pose proof (has_false_not_in _ _ Hhas) as Hnot.
      destruct (Z.leb_spec (MemoryStorage.maxSize s)
                  (Z.of_nat (JsMap.size (MemoryStorage.mappings s)))) as [Hcap | Hcap].
      * destruct (MemoryStorage.mappings s) as [| [k0 d0] rest] eqn:Hm;
          cbn [JsMap.first_key].
        { split; [apply table_ok_set; assumption |]. split; [| reflexivity].
          simpl. lia. }
        destruct Hok as [Hnd Htr].
        simpl in Htr. inversion Htr as [| ? ? Hk0 Htr']; subst. rewrite Hk0.
        simpl in Hnd. inversion Hnd as [| ? ? Hn0 Hnd']; subst.
        simpl JsMap.delete. rewrite eqb_refl.
        assert (Hok' : table_ok rest) by (split; assumption).
        split; [apply table_ok_set; assumption |]. split; [| reflexivity].
        rewrite size_set_absent by (simpl in Hnot; tauto).
        unfold JsMap.size in *. simpl in Hsz. lia.
      * split; [apply table_ok_set; assumption |]. split; [| reflexivity].
        rewrite size_set_absent by exact Hnot. lia.
  - (* retrieve *)
    unfold MemoryStorage.retrieve.
    destruct (truthy mapId); cbn [negb]; [| auto].
    destruct (JsMap.get (MemoryStorage.mappings s) mapId); [| auto].
    destruct (_ && _); cbn [snd]; [| auto].
    cbn [MemoryStorage.mappings MemoryStorage.with_mappings MemoryStorage.maxSize].
    split; [apply table_ok_delete; exact Hok |]. split; [| reflexivity].
    pose proof (size_delete_le (MemoryStorage.mappings s) mapId). lia.
  - (* delete *)
    unfold MemoryStorage.delete.
    destruct (truthy mapId); cbn [negb snd]; [| auto].
    cbn [MemoryStorage.mappings MemoryStorage.with_mappings MemoryStorage.maxSize].
    split; [apply table_ok_delete; exact Hok |]. split; [| reflexivity].
    pose proof (size_delete_le (MemoryStorage.mappings s) mapId). lia.
  - (* cleanup *)
    unfold MemoryStorage.cleanup.
    destruct (MemoryStorage.ttlMs s <=? 0)%Z; [auto |].
    cbn [MemoryStorage.mappings MemoryStorage.with_mappings MemoryStorage.maxSize].
    split; [apply table_ok_filter; exact Hok |]. split; [| reflexivity].
    unfold JsMap.size in *.
    pose proof (filter_length_le
                  (fun e : jsstring * MappingData.t =>
                     negb (MemoryStorage.ttlMs s <? now - MappingData.createdAt (snd e))%Z)
                  (MemoryStorage.mappings s)). lia.
  - (* clear *)
    cbn. split; [split; constructor |]. split; [lia | reflexivity].
  - (* setTTL *)
    cbn. auto.
  - (* dispose *)
    cbn. split; [split; constructor |]. split; [lia | reflexivity].
Qed.

(** X5: whatever sequence of [store], [retrieve], [delete], sweep,
    [clear], [setTTL] and [dispose] is applied to a new
    [MemoryStorage(maxSize, ttlMs)], with any arguments, failing or not,
    the table holds pairwise distinct non-empty ids and never more than
    [maxSize] entries, or one entry when [maxSize] is below 1. *)
Theorem capacity_never_exceeded (maxSize ttlMs : Z) (ops : list storage_op) :
  let s := run_ops (MemoryStorage.new maxSize ttlMs) ops in
  table_ok (MemoryStorage.mappings s) /\
  (Z.of_nat (length (MemoryStorage.getAllMappingIds s)) <= Z.max 1 maxSize)%Z.
Proof.
  intros s.
  assert (H : table_ok (MemoryStorage.mappings s) /\
              (Z.of_nat (JsMap.size (MemoryStorage.mappings s))
                 <= Z.max 1 (MemoryStorage.maxSize s))%Z /\
              MemoryStorage.maxSize s = maxSize).
  { unfold s, run_ops.
    assert (H0 : table_ok (MemoryStorage.mappings (MemoryStorage.new maxSize ttlMs)) /\
                 (Z.of_nat (JsMap.size (MemoryStorage.mappings (MemoryStorage.new maxSize ttlMs)))
                    <= Z.max 1 (MemoryStorage.maxSize (MemoryStorage.new maxSize ttlMs)))%Z /\
                 MemoryStorage.maxSize (MemoryStorage.new maxSize ttlMs) = maxSize).
    { cbn. split; [split; constructor |]. split; [lia | reflexivity]. }
    revert H0. generalize (MemoryStorage.new maxSize ttlMs).
    induction ops as [| o ops IH]; intros s0 H0; [exact H0 |].
    simpl. apply IH. destruct H0 as (Hok & Hsz & Hmax).
    destruct (@run_op_invariant s0 o Hok Hsz) as (Hok' & Hsz' & Hmax').
    split; [exact Hok' |]. split; [exact Hsz' | congruence]. }
  destruct H as (Hok & Hsz & Hmax). split; [exact Hok |].
  unfold MemoryStorage.getAllMappingIds, JsMap.keys. rewrite length_map.
  rewrite Hmax in Hsz. exact Hsz.
Qed.

(** X6: [delete] of the empty id throws a StorageError and changes
    nothing; [delete] of a non-empty id succeeds whether or not the id is
    stored, after which [retrieve] of it returns absent at any time, every
    other id keeps its entry, and a table that did not hold the id is
    unchanged. *)
Theorem delete_removes_only_that_id (s : MemoryStorage.t) (mapId : jsstring) :
  table_ok (MemoryStorage.mappings s) ->
  truthy mapId = true ->
  let s1 := snd (MemoryStorage.delete s mapId) in
  MemoryStorage.delete s []
    = (Throw (StorageError "Failed to delete mapping: Map ID must be a non-empty string"), s) /\
  fst (MemoryStorage.delete s mapId) = Ok tt /\
  (forall now, MemoryStorage.retrieve s1 mapId now = (Ok None, s1)) /\
  (forall k, k <> mapId ->
     JsMap.get (MemoryStorage.mappings s1) k = JsMap.get (MemoryStorage.mappings s) k) /\
  (JsMap.has (MemoryStorage.mappings s) mapId = false -> s1 = s).
Proof.
  intros [Hnd Htr] Hid s1. split; [reflexivity |].
  unfold s1, MemoryStorage.delete. rewrite Hid. cbn [negb fst snd].
  split; [reflexivity |]. split; [| split].
  - intros now. unfold MemoryStorage.retrieve. rewrite Hid. cbn [negb].
    cbn [MemoryStorage.mappings MemoryStorage.with_mappings].
    rewrite get_delete_same by exact Hnd. reflexivity.
  - intros k Hne. cbn [MemoryStorage.mappings MemoryStorage.with_mappings].
    apply get_delete_other. exact Hne.
  - intros Hhas. rewrite delete_absent by (apply has_false_not_in; exact Hhas).
    apply with_mappings_same.
Qed.

(** X6 on the full table. *)
Lemma delete_removes_only_that_id_witness :
  MemoryStorage.retrieve (snd (MemoryStorage.delete full_store (lit "a"))) (lit "a") 5
    = (Ok None, snd (MemoryStorage.delete full_store (lit "a"))) /\
  JsMap.get (MemoryStorage.mappings (snd (MemoryStorage.delete full_store (lit "a"))))
    (lit "b") = Some sample_data.
Proof.
  destruct (@delete_removes_only_that_id full_store (lit "a") full_store_ok eq_refl)
    as (_ & _ & Hr & Hk & _).
  split; [apply Hr |]. rewrite Hk; [reflexivity | discriminate].
Defined.

(** X7: the sweep keeps exactly the entries that are not older than the
    TTL (all of them when the TTL is off), and it is invisible to
    [retrieve]: at the time of the sweep or later, [retrieve] returns the
    same for every id whether or not the sweep has run. *)
Theorem cleanup_removes_expired (s : MemoryStorage.t) (now : Z) :
  table_ok (MemoryStorage.mappings s) ->
  (forall k d,
     JsMap.get (MemoryStorage.mappings (MemoryStorage.cleanup s now)) k = Some d <->
     JsMap.get (MemoryStorage.mappings s) k = Some d /\ fresh s d now) /\
  (forall k now',
     (now <= now')%Z ->
     fst (MemoryStorage.retrieve (MemoryStorage.cleanup s now) k now')
       = fst (MemoryStorage.retrieve s k now')).
Proof.
  intros [Hnd Htr]. unfold MemoryStorage.cleanup, fresh.
  destruct (Z.leb_spec (MemoryStorage.ttlMs s) 0) as [Hoff | Hon].
  - split; [| reflexivity]. intros k d. split; [auto | tauto].
  - pose proof (@get_filter _ (MemoryStorage.mappings s))  as Hf.
    specialize (fun k => Hf k (fun v => negb (MemoryStorage.ttlMs s <? now - MappingData.createdAt v)%Z) Hnd).
    cbn [MemoryStorage.mappings MemoryStorage.with_mappings]. split.
    + intros k d. rewrite Hf.
      destruct (JsMap.get (MemoryStorage.mappings s) k) as [v |]; [| split; [discriminate | tauto]].
      destruct (Z.ltb_spec (MemoryStorage.ttlMs s) (now - MappingData.createdAt v));
        cbn [negb]; split.
      * discriminate.
      * intros [E Hage]. inversion E; subst. lia.
      * intros E. inversion E; subst. split; [reflexivity | lia].
      * tauto.
    + intros k now' Hlater. unfold MemoryStorage.retrieve.
      destruct (truthy k); cbn [negb fst]; [| reflexivity].
      cbn [MemoryStorage.mappings MemoryStorage.with_mappings MemoryStorage.ttlMs].
      rewrite Hf.
      destruct (JsMap.get (MemoryStorage.mappings s) k) as [v |]; [| reflexivity].
      destruct (Z.ltb_spec (MemoryStorage.ttlMs s) (now - MappingData.createdAt v));
        cbn [negb].
      * destruct (Z.ltb_spec 0 (MemoryStorage.ttlMs s)); [| lia].
        destruct (Z.ltb_spec (MemoryStorage.ttlMs s) (now' - MappingData.createdAt v));
          [reflexivity | lia].
      * destruct (_ && _); reflexivity.
Qed.

(** X7 with TTL 100, entries stamped 0 and a sweep at 150. *)
Lemma cleanup_removes_expired_witness :
  fst (MemoryStorage.retrieve
         (MemoryStorage.cleanup (MemoryStorage.setTTL full_store 100) 150) (lit "a") 150)
    = Ok None.
Proof.
  assert (Hok : table_ok (MemoryStorage.mappings (MemoryStorage.setTTL full_store 100))).
  { exact full_store_ok. }
  destruct (@cleanup_removes_expired (MemoryStorage.setTTL full_store 100) 150%Z Hok)
    as [_ H].
  rewrite H; [reflexivity | lia].
Defined.

(** The two ends [getStats] tracks, over any starting pair. *)
Lemma stats_fold_oldest (m : JsMap.t MappingData.t) :
  forall acc,
    match fst (fold_left MemoryStorage.stats_step m acc) with
    | Some lo =>
        (forall e, In e m -> (lo <= MappingData.createdAt (snd e))%Z) /\
        (forall x, fst acc = Some x -> (lo <= x)%Z) /\
        (fst acc = Some lo \/ exists e, In e m /\ MappingData.createdAt (snd e) = lo)
    | None => fst acc = None /\ m = []
    end.
Proof.
  induction m as [| e m IH]; intros acc; simpl.
  - destruct (fst acc) as [x |] eqn:E; [| auto].
    split; [tauto |]. split; [| auto]. intros y Hy. inversion Hy. lia.
  - specialize (IH (MemoryStorage.stats_step acc e)).
    destruct (fst (fold_left MemoryStorage.stats_step m (MemoryStorage.stats_step acc e)))
      as [lo |].
    + destruct IH as (Hall & Hacc & Hatt).
      unfold MemoryStorage.stats_step in Hacc, Hatt. cbn [fst] in Hacc, Hatt.
      split; [| split].
      * intros e' [<- | Hin]; [| auto].
        destruct (fst acc) as [x |].
        -- destruct (Z.ltb_spec (MappingData.createdAt (snd e)) x);
             [apply Hacc; reflexivity |].
           specialize (Hacc x eq_refl). lia.
        -- apply Hacc. reflexivity.
      * intros x Hx. rewrite Hx in Hacc.
        destruct (Z.ltb_spec (MappingData.createdAt (snd e)) x).
        -- specialize (Hacc _ eq_refl). lia.
        -- apply Hacc. reflexivity.
      * destruct Hatt as [Hatt | [e' [Hin He']]]; [| right; exists e'; auto].
        destruct (fst acc) as [x |].
        -- destruct (Z.ltb_spec (MappingData.createdAt (snd e)) x).
           ++ right. exists e. inversion Hatt. auto.
           ++ left. exact Hatt.
        -- right. exists e. inversion Hatt. auto.
    + destruct IH as [Hacc _]. unfold MemoryStorage.stats_step in Hacc. cbn [fst] in Hacc.
      destruct (fst acc) as [x |]; [destruct (_ <? _)%Z |]; discriminate.
Qed.

Lemma stats_fold_newest (m : JsMap.t MappingData.t) :
  forall acc,
    match snd (fold_left MemoryStorage.stats_step m acc) with
    | Some hi =>
        (forall e, In e m -> (MappingData.createdAt (snd e) <= hi)%Z) /\
        (forall x, snd acc = Some x -> (x <= hi)%Z) /\
        (snd acc = Some hi \/ exists e, In e m /\ MappingData.createdAt (snd e) = hi)
    | None => snd acc = None /\ m = []
    end.
Proof.
  induction m as [| e m IH]; intros acc; simpl.
  - destruct (snd acc) as [x |] eqn:E; [| auto].
    split; [tauto |]. split; [| auto]. intros y Hy. inversion Hy. lia.
  - specialize (IH (MemoryStorage.stats_step acc e)).
    destruct (snd (fold_left MemoryStorage.stats_step m (MemoryStorage.stats_step acc e)))
      as [hi |].
    + destruct IH as (Hall & Hacc & Hatt).
      unfold MemoryStorage.stats_step in Hacc, Hatt. cbn [snd] in Hacc, Hatt.
      split; [| split].
      * intros e' [<- | Hin]; [| auto].
        destruct (snd acc) as [x |].
        -- destruct (Z.ltb_spec x (MappingData.createdAt (snd e)));
             [apply Hacc; reflexivity |].
           specialize (Hacc x eq_refl). lia.
        -- apply Hacc. reflexivity.
      * intros x Hx. rewrite Hx in Hacc.
        destruct (Z.ltb_spec x (MappingData.createdAt (snd e))).
        -- specialize (Hacc _ eq_refl). lia.
        -- apply Hacc. reflexivity.
      * destruct Hatt as [Hatt | [e' [Hin He']]]; [| right; exists e'; auto].
        destruct (snd acc) as [x |].
        -- destruct (Z.ltb_spec x (MappingData.createdAt (snd e))).
           ++ right. exists e. inversion Hatt. auto.
           ++ left. exact Hatt.
        -- right. exists e. inversion Hatt. auto.
    + destruct IH as [Hacc _]. unfold MemoryStorage.stats_step in Hacc. cbn [snd] in Hacc.
      destruct (snd acc) as [x |]; [destruct (_ <? _)%Z |]; discriminate.
Qed.

Lemma memory_fold_lower (m : JsMap.t MappingData.t) :
  forall a,
    (a + 100 * Z.of_nat (length m) <=
     fold_left
       (fun totalSize e =>
          totalSize
          + Z.of_nat (length (fst e)) * 2
          + Z.of_nat (length (MappingData.id (snd e))) * 2
          + Z.of_nat (JsMap.size (MappingData.mappings (snd e))) * 50
          + 100) m a)%Z.
Proof.
  induction m as [| e m IH]; intros a; [simpl; lia |].
  cbn [fold_left]. etransitivity; [| apply IH]. cbn [length]. lia.
Qed.

(** X8: [getStats] counts the ids [getAllMappingIds] lists; of an empty
    table it reports no oldest and no newest mapping; of any other table
    the oldest and the newest are creation times of stored mappings and
    bound the creation time of every stored mapping; the memory estimate
    is at least 100 per mapping. *)
Theorem getStats_range (s : MemoryStorage.t) :
  let st := MemoryStorage.getStats s in
  MemoryStorage.Stats.totalMappings st = length (MemoryStorage.getAllMappingIds s) /\
  (100 * Z.of_nat (MemoryStorage.Stats.totalMappings st)
     <= MemoryStorage.Stats.memoryUsage st)%Z /\
  (MemoryStorage.mappings s = [] ->
   MemoryStorage.Stats.oldestMapping st = None /\
   MemoryStorage.Stats.newestMapping st = None) /\
  (MemoryStorage.mappings s <> [] ->
   exists lo hi,
     MemoryStorage.Stats.oldestMapping st = Some lo /\
     MemoryStorage.Stats.newestMapping st = Some hi /\
     (forall k d, In (k, d) (MemoryStorage.mappings s) ->
                  (lo <= MappingData.createdAt d <= hi)%Z) /\
     (exists k d, In (k, d) (MemoryStorage.mappings s) /\ MappingData.createdAt d = lo) /\
     (exists k d, In (k, d) (MemoryStorage.mappings s) /\ MappingData.createdAt d = hi)).
Proof.
  intros st. unfold st, MemoryStorage.getStats.
  cbn [MemoryStorage.Stats.totalMappings MemoryStorage.Stats.memoryUsage
       MemoryStorage.Stats.oldestMapping MemoryStorage.Stats.newestMapping].
  split; [| split; [| split]].
  - unfold MemoryStorage.getAllMappingIds, JsMap.keys, JsMap.size.
    symmetry. apply length_map.
  - unfold MemoryStorage.estimateMemoryUsage, JsMap.size.
    etransitivity; [| apply memory_fold_lower]. lia.
  - intros ->. split; reflexivity.
  - intros Hne.
    pose proof (stats_fold_oldest (MemoryStorage.mappings s) (None, None)) as Ho.
    pose proof (stats_fold_newest (MemoryStorage.mappings s) (None, None)) as Hn.
    destruct (fst (fold_left MemoryStorage.stats_step (MemoryStorage.mappings s) (None, None)))
      as [lo |]; [| tauto].
    destruct (snd (fold_left MemoryStorage.stats_step (MemoryStorage.mappings s) (None, None)))
      as [hi |]; [| tauto].
    destruct Ho as (Hlo & _ & [Habs | [[k1 d1] [Hin1 E1]]]); [discriminate Habs |].
    destruct Hn as (Hhi & _ & [Habs | [[k2 d2] [Hin2 E2]]]); [discriminate Habs |].
    exists lo, hi. split; [reflexivity |]. split; [reflexivity |]. split; [| split].
    + intros k d Hin. specialize (Hlo _ Hin). specialize (Hhi _ Hin). simpl in *. lia.
    + exists k1, d1. auto.
    + exists k2, d2. auto.
Qed.

(* ------------------------------------------------------------------------ *)
(** ** Identifiers and salts *)

Lemma randomBytes_length (src : nat -> N) (n : nat) : length (randomBytes src n) = n.
Proof. unfold randomBytes. rewrite length_map. apply length_seq. Qed.

Lemma randomBytes_bytes (src : nat -> N) (n : nat) :
  Forall (fun b => (b < 256)%N) (randomBytes src n).
Proof.
  unfold randomBytes. apply Forall_forall. intros b Hb.
  apply in_map_iff in Hb. destruct Hb as [i [<- _]]. apply N.mod_lt. discriminate.
Qed.

Lemma hex_digit_lower (d : N) : (d < 16)%N -> lower_hex_char (hex_digit d) = true.
Proof.
  intros H. unfold hex_digit, lower_hex_char, is_digit.
  destruct (N.ltb_spec d 10).
  - apply orb_true_iff. left. apply andb_true_iff. split; apply N.leb_le; lia.
  - apply orb_true_iff. right. apply andb_true_iff. split; apply N.leb_le; lia.
Qed.

Lemma hex_digit_inj (d d' : N) :
  (d < 16)%N -> (d' < 16)%N -> hex_digit d = hex_digit d' -> d = d'.
Proof.
  unfold hex_digit. intros H H'.
  destruct (N.ltb_spec d 10); destruct (N.ltb_spec d' 10); lia.
Qed.

Lemma to_hex_length (l : list N) : length (to_hex l) = 2 * length l.
Proof. unfold to_hex. induction l as [| b l IH]; simpl; [reflexivity | lia]. Qed.

Lemma to_hex_lower (l : list N) :
  Forall (fun b => (b < 256)%N) l -> Forall (fun c => lower_hex_char c = true) (to_hex l).
Proof.
  unfold to_hex. induction 1 as [| b l Hb _ IH]; simpl; [constructor |].
  constructor; [| constructor; [| exact IH]]; apply hex_digit_lower.
  - apply N.Div0.div_lt_upper_bound. lia.
  - apply N.mod_lt. discriminate.
Qed.

Lemma to_hex_inj (l l' : list N) :
  Forall (fun b => (b < 256)%N) l -> Forall (fun b => (b < 256)%N) l' ->
  to_hex l = to_hex l' -> l = l'.
Proof.
  unfold to_hex. intros H. revert l'.
  induction H as [| b l Hb _ IH]; intros l' H' E; destruct H' as [| b' l' Hb' H'];
    simpl in E; try discriminate; [reflexivity |].
  inversion E as [[E1 E2 E3]].
  apply hex_digit_inj in E1;
    [| apply N.Div0.div_lt_upper_bound; lia | apply N.Div0.div_lt_upper_bound; lia].
  apply hex_digit_inj in E2; [| apply N.mod_lt; discriminate | apply N.mod_lt; discriminate].
  f_equal; [| apply IH; assumption].
  rewrite (N.div_mod b 16), (N.div_mod b' 16) by discriminate. congruence.
Qed.

(** X9: whatever the random source yields, [generateId()] is 32
    lower-case hexadecimal characters, so a non-empty string, and two ids
    are equal only if the sixteen random bytes behind them are. *)
Theorem generateId_format (src src' : nat -> N) :
  length (generateId src) = 32 /\
  Forall (fun c => lower_hex_char c = true) (generateId src) /\
  truthy (generateId src) = true /\
  (generateId src = generateId src' -> randomBytes src 16 = randomBytes src' 16).
Proof.
  unfold generateId. split; [| split; [| split]].
  - rewrite to_hex_length, randomBytes_length. reflexivity.
  - apply to_hex_lower, randomBytes_bytes.
  - reflexivity.
  - apply to_hex_inj; apply randomBytes_bytes.
Qed.

Lemma base64_char_text (d : N) : (d < 64)%N -> base64_text_char (base64_char d) = true.
Proof.
  intros H. unfold base64_char, base64_text_char, is_alnum, is_upper, is_lower, is_digit.
  destruct (N.ltb_spec d 26); [| destruct (N.ltb_spec d 52); [| destruct (N.ltb_spec d 62);
    [| destruct (N.eqb_spec d 62)]]].
  - replace ((65 <=? 65 + d)%N && (65 + d <=? 90)%N) with true; [reflexivity |].
    symmetry. apply andb_true_iff. split; apply N.leb_le; lia.
  - replace ((97 <=? 71 + d)%N && (71 + d <=? 122)%N) with true;
      [now rewrite orb_true_r |].
    symmetry. apply andb_true_iff. split; apply N.leb_le; lia.
  - replace ((48 <=? d - 4)%N && (d - 4 <=? 57)%N) with true;
      [now rewrite !orb_true_r |].
    symmetry. apply andb_true_iff. split; apply N.leb_le; lia.
  - reflexivity.
  - reflexivity.
Qed.

Lemma to_base64_spec (n : nat) :
  forall l, length l <= n ->
    Forall (fun b => (b < 256)%N) l ->
    length (to_base64 l) = 4 * ((length l + 2) / 3) /\
    Forall (fun c => base64_text_char c = true) (to_base64 l).
Proof.
  induction n as [| n IH]; intros l Hlen Hb.
  - destruct l; [| simpl in Hlen; lia]. split; [reflexivity | constructor].
  - destruct l as [| a [| b [| c rest]]].
    + split; [reflexivity | constructor].
    + inversion Hb as [| ? ? Ha _]; subst. split; [reflexivity |].
      cbn [to_base64].
      assert (a / 4 < 64)%N by (apply N.Div0.div_lt_upper_bound; lia).
      assert (a mod 4 < 4)%N by (apply N.mod_lt; discriminate).
      repeat constructor; apply base64_char_text; lia.
    + inversion Hb as [| ? ? Ha Hb']; subst. inversion Hb' as [| ? ? Hb0 _]; subst.
      split; [reflexivity |]. cbn [to_base64].
      assert (a / 4 < 64)%N by (apply N.Div0.div_lt_upper_bound; lia).
      assert (a mod 4 < 4)%N by (apply N.mod_lt; discriminate).
      assert (b / 16 < 16)%N by (apply N.Div0.div_lt_upper_bound; lia).
      assert (b mod 16 < 16)%N by (apply N.mod_lt; discriminate).
      repeat constructor; apply base64_char_text; lia.
    + inversion Hb as [| ? ? Ha Hb']; subst. inversion Hb' as [| ? ? Hb0 Hb'']; subst.
      inversion Hb'' as [| ? ? Hc Hrest]; subst.
      destruct (IH rest) as [IHlen IHall]; [simpl in Hlen; lia | exact Hrest |].
      cbn [to_base64]. split.
      * rewrite length_app, IHlen. cbn [length].
        replace (S (S (S (length rest))) + 2) with (length rest + 2 + 1 * 3) by lia.
        rewrite Nat.div_add by discriminate. lia.
      * assert (a / 4 < 64)%N by (apply N.Div0.div_lt_upper_bound; lia).
        assert (a mod 4 < 4)%N by (apply N.mod_lt; discriminate).
        assert (b / 16 < 16)%N by (apply N.Div0.div_lt_upper_bound; lia).
        assert (b mod 16 < 16)%N by (apply N.mod_lt; discriminate).
        assert (c / 64 < 4)%N by (apply N.Div0.div_lt_upper_bound; lia).
        assert (c mod 64 < 64)%N by (apply N.mod_lt; discriminate).
        apply Forall_app. split; [| exact IHall].
        repeat constructor; apply base64_char_text; lia.
Qed.

(** X10: [generateSalt(length)] throws a SignatureError for a length of
    0 or less, for a length [randomBytes] refuses, and for a length whose
    Base64 text, four characters for every three bytes or part of three,
    would be longer than the longest string of the runtime; for every other
    length it returns that Base64 text, which is not empty. *)
Theorem generateSalt_format (limits : BufferLimits) (src : nat -> N) (length : Z) :
  ((length <= 0)%Z ->
   generateSalt limits src length
     = Throw (SignatureError "Failed to generate salt: Salt length must be positive")) /\
  ((0 < length)%Z ->
   (max_random_bytes limits < length \/
    max_string_length limits < 4 * ((length + 2) / 3))%Z ->
   generateSalt limits src length = Throw (SignatureError "Failed to generate salt")) /\
  ((0 < length <= max_random_bytes limits)%Z ->
   (4 * ((length + 2) / 3) <= max_string_length limits)%Z ->
   exists salt,
     generateSalt limits src length = Ok salt /\
     Z.of_nat (List.length salt) = (4 * ((length + 2) / 3))%Z /\
     Forall (fun c => base64_text_char c = true) salt /\
     truthy salt = true).
Proof.
  unfold generateSalt. split; [| split].
  - intros H. apply Z.leb_le in H. rewrite H. reflexivity.
  - intros Hpos Hbig. destruct (Z.leb_spec length 0); [lia |].
    destruct (Z.ltb_spec (max_random_bytes limits) length); [reflexivity |].
    destruct (Z.ltb_spec (max_string_length limits) (4 * ((length + 2) / 3)));
      [reflexivity | lia].
  - intros [Hpos Hmax] Hfits. destruct (Z.leb_spec length 0); [lia |].
    destruct (Z.ltb_spec (max_random_bytes limits) length); [lia |].
    destruct (Z.ltb_spec (max_string_length limits) (4 * ((length + 2) / 3))); [lia |].
    eexists. split; [reflexivity |].
    destruct (@to_base64_spec (Z.to_nat length) (randomBytes src (Z.to_nat length)))
      as [Hlen Hall].
    { rewrite randomBytes_length. lia. }
    { apply randomBytes_bytes. }
    rewrite randomBytes_length in Hlen. split; [| split; [exact Hall |]].
    + rewrite Hlen. rewrite Nat2Z.inj_mul, Nat2Z.inj_div, Nat2Z.inj_add, Z2Nat.id by lia.
      reflexivity.
    + assert (0 < List.length (to_base64 (randomBytes src (Z.to_nat length)))).
      { rewrite Hlen.
        assert (1 <= (Z.to_nat length + 2) / 3).
        { apply Nat.div_le_lower_bound; lia. }
        lia. }
      destruct (to_base64 _); [simpl in *; lia | reflexivity].
Qed.

(** X10 under the limits of Node: the default length of 32 bytes gives 44
    characters; 402653167 bytes would give 2^29 - 20 characters, four more
    than a string can hold, and the call throws. *)
Lemma generateSalt_witness :
  (exists salt,
     generateSalt node_limits zero_source 32 = Ok salt /\
     Z.of_nat (List.length salt) = 44%Z /\
     truthy salt = true) /\
  generateSalt node_limits zero_source 402653167
  = Throw (SignatureError "Failed to generate salt").
Proof.
  split.
  - destruct (proj2 (proj2 (generateSalt_format node_limits zero_source 32)))
      as (salt & Hok & Hlen & _ & Htruthy).
    + unfold node_limits; simpl; lia.
    + unfold node_limits; simpl; lia.
    + exists salt. split; [exact Hok |]. split; [exact Hlen | exact Htruthy].
  - apply (proj1 (proj2 (generateSalt_format node_limits zero_source 402653167))).
    + lia.
    + right. unfold node_limits. simpl. lia.
Defined.

(* ------------------------------------------------------------------------ *)
(** ** Anchored tests of a repeated character class *)

Section ClassRepeat.

Variable ignoreCase : bool.
Variable rs : list (N * N).

Lemma class_body_eq (k : cont) (x : cursor) (cs : captures) :
  rmatch ignoreCase (CharSet false rs) k x cs =
  match c_rest x with
  | [] => None
  | c :: tl =>
      if set_member ignoreCase rs c then k (mkCursor (S (c_pos x)) (Some c) tl) cs
      else None
  end.
Proof. reflexivity. Qed.

Lemma repeat_match_unbounded_eq (body : cont -> cont) (k : cont) (fuel mn : nat)
  (x : cursor) (cs : captures) :
  repeat_match body k (S fuel) mn None x cs =
  if mn =? 0
  then match body (fun y cs' =>
                     if (mn =? 0) && (c_pos y =? c_pos x) then None
                     else repeat_match body k fuel (Nat.pred mn) None y cs') x cs with
       | Some res => Some res
       | None => k x cs
       end
  else body (fun y cs' =>
               if (mn =? 0) && (c_pos y =? c_pos x) then None
               else repeat_match body k fuel (Nat.pred mn) None y cs') x cs.
Proof. reflexivity. Qed.

(** A greedy repetition of a class that reaches the end of the subject
    stops there when the continuation accepts the end. *)
Lemma repeat_class_greedy (k : cont) (cs : captures) :
  (forall y, c_rest y = [] -> exists res, k y cs = Some res) ->
  forall l x fuel mn,
    c_rest x = l ->
    Forall (fun c => set_member ignoreCase rs c = true) l ->
    mn <= length l ->
    length l < fuel ->
    exists res,
      repeat_match (rmatch ignoreCase (CharSet false rs)) k fuel mn None x cs = Some res.
Proof.
  intros Hk. induction l as [| c tl IH]; intros x fuel mn Hx Hall Hmn Hfuel.
  - destruct fuel as [| fuel]; [simpl in Hfuel; lia |].
    simpl in Hmn. assert (mn = 0) by lia. subst mn.
    rewrite repeat_match_unbounded_eq, class_body_eq, Hx. cbn. apply Hk. exact Hx.
  - destruct fuel as [| fuel]; [simpl in Hfuel; lia |].
    inversion Hall as [| ? ? Hc Htl]; subst.
    rewrite repeat_match_unbounded_eq, class_body_eq, Hx, Hc. cbn [c_pos].
    replace (S (c_pos x) =? c_pos x) with false
      by (symmetry; apply Nat.eqb_neq; lia).
    rewrite andb_false_r.
    destruct (IH (mkCursor (S (c_pos x)) (Some c) tl) fuel (Nat.pred mn)) as [res Hres];
      [reflexivity | exact Htl | simpl in Hmn; lia | simpl in Hfuel; lia |].
    rewrite Hres.
    exists res. destruct (mn =? 0); reflexivity.
Qed.

(** A repetition of a class followed by the end of the subject matches
    only when every character left is in the class. *)
Lemma repeat_class_sound :
  forall fuel mn x cs res,
    repeat_match (rmatch ignoreCase (CharSet false rs)) at_end fuel mn None x cs = Some res ->
    Forall (fun c => set_member ignoreCase rs c = true) (c_rest x) /\ mn <= length (c_rest x).
Proof.
  induction fuel as [| fuel IH]; intros mn x cs res H; [discriminate |].
  rewrite repeat_match_unbounded_eq, class_body_eq in H.
  destruct (c_rest x) as [| c tl] eqn:Hx.
  - destruct (Nat.eqb_spec mn 0) as [-> | Hne]; [| discriminate].
    split; [constructor | simpl; lia].
  - destruct (set_member ignoreCase rs c) eqn:Hc.
    + cbn [c_pos] in H.
      replace (S (c_pos x) =? c_pos x) with false in H
        by (symmetry; apply Nat.eqb_neq; lia).
      rewrite andb_false_r in H.
      destruct (repeat_match (rmatch ignoreCase (CharSet false rs)) at_end fuel
                  (Nat.pred mn) None (mkCursor (S (c_pos x)) (Some c) tl) cs)
        as [res' |] eqn:Hr.
      * apply IH in Hr. cbn [c_rest] in Hr. destruct Hr as [Hall Hmn].
        split; [constructor; assumption | simpl; lia].
      * destruct (mn =? 0); [| discriminate].
        unfold at_end in H. rewrite Hx in H. discriminate.
    + destruct (mn =? 0); [| discriminate].
      unfold at_end in H. rewrite Hx in H. discriminate.
Qed.

Lemma rmatch_repeat_eq (r : regex) (mn : nat) (mx : option nat) (k : cont)
  (x : cursor) (cs : captures) :
  rmatch ignoreCase (Repeat r mn mx) k x cs =
  repeat_match (rmatch ignoreCase r) k (S (mn + length (c_rest x))) mn mx x cs.
Proof. reflexivity. Qed.

(** [/^[rs]{mn,}$/.test(s)] *)
Lemma test_class_repeat (mn : nat) (s : jsstring) :
  test_anchored ignoreCase (Repeat (CharSet false rs) mn None) s = true <->
  Forall (fun c => set_member ignoreCase rs c = true) s /\ mn <= length s.
Proof.
  unfold test_anchored. rewrite rmatch_repeat_eq.
  change (c_rest (cursor_at s 0)) with s. split.
  - destruct (repeat_match _ _ _ _ _ _ _) as [res |] eqn:E; [| discriminate].
    intros _. apply repeat_class_sound in E. exact E.
  - intros [Hall Hmn].
    destruct (@repeat_class_greedy at_end []) with (l := s) (x := cursor_at s 0)
      (fuel := S (mn + length s)) (mn := mn) as [res Hres];
      [| reflexivity | exact Hall | exact Hmn | lia | now rewrite Hres].
    intros y Hy. unfold at_end. rewrite Hy. eauto.
Qed.

End ClassRepeat.

Lemma word_class_member (c : N) :
  set_member false [(97, 122); (65, 90); (48, 57); (95, 95)]%N c = is_word c.
Proof.
  unfold set_member, in_ranges, is_word, is_alnum, is_upper, is_lower, is_digit.
  cbn [existsb fst snd andb]. rewrite !orb_false_r.
  destruct (N.eqb_spec c 95) as [-> | Hne]; [reflexivity |].
  replace ((95 <=? c)%N && (c <=? 95)%N) with false.
  - rewrite !orb_false_r.
    destruct ((97 <=? c)%N && (c <=? 122)%N), ((65 <=? c)%N && (c <=? 90)%N);
      reflexivity.
  - symmetry. apply andb_false_iff.
    destruct (N.leb_spec 95 c); [right; apply N.leb_gt; lia | left; reflexivity].
Qed.

Lemma starts_with_app (p s : jsstring) : starts_with p (p ++ s) = true.
Proof. induction p as [| x p IH]; simpl; [reflexivity |]. now rewrite N.eqb_refl. Qed.

(** X11: [isValidProxyToken(token, prefix)] holds exactly when the token
    starts with the prefix, is longer than it, and consists of letters,
    digits and underscores only.  Hence a token that [generateProxyToken]
    built with a prefix is valid for that prefix exactly when the prefix
    consists of such characters and the first sixteen characters of the
    digest hold a letter or a digit; with the default prefix the second
    condition alone decides. *)
Theorem isValidProxyToken_iff {crypto : NodeCrypto} (token prefix originalToken salt : jsstring) :
  (isValidProxyToken token prefix = true <->
   starts_with prefix token = true /\ length prefix < length token /\ word_string token) /\
  (isValidProxyToken (generateProxyToken originalToken salt prefix) prefix = true <->
   word_string prefix /\ shortHash (hashWithSalt originalToken salt) <> []) /\
  (isValidProxyToken (generateProxyToken originalToken salt anon_prefix) anon_prefix = true <->
   exists c, In c (substring (hashWithSalt originalToken salt) 0 16) /\ is_alnum c = true).
Proof.
  assert (Hiff : forall t p,
    isValidProxyToken t p = true <->
    starts_with p t = true /\ length p < length t /\ word_string t).
  { intros t p. unfold isValidProxyToken, proxy_chars_pattern, word_string.
    rewrite !andb_true_iff, Nat.ltb_lt, test_class_repeat.
    assert (Hw : Forall (fun c => set_member false [(97, 122); (65, 90); (48, 57); (95, 95)]%N c
                                  = true) t <->
                 Forall (fun c => is_word c = true) t).
    { split; apply Forall_impl; intros c; rewrite word_class_member; auto. }
    rewrite Hw. split.
    - tauto.
    - intros (H1 & H2 & H3). repeat split; auto. lia. }
  assert (Hgen : forall p,
    isValidProxyToken (generateProxyToken originalToken salt p) p = true <->
    word_string p /\ shortHash (hashWithSalt originalToken salt) <> []).
  { intros p. rewrite Hiff. unfold generateProxyToken, word_string.
    rewrite starts_with_app, length_app, Forall_app.
    assert (Hs : Forall (fun c => is_word c = true)
                   (shortHash (hashWithSalt originalToken salt))).
    { unfold shortHash. apply Forall_forall. intros c Hc. apply filter_In in Hc.
      unfold is_word. destruct Hc as [_ ->]. reflexivity. }
    destruct (shortHash (hashWithSalt originalToken salt)) as [| h sh].
    - simpl. split; [intros (_ & H & _); lia | intros [_ H]; congruence].
    - simpl. split; [intros (_ & _ & H & _); split; [exact H | discriminate] |].
      intros [H _]. repeat split; auto. lia. }
  split; [apply Hiff |]. split; [apply Hgen |].
  rewrite Hgen. unfold shortHash. split.
  - intros [_ Hne].
    destruct (filter is_alnum (substring (hashWithSalt originalToken salt) 0 16))
      as [| c l] eqn:E; [congruence |].
    exists c. apply filter_In. rewrite E. left. reflexivity.
  - intros [c Hc]. split.
    + unfold word_string, anon_prefix. repeat constructor.
    + apply filter_In in Hc. intros E. rewrite E in Hc. exact Hc.
Qed.

(* ------------------------------------------------------------------------ *)
(** ** The classification of the embeddings strategy *)

Lemma c_rest_advance (n : nat) :
  forall x, n <= length (c_rest x) -> c_rest (advance x n) = skipn n (c_rest x).
Proof.
  induction n as [| n IH]; intros x H; [reflexivity |].
  cbn [advance]. destruct (c_rest x) as [| c tl] eqn:E; [simpl in H; lia |].
  rewrite IH; [reflexivity | simpl in *; lia].
Qed.

(** [{n}] over a class, when the next [n] code units are in the class. *)
Lemma repeat_class_exact (ic : bool) (rs : list (N * N)) (k : cont) (cs : captures) (n : nat) :
  forall fuel x,
    n < fuel ->
    n <= length (c_rest x) ->
    Forall (fun c => set_member ic rs c = true) (firstn n (c_rest x)) ->
    repeat_match (rmatch ic (CharSet false rs)) k fuel n (Some n) x cs = k (advance x n) cs.
Proof.
  induction n as [| n IH]; intros fuel x Hfuel Hlen Hall.
  - destruct fuel; [lia | reflexivity].
  - destruct fuel as [| fuel]; [lia |].
    cbn [repeat_match Nat.eqb andb option_map Nat.pred].
    rewrite class_body_eq. cbn [advance].
    destruct (c_rest x) as [| c tl] eqn:E; [simpl in Hlen; lia |].
    cbn [firstn] in Hall. inversion Hall as [| ? ? Hc Htl]; subst.
    rewrite Hc. apply IH; [lia | simpl in *; lia | exact Htl].
Qed.

Ltac cmp_step :=
  match goal with
  | |- context [(?a <=? ?b)%N] =>
      lazymatch a with
      | context [if _ then _ else _] => fail
      | _ => lazymatch b with
             | context [if _ then _ else _] => fail
             | _ => destruct (N.leb_spec a b); try (exfalso; lia)
             end
      end
  end.

Ltac cmp_cases :=
  repeat (repeat cmp_step; cbn);
  intros; try reflexivity; try discriminate.

Lemma hex_in_base64_class (c : N) :
  set_member false Embeddings.hex_class c = true ->
  set_member false Embeddings.base64_class c = true.
Proof.
  unfold set_member, in_ranges, Embeddings.hex_class, Embeddings.base64_class, rng, one, ch.
  cbn. cmp_cases.
Qed.

Lemma hex_in_uuid_class (c : N) :
  set_member false Embeddings.hex_class c = true ->
  set_member true [rng "0" "9"; rng "a" "f"] c = true.
Proof.
  unfold set_member, in_ranges, swap_case, is_upper, is_lower, Embeddings.hex_class, rng, ch.
  cbn. cmp_cases.
Qed.

Lemma hex_not_hyphen (c : N) :
  set_member false Embeddings.hex_class c = true ->
  set_member true [(ch "-", ch "-")] c = false.
Proof.
  unfold set_member, in_ranges, swap_case, is_upper, is_lower, Embeddings.hex_class, rng, ch.
  cbn. cmp_cases.
Qed.

Lemma hex_test_iff (token : jsstring) :
  test_anchored false Embeddings.hex_pattern token = true <->
  hex_string token /\ 32 <= length token.
Proof. apply test_class_repeat. Qed.

Lemma hex_is_base64 (token : jsstring) :
  hex_string token -> 20 <= length token ->
  test_anchored false Embeddings.base64_pattern token = true.
Proof.
  intros Hall Hlen. unfold test_anchored, Embeddings.base64_pattern, at_least, between.
  change (rmatch false (Seq ?a ?b) ?k ?x ?cs)
    with (rmatch false a (fun y cs' => rmatch false b k y cs') x cs).
  rewrite rmatch_repeat_eq.
  destruct (@repeat_class_greedy false Embeddings.base64_class
              (fun y cs' => rmatch false (Repeat (chr "=") 0 (Some 2)) at_end y cs') [])
    with (l := token) (x := cursor_at token 0)
         (fuel := S (20 + length (c_rest (cursor_at token 0)))) (mn := 20)
    as [res Hres].
  - intros [p pr rest] Hy. simpl in Hy. subst rest. eexists. reflexivity.
  - reflexivity.
  - revert Hall. apply Forall_impl. apply hex_in_base64_class.
  - exact Hlen.
  - simpl. lia.
  - rewrite Hres. reflexivity.
Qed.

Lemma hex_is_not_uuid (token : jsstring) :
  hex_string token -> 9 <= length token ->
  test_anchored true Embeddings.uuid_pattern token = false.
Proof.
  intros Hall Hlen. unfold test_anchored, Embeddings.uuid_pattern, exactly.
  cbn [seq_of].
  change (rmatch true (Seq ?a ?b) ?k ?x ?cs)
    with (rmatch true a (fun y cs' => rmatch true b k y cs') x cs).
  unfold Embeddings.hex_digit_i at 1. rewrite rmatch_repeat_eq.
  change (c_rest (cursor_at token 0)) with token.
  rewrite repeat_class_exact.
  - change (rmatch true (Seq ?a ?b) ?k ?x ?cs)
      with (rmatch true a (fun y cs' => rmatch true b k y cs') x cs).
    unfold chr at 1. rewrite class_body_eq.
    rewrite c_rest_advance by (simpl; lia).
    change (c_rest (cursor_at token 0)) with token.
    destruct (skipn 8 token) as [| c tl] eqn:E; [reflexivity |].
    assert (Hc : In c token).
    { rewrite <- (firstn_skipn 8 token), E. apply in_app_iff. right. left. reflexivity. }
    unfold hex_string in Hall. rewrite Forall_forall in Hall.
    rewrite (hex_not_hyphen _ (Hall c Hc)). reflexivity.
  - lia.
  - simpl. lia.
  - change (c_rest (cursor_at token 0)) with token.
    apply Forall_forall. intros c Hc. apply hex_in_uuid_class.
    unfold hex_string in Hall. rewrite Forall_forall in Hall. apply Hall.
    rewrite <- (firstn_skipn 8 token). apply in_app_iff. left. exact Hc.
Qed.

(** X12: [classifyTokenType] never answers 'hex', nor 'unknown': a string
    of 32 or more hexadecimal digits passes the earlier Base64 test and is
    answered 'base64'. *)
Theorem classifyTokenType_never_hex (token : jsstring) :
  Embeddings.classifyTokenType token <> Embeddings.hex /\
  Embeddings.classifyTokenType token <> Embeddings.unknown /\
  (hex_string token -> 32 <= length token ->
   Embeddings.classifyTokenType token = Embeddings.base64).
Proof.
  assert (Hb64 : hex_string token /\ 32 <= length token ->
                 test_anchored false Embeddings.base64_pattern token = true).
  { intros [Hall Hlen]. apply hex_is_base64; [exact Hall | lia]. }
  assert (Huuid : hex_string token /\ 32 <= length token ->
                  test_anchored true Embeddings.uuid_pattern token = false).
  { intros [Hall Hlen]. apply hex_is_not_uuid; [exact Hall | lia]. }
  pose proof (proj1 (hex_test_iff token)) as Hhex.
  unfold Embeddings.classifyTokenType.
  destruct (test_anchored true Embeddings.uuid_pattern token).
  { split; [discriminate |]. split; [discriminate |].
    intros Hall Hlen. discriminate (Huuid (conj Hall Hlen)). }
  destruct (test_anchored false Embeddings.base64_pattern token).
  { split; [discriminate |]. split; [discriminate |]. reflexivity. }
  destruct (test_anchored false Embeddings.hex_pattern token).
  { discriminate (Hb64 (Hhex eq_refl)). }
  split; [| split].
  - destruct (test_anchored false Embeddings.email_pattern token); [discriminate |].
    destruct (test_anchored false Embeddings.phone_pattern token); [discriminate |].
    destruct (test_anchored false Embeddings.apikey_pattern token); discriminate.
  - destruct (test_anchored false Embeddings.email_pattern token); [discriminate |].
    destruct (test_anchored false Embeddings.phone_pattern token); [discriminate |].
    destruct (test_anchored false Embeddings.apikey_pattern token); discriminate.
  - intros Hall Hlen. discriminate (Hb64 (conj Hall Hlen)).
Qed.

(* ------------------------------------------------------------------------ *)
(** ** The engine over a memory store: ids, deletion, texts without proxies *)

Lemma with_storage_same {S : Type} (e : AnonEngine.t S) : with_storage e (storage e) = e.
Proof. destruct e; reflexivity. Qed.

Lemma replace_from_missing (p r w : jsstring) :
  forall s i, includes s p = false -> replace_from p r w 0 i s = s.
Proof.
  induction s as [| h s IH]; intros i H.
  - destruct p; [discriminate H | reflexivity].
  - cbn [includes] in H. apply orb_false_iff in H. destruct H as [H1 H2].
    cbn [replace_from]. rewrite H1. f_equal. apply IH. exact H2.
Qed.

Lemma restore_tokens_missing (entries : JsMap.t jsstring) (output : jsstring) :
  (forall p v, In (p, v) entries -> includes output p = false) ->
  restore_tokens output entries = output.
Proof.
  unfold restore_tokens. induction entries as [| [p v] entries IH]; intros H;
    [reflexivity |].
  cbn [fold_left fst snd]. unfold replace_all at 2.
  rewrite replace_from_missing by (apply (H p v); left; reflexivity).
  apply IH. intros p' v' Hin. apply (H p' v'). right. exact Hin.
Qed.

Lemma restore_outcome {crypto : NodeCrypto} (c : AnonProxyConfig.t) (output mapId : jsstring)
  (sig : option jsstring) (d : MappingData.t) :
  is_validation_error (restore c output mapId sig d) = false.
Proof.
  unfold restore, validate_signature.
  destruct (AnonProxyConfig.enableSignatures c);
    [| destruct (_ =? _); reflexivity].
  destruct sig as [s |]; [| reflexivity].
  destruct (negb (truthy s)); [reflexivity |].
  destruct (MappingData.signature d) as [stored |]; [| reflexivity].
  destruct (negb (truthy stored)); [reflexivity |].
  destruct (negb (constantTimeCompare s stored)); [reflexivity |].
  destruct (AnonProxyConfig.signatureSecret c) as [secret |]; [| reflexivity].
  destruct (negb (verifyHmac _ _ _)); [reflexivity |].
  destruct (_ =? _); reflexivity.
Qed.

(** X13: [deanonymize] looks the id up before it looks at the signature.
    For a non-empty output and id: an id that is not stored gives the
    ValidationError for a missing mapping and leaves the engine as it is;
    an id whose entry has outlived a positive TTL gives the same error and
    the entry is removed; an id with a live entry gives whatever the
    signature check and the replacement give for that entry, which is never
    a ValidationError.  So the class of the error tells a caller without
    any signature whether an id is live. *)
Theorem deanonymize_by_state_of_id {crypto : NodeCrypto}
  (e : AnonEngine.t MemoryStorage.t) (output mapId : jsstring) (sig : option jsstring)
  (now : Z) :
  truthy output = true ->
  truthy mapId = true ->
  table_ok (MemoryStorage.mappings (storage e)) ->
  match JsMap.get (MemoryStorage.mappings (storage e)) mapId with
  | None =>
      deanonymize e output mapId sig now
        = (Throw (ValidationError "Mapping not found for ID"), e)
  | Some d =>
      if (0 <? MemoryStorage.ttlMs (storage e))%Z
         && (MemoryStorage.ttlMs (storage e) <? now - MappingData.createdAt d)%Z
      then
        fst (deanonymize e output mapId sig now)
          = Throw (ValidationError "Mapping not found for ID") /\
        JsMap.get (MemoryStorage.mappings (storage (snd (deanonymize e output mapId sig now))))
          mapId = None
      else
        deanonymize e output mapId sig now = (restore (config e) output mapId sig d, e) /\
        is_validation_error (restore (config e) output mapId sig d) = false
  end.
Proof.
  intros Hout Hid [Hnd _]. unfold deanonymize. rewrite Hout, Hid. cbn [negb].
  cbn [retrieve MemoryStorage.storage_interface]. unfold MemoryStorage.retrieve.
  rewrite Hid. cbn [negb].
  destruct (JsMap.get (MemoryStorage.mappings (storage e)) mapId) as [d |].
  - destruct (_ && _).
    + cbn [fst snd storage with_storage MemoryStorage.mappings MemoryStorage.with_mappings].
      split; [reflexivity |]. apply get_delete_same. exact Hnd.
    + rewrite with_storage_same. split; [reflexivity | apply restore_outcome].
  - rewrite with_storage_same. reflexivity.
Qed.

(** X13 for an id that is not stored. *)
Lemma deanonymize_by_state_of_id_witness :
  @deanonymize toy_crypto _ _ (engine_over (MemoryStorage.mappings full_store))
    (lit "text") (lit "zz") None 5
  = (Throw (ValidationError "Mapping not found for ID"),
     engine_over (MemoryStorage.mappings full_store)).
Proof.
  exact (@deanonymize_by_state_of_id toy_crypto
           (engine_over (MemoryStorage.mappings full_store))
           (lit "text") (lit "zz") None 5%Z eq_refl eq_refl full_store_ok).
Defined.

(** X14: [deleteMapping] of the empty id throws a ValidationError and
    changes nothing; of a non-empty id it succeeds whether or not the id is
    stored, and afterwards [deanonymize] under that id fails with the
    ValidationError for a missing mapping, for every output, signature and
    time. *)
Theorem deleteMapping_revokes {crypto : NodeCrypto}
  (e : AnonEngine.t MemoryStorage.t) (mapId : jsstring) :
  table_ok (MemoryStorage.mappings (storage e)) ->
  truthy mapId = true ->
  deleteMapping e [] = (Throw (ValidationError "Map ID must be a non-empty string"), e) /\
  fst (deleteMapping e mapId) = Ok tt /\
  forall output sig now,
    is_validation_error
      (fst (deanonymize (snd (deleteMapping e mapId)) output mapId sig now)) = true /\
    (truthy output = true ->
     fst (deanonymize (snd (deleteMapping e mapId)) output mapId sig now)
       = Throw (ValidationError "Mapping not found for ID")).
Proof.
  intros [Hnd _] Hid. split; [reflexivity |].
  unfold deleteMapping. rewrite Hid. cbn [negb].
  cbn [delete MemoryStorage.storage_interface]. unfold MemoryStorage.delete.
  rewrite Hid. cbn [negb fst snd]. split; [reflexivity |].
  intros output sig now.
  unfold deanonymize. rewrite Hid. cbn [negb].
  cbn [retrieve MemoryStorage.storage_interface storage with_storage].
  unfold MemoryStorage.retrieve. rewrite Hid. cbn [negb].
  cbn [MemoryStorage.mappings MemoryStorage.with_mappings].
  rewrite get_delete_same by exact Hnd.
  destruct (truthy output); cbn [negb fst]; split; try reflexivity. discriminate.
Qed.

(** X14 for an id that was stored. *)
Lemma deleteMapping_revokes_witness :
  fst (@deanonymize toy_crypto _ _
         (snd (@deleteMapping _ _ (engine_over (MemoryStorage.mappings full_store)) (lit "a")))
         (lit "text") (lit "a") None 5)
  = Throw (ValidationError "Mapping not found for ID").
Proof.
  destruct (@deleteMapping_revokes toy_crypto
              (engine_over (MemoryStorage.mappings full_store)) (lit "a")
              full_store_ok eq_refl) as (_ & _ & H).
  destruct (H (lit "text") None 5%Z) as [_ H2]. apply H2. reflexivity.
Defined.

(** X15: with signatures off, [deanonymize] of an output in which none of
    the stored proxy tokens occurs returns the output as it is and leaves
    the engine as it is. *)
Theorem deanonymize_without_proxies {crypto : NodeCrypto}
  (e : AnonEngine.t MemoryStorage.t) (output mapId : jsstring) (sig : option jsstring)
  (d : MappingData.t) (now : Z) :
  AnonProxyConfig.enableSignatures (config e) = false ->
  truthy output = true ->
  truthy mapId = true ->
  JsMap.get (MemoryStorage.mappings (storage e)) mapId = Some d ->
  fresh (storage e) d now ->
  (forall proxyToken originalToken,
     In (proxyToken, originalToken) (MappingData.mappings d) ->
     includes output proxyToken = false) ->
  deanonymize e output mapId sig now = (Ok output, e).
Proof.
  intros Hoff Hout Hid Hget Hfresh Hmiss.
  unfold deanonymize. rewrite Hout, Hid. cbn [negb].
  cbn [retrieve MemoryStorage.storage_interface]. unfold MemoryStorage.retrieve.
  rewrite Hid, Hget. cbn [negb].
  replace ((0 <? MemoryStorage.ttlMs (storage e))%Z
           && (MemoryStorage.ttlMs (storage e) <? now - MappingData.createdAt d)%Z)
    with false.
  - rewrite with_storage_same. f_equal.
    unfold restore. rewrite validate_signature_off by exact Hoff.
    rewrite restore_tokens_missing by exact Hmiss.
    destruct (_ =? _); reflexivity.
  - symmetry. unfold fresh in Hfresh. apply andb_false_iff.
    destruct Hfresh; [left; apply Z.ltb_ge | right; apply Z.ltb_ge]; assumption.
Qed.

(** X15 for an output that holds no proxy. *)
Lemma deanonymize_without_proxies_witness :
  @deanonymize toy_crypto _ _ (engine_over (MemoryStorage.mappings full_store))
    (lit "nothing to restore") (lit "a") None 5
  = (Ok (lit "nothing to restore"), engine_over (MemoryStorage.mappings full_store)).
Proof.
  apply (@deanonymize_without_proxies toy_crypto
           (engine_over (MemoryStorage.mappings full_store))
           (lit "nothing to restore") (lit "a") None sample_data 5%Z
           eq_refl eq_refl eq_refl eq_refl).
  - left. simpl. lia.
  - intros p v [E | []]. inversion E; subst. reflexivity.
Defined.

(** X16: the one-shot [deanonymize] of index.ts builds a new engine for
    the call; with the memory backend that engine's table is empty, so the
    call never returns a text: whatever the output, id, signature and
    configuration, it throws. *)
Theorem one_shot_deanonymize_never_returns {crypto : NodeCrypto}
  (instanceSalt : jsstring) (semanticHash : jsstring -> jsstring)
  (output mapId : jsstring) (sig : option jsstring) (c : AnonProxyConfig.t) (now : Z) :
  AnonProxyConfig.storage c = MEMORY ->
  is_ok (Index.deanonymize instanceSalt semanticHash output mapId sig c now) = false /\
  (AnonProxyConfig.enableSignatures c = false ->
   truthy output = true -> truthy mapId = true ->
   Index.deanonymize instanceSalt semanticHash output mapId sig c now
     = Throw (ValidationError "Mapping not found for ID")).
Proof.
  intros _. unfold Index.deanonymize, Index.createAnonEngine, construct, validateConfig.
  split.
  - destruct (_ && _); [reflexivity |].
    unfold deanonymize. cbn [config storage].
    destruct (truthy output); [| reflexivity].
    destruct (truthy mapId) eqn:Hid; [| reflexivity].
    cbn [negb retrieve MemoryStorage.storage_interface]. unfold MemoryStorage.retrieve.
    rewrite Hid. reflexivity.
  - intros Hoff Hout Hid. rewrite Hoff. cbn [andb].
    unfold deanonymize. rewrite Hout, Hid.
    cbn [negb retrieve MemoryStorage.storage_interface storage].
    unfold MemoryStorage.retrieve. rewrite Hid. reflexivity.
Qed.

(** X16 with the default configuration. *)
Lemma one_shot_deanonymize_witness :
  is_ok (@Index.deanonymize toy_crypto (lit "salt") (fun s => s)
           (lit "anon_x") (lit "0123") None default_config 0) = false.
Proof.
  exact (proj1 (@one_shot_deanonymize_never_returns toy_crypto (lit "salt") (fun s => s)
                  (lit "anon_x") (lit "0123") None default_config 0%Z eq_refl)).
Defined.

(** What a call of [anonymize] over a memory store can give. *)
Lemma anonymize_outcomes {crypto : NodeCrypto}
  (e : AnonEngine.t MemoryStorage.t) (prompt : jsstring) (src : nat -> N) (now : Z) :
  (exists res, anonymize e prompt src now = Some res) /\
  (truthy prompt = false ->
   anonymize e prompt src now
     = Some (Throw (ValidationError "Prompt must be a non-empty string"), e)) /\
  (forall r e',
     anonymize e prompt src now = Some (Ok r, e') ->
     truthy prompt = true /\
     MemoryStorage.ttlMs (storage e') = MemoryStorage.ttlMs (storage e) /\
     AnonymizationResult.mapId r = generateId src /\
     config e' = config e /\ strategy e' = strategy e /\
     exists d toks,
       detectTokens DEFAULT_DETECTION_CONFIG prompt = Some toks /\
       replace_tokens (strategy e) (config e) (sort_desc toks) [] prompt
         = Ok (MappingData.mappings d, AnonymizationResult.anonPrompt r) /\
       JsMap.get (MemoryStorage.mappings (storage e')) (generateId src) = Some d /\
       MappingData.id d = generateId src /\
       MappingData.createdAt d = now /\
       MappingData.strategy d = AnonProxyConfig.strategy (config e) /\
       (toks = [] -> MappingData.signature d = None) /\
       (toks <> [] ->
        MappingData.signature d = AnonymizationResult.signature r /\
        AnonymizationResult.signature r =
          if AnonProxyConfig.enableSignatures (config e)
          then option_map
                 (createHmac (signed_payload (generateId src) (MappingData.mappings d)))
                 (AnonProxyConfig.signatureSecret (config e))
          else None)).
Proof.
  destruct (@detectTokens_returns DEFAULT_DETECTION_CONFIG prompt eq_refl) as [toks Hdet].
  assert (Hstore : forall d,
            exists s', MemoryStorage.store (storage e) (generateId src) d now = (Ok tt, s') /\
                       MemoryStorage.ttlMs s' = MemoryStorage.ttlMs (storage e) /\
                       JsMap.get (MemoryStorage.mappings s') (generateId src)
                         = Some (MappingData.with_createdAt d now)).
  { intros d. destruct (@store_ok (storage e) (generateId src) d now (generateId_truthy src))
      as [H1 H2].
    assert (H3 : MemoryStorage.ttlMs (snd (MemoryStorage.store (storage e) (generateId src) d now))
                 = MemoryStorage.ttlMs (storage e)).
    { unfold MemoryStorage.store. rewrite generateId_truthy. reflexivity. }
    destruct (MemoryStorage.store (storage e) (generateId src) d now) as [r s'].
    simpl in H1, H2, H3. subst r. exists s'. auto. }
  unfold anonymize. rewrite Hdet.
  cbn [store MemoryStorage.storage_interface].
  destruct (truthy prompt) eqn:Hprompt; cbn [negb].
  2:{ split; [eauto |]. split; [reflexivity |]. intros r e' H. discriminate H. }
  destruct toks as [| tok toks].
  - destruct (Hstore (MappingData.make (generateId src) [] now None
                        (AnonProxyConfig.strategy (config e)))) as (s' & Hs & Httl & Hget).
    rewrite Hs.
    split; [| split; [discriminate |]].
    + destruct (AnonProxyConfig.enableSignatures (config e)); [| eauto].
      destruct (sign _ _); eauto.
    + intros r e' H.
      assert (Hr : e' = with_storage e s' /\ AnonymizationResult.mapId r = generateId src /\
                   AnonymizationResult.anonPrompt r = prompt).
      { destruct (AnonProxyConfig.enableSignatures (config e)).
        - destruct (sign _ _); inversion H; subst; auto.
        - inversion H; subst; auto. }
      destruct Hr as (-> & Hm & Hp). rewrite Hp.
      split; [reflexivity |]. split; [exact Httl |].
      split; [exact Hm |]. split; [reflexivity |]. split; [reflexivity |].
      eexists _, []. split; [reflexivity |]. split; [| split; [exact Hget |]].
      * reflexivity.
      * cbn [MappingData.id MappingData.createdAt MappingData.strategy MappingData.signature
             MappingData.with_createdAt].
        split; [reflexivity |]. split; [reflexivity |]. split; [reflexivity |].
        split; [reflexivity |]. intros Hne. exfalso. apply Hne. reflexivity.
  - destruct (replace_tokens (strategy e) (config e) (sort_desc (tok :: toks)) [] prompt)
      as [[mappings anonymizedPrompt] | err] eqn:Hrep.
    2:{ split; [eauto |]. split; [discriminate |]. intros r e' H. discriminate H. }
    set (unsigned := MappingData.make (generateId src) mappings now None
                       (AnonProxyConfig.strategy (config e))).
    assert (Hsigned : forall mappingData,
              (if AnonProxyConfig.enableSignatures (config e)
               then match sign (signed_payload (generateId src) mappings)
                            (AnonProxyConfig.signatureSecret (config e)) with
                    | Throw err => Throw err
                    | Ok sig => Ok (MappingData.with_signature unsigned (Some sig))
                    end
               else Ok unsigned) = Ok mappingData ->
              MappingData.with_createdAt mappingData now
                = MappingData.make (generateId src) mappings now
                    (MappingData.signature mappingData)
                    (AnonProxyConfig.strategy (config e)) /\
              MappingData.signature mappingData =
                if AnonProxyConfig.enableSignatures (config e)
                then option_map (createHmac (signed_payload (generateId src) mappings))
                       (AnonProxyConfig.signatureSecret (config e))
                else None).
    { intros md H. destruct (AnonProxyConfig.enableSignatures (config e)).
      - destruct (AnonProxyConfig.signatureSecret (config e)) as [secret |];
          cbn [sign] in H; inversion H; subst; split; reflexivity.
      - inversion H; subst; split; reflexivity. }
    destruct (if AnonProxyConfig.enableSignatures (config e) then _ else _)
      as [mappingData | err] eqn:Hsig.
    2:{ split; [eauto |]. split; [discriminate |]. intros r e' H. discriminate H. }
    destruct (Hstore mappingData) as (s' & Hs & Httl & Hget). rewrite Hs.
    split; [eauto |]. split; [discriminate |].
    intros r e' H. inversion H; subst; clear H.
    cbn [AnonymizationResult.mapId AnonymizationResult.anonPrompt config strategy
         with_storage storage].
    split; [reflexivity |]. split; [exact Httl |].
    split; [reflexivity |]. split; [reflexivity |]. split; [reflexivity |].
    destruct (Hsigned _ eq_refl) as [Hstored Hsigr].
    rewrite Hstored in Hget.
    eexists _, (tok :: toks). split; [reflexivity |].
    split; [| split; [exact Hget |]].
    + exact Hrep.
    + cbn [MappingData.id MappingData.createdAt MappingData.strategy MappingData.signature
           MappingData.mappings AnonymizationResult.signature].
      split; [reflexivity |]. split; [reflexivity |]. split; [reflexivity |].
      split; [discriminate |]. intros _. split; [reflexivity | exact Hsigr].
Qed.

(** X17: [anonymize] over a memory store always returns.  An empty prompt
    gives a ValidationError and leaves the engine as it is.  When it
    succeeds, the id it returns is the new random id, and the store holds
    under that id a mapping with that id, stamped with the clock reading,
    whose entries and the returned prompt are what the replacement loop
    leaves for the detected tokens, last token first; configuration and
    strategy of the engine are unchanged.  When tokens were found, the
    stored mapping carries the signature that is returned, the HMAC of
    [id:JSON(entries)] if signatures are on; when none were found, the
    stored mapping carries no signature. *)
Theorem anonymize_returns_and_stores {crypto : NodeCrypto}
  (e : AnonEngine.t MemoryStorage.t) (prompt : jsstring) (src : nat -> N) (now : Z) :
  (exists res, anonymize e prompt src now = Some res) /\
  (truthy prompt = false ->
   anonymize e prompt src now
     = Some (Throw (ValidationError "Prompt must be a non-empty string"), e)) /\
  (forall r e',
     anonymize e prompt src now = Some (Ok r, e') ->
     AnonymizationResult.mapId r = generateId src /\
     config e' = config e /\ strategy e' = strategy e /\
     exists d toks,
       detectTokens DEFAULT_DETECTION_CONFIG prompt = Some toks /\
       replace_tokens (strategy e) (config e) (sort_desc toks) [] prompt
         = Ok (MappingData.mappings d, AnonymizationResult.anonPrompt r) /\
       JsMap.get (MemoryStorage.mappings (storage e')) (generateId src) = Some d /\
       MappingData.id d = generateId src /\
       MappingData.createdAt d = now /\
       MappingData.strategy d = AnonProxyConfig.strategy (config e) /\
       (toks = [] -> MappingData.signature d = None) /\
       (toks <> [] ->
        MappingData.signature d = AnonymizationResult.signature r /\
        AnonymizationResult.signature r =
          if AnonProxyConfig.enableSignatures (config e)
          then option_map
                 (createHmac (signed_payload (generateId src) (MappingData.mappings d)))
                 (AnonProxyConfig.signatureSecret (config e))
          else None)).
Proof.
  destruct (@anonymize_outcomes crypto e prompt src now) as (H1 & H2 & H3).
  split; [exact H1 |]. split; [exact H2 |].
  intros r e' H. destruct (H3 r e' H) as (_ & _ & Hm & Hc & Hs & Hd).
  split; [exact Hm |]. split; [exact Hc |]. split; [exact Hs | exact Hd].
Qed.

(* ------------------------------------------------------------------------ *)
(** ** Captures stay inside the match, tokens inside the text *)

Lemma caps_within_mono (lo hi hi' : nat) (cs : captures) :
  hi <= hi' -> caps_within lo hi cs -> caps_within lo hi' cs.
Proof.
  intros Hle. unfold caps_within. apply Forall_impl. intros c H. lia.
Qed.

Lemma repeat_match_caps (s : jsstring) (lo : nat) (body : cont -> cont) :
  keeps_caps s lo body ->
  forall (fuel mn : nat) (mx : option nat),
    keeps_caps s lo (fun k => repeat_match body k fuel mn mx).
Proof.
  intros Hbody fuel. unfold keeps_caps.
  induction fuel as [| fuel IHf]; intros mn mx k x cs res Hx Hlo Hcs H; simpl in H;
    [discriminate |].
  assert (Hturn : forall (c : bool) (r : cursor * captures),
    body (fun y cs' =>
            if c && (c_pos y =? c_pos x) then None
            else repeat_match body k fuel (Nat.pred mn) (option_map Nat.pred mx) y cs')
         x cs = Some r ->
    exists y cs',
      cursor_ok s y /\ c_pos x <= c_pos y /\ caps_within lo (c_pos y) cs' /\
      k y cs' = Some r).
  { intros c r Hm. apply Hbody in Hm; [| exact Hx | exact Hlo | exact Hcs].
    destruct Hm as (y & cs1 & Hy & Hle & Hc1 & Hm).
    destruct (c && (c_pos y =? c_pos x)); [discriminate |].
    apply IHf in Hm; [| exact Hy | lia | exact Hc1].
    destruct Hm as (z & cs2 & Hz & Hle2 & Hc2 & Hm).
    exists z, cs2. split; [exact Hz | split; [lia | split; [exact Hc2 | exact Hm]]]. }
  assert (Hstay : forall r, k x cs = Some r ->
    exists y cs',
      cursor_ok s y /\ c_pos x <= c_pos y /\ caps_within lo (c_pos y) cs' /\
      k y cs' = Some r).
  { intros r Hk. exists x, cs. auto. }
  destruct mx as [[| m] |].
  - exact (Hstay _ H).
  - destruct (mn =? 0).
    + match type of H with
      | match ?t with _ => _ end = _ => destruct t as [p |] eqn:E
      end.
      * inversion H; subst. exact (Hturn true _ E).
      * exact (Hstay _ H).
    + exact (Hturn false _ H).
  - destruct (mn =? 0).
    + match type of H with
      | match ?t with _ => _ end = _ => destruct t as [p |] eqn:E
      end.
      * inversion H; subst. exact (Hturn true _ E).
      * exact (Hstay _ H).
    + exact (Hturn false _ H).
Qed.

Lemma rmatch_caps (ic : bool) (s : jsstring) (lo : nat) (r : regex) :
  keeps_caps s lo (rmatch ic r).
Proof.
  unfold keeps_caps.
  induction r as [| neg rs | r1 IH1 r2 IH2 | r1 IH1 r2 IH2 | r1 IH1 mn mx | i r1 IH1 | | r1 IH1];
    intros k x cs res Hx Hlo Hcs H; cbn [rmatch] in H.
  - exists x, cs. auto.
  - destruct (c_rest x) as [| c tl] eqn:E; [discriminate |].
    destruct (xorb neg (set_member ic rs c)); [| discriminate].
    destruct Hx as [Hr Hl]. rewrite Hr in E.
    apply skipn_cons_inv in E. destruct E as [E1 E2].
    eexists _, cs. split; [| split; [| split; [| exact H]]]; simpl.
    + split; simpl; auto.
    + lia.
    + eapply caps_within_mono; [| exact Hcs]. lia.
  - apply IH1 in H; [| exact Hx | exact Hlo | exact Hcs].
    destruct H as (y & cs1 & Hy & Hle & Hc1 & H).
    apply IH2 in H; [| exact Hy | lia | exact Hc1].
    destruct H as (z & cs2 & Hz & Hle2 & Hc2 & H).
    exists z, cs2. split; [exact Hz | split; [lia | split; [exact Hc2 | exact H]]].
  - destruct (rmatch ic r1 k x cs) eqn:E.
    + inversion H; subst. apply IH1 in E; auto.
    + apply IH2 in H; auto.
  - exact (@repeat_match_caps s lo (rmatch ic r1) IH1 _ mn mx k x cs res Hx Hlo Hcs H).
  - apply IH1 in H; [| exact Hx | exact Hlo | exact Hcs].
    destruct H as (y & cs1 & Hy & Hle & Hc1 & H).
    eexists y, _. split; [exact Hy | split; [exact Hle | split; [| exact H]]].
    constructor; [simpl; lia | exact Hc1].
  - destruct (at_word_boundary x); [| discriminate].
    exists x, cs. auto.
  - destruct (rmatch ic r1 _ x cs); [discriminate |].
    exists x, cs. auto.
Qed.

Lemma match_at_caps (re : RegExp) (s : jsstring) (i : nat) (m : exec_result) :
  i <= length s -> match_at re s i = Some m ->
  caps_within (m_index m) (m_end m) (m_groups m).
Proof.
  intros Hi H. unfold match_at in H.
  destruct (rmatch _ _ _ _ _) as [[y cs] |] eqn:E; [| discriminate].
  inversion H; subst; clear H. simpl.
  apply (@rmatch_caps (flag_i re) s i) in E;
    [| apply cursor_at_ok; exact Hi | simpl; lia | constructor].
  destruct E as (z & cs' & _ & _ & Hc & E). inversion E; subst. exact Hc.
Qed.

Lemma scan_caps (re : RegExp) (s : jsstring) :
  forall (n i : nat) (m : exec_result),
    i + n = length s -> scan n re s i = Some m ->
    caps_within (m_index m) (m_end m) (m_groups m).
Proof.
  induction n as [| n IH]; intros i m Hi H; simpl in H.
  - destruct (match_at re s i) eqn:E; [| discriminate].
    inversion H; subst. apply match_at_caps in E; [exact E | lia].
  - destruct (match_at re s i) eqn:E.
    + inversion H; subst. apply match_at_caps in E; [exact E | lia].
    + apply IH in H; [exact H | lia].
Qed.

Lemma exec_caps (re : RegExp) (s : jsstring) (lastIndex : nat) (m : exec_result) :
  exec re s lastIndex = Some m -> caps_within (m_index m) (m_end m) (m_groups m).
Proof.
  unfold exec. intros H.
  destruct (Nat.ltb_spec (length s) (if flag_g re then lastIndex else 0)) as [Hlt | Hle];
    [discriminate |].
  apply scan_caps in H; [exact H | lia].
Qed.

Lemma exec_loop_ok (re : RegExp) (s : jsstring) :
  forall (fuel lastIndex : nat) (ms : list exec_result),
    exec_loop fuel re s lastIndex = Some ms -> Forall (match_ok s) ms.
Proof.
  intros fuel li ms H. pose proof (exec_loop_spans _ _ _ _ H) as Hsp.
  revert li ms H Hsp.
  induction fuel as [| fuel IH]; intros li ms H Hsp; simpl in H.
  - destruct (exec re s li) as [m |] eqn:E.
    + destruct (negb (flag_g re) || (m_end m <=? m_index m)); discriminate.
    + inversion H; subst. constructor.
  - destruct (exec re s li) as [m |] eqn:E.
    + destruct (negb (flag_g re) || (m_end m <=? m_index m)) eqn:C; [discriminate |].
      destruct (exec_loop fuel re s (m_end m)) as [ms' |] eqn:E'; [| discriminate].
      inversion H; subst. inversion Hsp as [| ? ? Hm Hsp']; subst. constructor.
      * destruct Hm as [H1 H2]. split; [exact H1 |]. split; [exact H2 |].
        eapply exec_caps; eauto.
      * eapply IH; eauto.
    + inversion H; subst. constructor.
Qed.

Lemma group_span_within (lo hi i : nat) (cs : captures) (a b : nat) :
  caps_within lo hi cs -> group_span i cs = Some (a, b) -> lo <= a /\ a <= b /\ b <= hi.
Proof.
  unfold caps_within. induction 1 as [| [j sp] cs Hc _ IH]; simpl; [discriminate |].
  destruct (j =? i); [| exact IH].
  intros E. inversion E; subst. simpl in Hc. exact Hc.
Qed.

Lemma group_or_match_length (s : jsstring) (m : exec_result) :
  match_ok s m ->
  1 <= length (group_or_match s m) /\
  m_index m + length (group_or_match s m) <= m_end m.
Proof.
  intros (H1 & H2 & Hc).
  split; [apply group_or_match_nonempty; assumption |].
  unfold group_or_match.
  assert (Hm : m_index m + length (matched s m) <= m_end m).
  { unfold matched. rewrite substring_length; lia. }
  unfold group. destruct (group_span 1 (m_groups m)) as [[a b] |] eqn:G; [| exact Hm].
  destruct (truthy (substring s a b)); [| exact Hm].
  destruct (group_span_within _ Hc G) as (Ha & Hab & Hb).
  rewrite substring_length; lia.
Qed.

Lemma toLowerCase_length (s : jsstring) : length (toLowerCase s) = length s.
Proof. apply length_map. Qed.

Lemma named_token_in_text (cfg : TokenDetectionConfig) (text : jsstring)
  (p : PatternName) (m : exec_result) (t : DetectedToken) :
  let pt := if caseSensitive cfg then text else toLowerCase text in
  match_ok pt m ->
  named_token cfg text pt p m = Some t -> token_in_text cfg text t.
Proof.
  intros pt Hm H.
  assert (Hlen : length pt = length text).
  { unfold pt. destruct (caseSensitive cfg); [reflexivity | apply toLowerCase_length]. }
  destruct (group_or_match_length Hm) as [Hv1 Hv2].
  destruct Hm as (_ & Hend & _). rewrite Hlen in Hend.
  unfold named_token in H. revert H Hv1 Hv2.
  generalize (group_or_match pt m). intros v H Hv1 Hv2.
  destruct (Z.ltb_spec (Z.of_nat (length v)) (minLength cfg)) as [Hlt | Hge];
    [discriminate |].
  destruct (excluded cfg _); [discriminate |]. cbn [orb] in H.
  inversion H; subst t; clear H.
  unfold token_in_text. cbn [startIndex endIndex value confidence].
  assert (Hc : (0 <= calculateConfidence p v <= 100)%Z).
  { unfold calculateConfidence. lia. }
  destruct (caseSensitive cfg).
  - split; [lia |]. split; [lia |]. split; [lia |]. split; [exact Hge |].
    split; [discriminate | exact Hc].
  - rewrite substring_length by lia.
    split; [lia |]. split; [lia |]. split; [lia |]. split; [lia |].
    split; [reflexivity | exact Hc].
Qed.

Lemma custom_token_in_text (cfg : TokenDetectionConfig) (text : jsstring)
  (m : exec_result) (t : DetectedToken) :
  let pt := if caseSensitive cfg then text else toLowerCase text in
  match_ok pt m ->
  custom_token cfg text pt m = Some t -> token_in_text cfg text t.
Proof.
  intros pt Hm H.
  assert (Hlen : length pt = length text).
  { unfold pt. destruct (caseSensitive cfg); [reflexivity | apply toLowerCase_length]. }
  destruct Hm as (H1 & Hend & _).
  assert (Hv : length (matched pt m) = m_end m - m_index m).
  { unfold matched. rewrite substring_length; lia. }
  rewrite Hlen in Hend.
  unfold custom_token in H. revert H Hv.
  generalize (matched pt m). intros v H Hv.
  destruct (Z.leb_spec (minLength cfg) (Z.of_nat (length v))) as [Hge | Hlt];
    [| discriminate].
  inversion H; subst t; clear H.
  unfold token_in_text. cbn [startIndex endIndex value confidence].
  destruct (caseSensitive cfg).
  - split; [lia |]. split; [lia |]. split; [lia |]. split; [exact Hge |].
    split; [discriminate | lia].
  - rewrite substring_length by lia.
    split; [lia |]. split; [lia |]. split; [lia |]. split; [lia |].
    split; [reflexivity | lia].
Qed.

Lemma run_pattern_forall (P : DetectedToken -> Prop) (re : RegExp) (pt : jsstring)
  (body : exec_result -> option DetectedToken) (ts : list DetectedToken) :
  (forall m t, match_ok pt m -> body m = Some t -> P t) ->
  run_pattern re pt body = Some ts -> Forall P ts.
Proof.
  intros Hbody H. unfold run_pattern in H.
  destruct (exec_all re pt) as [ms |] eqn:E; [| discriminate].
  inversion H; subst. unfold exec_all in E.
  apply exec_loop_ok in E.
  eapply keep_some_forall; [| exact E]. exact Hbody.
Qed.

Lemma candidates_in_text (cfg : TokenDetectionConfig) (text : jsstring)
  (detected : list DetectedToken) :
  candidates cfg text = Some detected -> Forall (token_in_text cfg text) detected.
Proof.
  unfold candidates. intros H.
  eapply run_all_forall; [| exact H].
  apply Forall_app. split.
  - rewrite Forall_forall. intros r Hr l ->.
    apply in_map_iff in Hr. destruct Hr as (p & Hp & _).
    eapply run_pattern_forall; [| exact Hp].
    intros m t Hm. apply named_token_in_text. exact Hm.
  - destruct (customPatterns cfg) as [res |]; [| constructor].
    rewrite Forall_forall. intros r Hr l ->.
    apply in_map_iff in Hr. destruct Hr as (re & Hp & _).
    eapply run_pattern_forall; [| exact Hp].
    intros m t Hm. apply custom_token_in_text. exact Hm.
Qed.

Lemma detectTokens_in_text (cfg : TokenDetectionConfig) (text : jsstring)
  (out : list DetectedToken) :
  detectTokens cfg text = Some out -> Forall (token_in_text cfg text) out.
Proof.
  unfold detectTokens. intros H.
  destruct (candidates cfg text) as [detected |] eqn:E; [| discriminate].
  inversion H; subst; clear H.
  pose proof (candidates_in_text _ _ E) as Hall.
  rewrite Forall_forall in *. intros t Ht. apply Hall.
  eapply deduplicateTokens_incl; eauto.
Qed.

Lemma latin1_by (s : jsstring) : forallb (fun c => (c <? 256)%N) s = true -> latin1 s.
Proof.
  intros H. unfold latin1. apply Forall_forall. intros c Hc.
  rewrite forallb_forall in H. apply N.ltb_lt. apply H. exact Hc.
Qed.

(** X18: every token [detectTokens] returns lies inside the text:
    [startIndex < endIndex <= text.length], the value is as long as the
    span and not shorter than [minLength], and the confidence is between 0
    and 1; and when the detector is not case-sensitive, the value is the
    text of the span, character for character.  (With lower-casing the
    text is taken to be Latin-1.) *)
Theorem detected_tokens_in_text (cfg : TokenDetectionConfig) (text : jsstring)
  (out : list DetectedToken) (t : DetectedToken) :
  caseSensitive cfg = true \/ latin1 text ->
  detectTokens cfg text = Some out ->
  In t out ->
  startIndex t < endIndex t /\
  endIndex t <= length text /\
  length (value t) = endIndex t - startIndex t /\
  (minLength cfg <= Z.of_nat (length (value t)))%Z /\
  (caseSensitive cfg = false -> value t = substring text (startIndex t) (endIndex t)) /\
  (0 <= confidence t <= 100)%Z.
Proof.
  intros _ H Ht. pose proof (detectTokens_in_text _ _ H) as Hall.
  rewrite Forall_forall in Hall. exact (Hall t Ht).
Qed.

(** X18 on a text with one key: the value is the text of the span. *)
Lemma detected_tokens_in_text_witness :
  exists t,
    detectTokens DEFAULT_DETECTION_CONFIG late_key_text = Some [t] /\
    startIndex t = 4 /\
    value t = substring late_key_text (startIndex t) (endIndex t).
Proof.
  assert (Hd : exists t, detectTokens DEFAULT_DETECTION_CONFIG late_key_text = Some [t] /\
                         startIndex t = 4).
  { eexists. split; [vm_compute; reflexivity | reflexivity]. }
  destruct Hd as (t & Hd & Hs). exists t.
  split; [exact Hd |]. split; [exact Hs |].
  assert (Hl : latin1 late_key_text) by (apply latin1_by; reflexivity).
  destruct (@detected_tokens_in_text DEFAULT_DETECTION_CONFIG late_key_text [t] t
              (or_intror Hl) Hd (or_introl eq_refl)) as (_ & _ & _ & _ & Hv & _).
  apply Hv. reflexivity.
Defined.

(* ------------------------------------------------------------------------ *)
(** ** Replacement in a text made of literal pieces and proxies *)

Lemma starts_with_either (p q rest : jsstring) :
  starts_with p (q ++ rest) = true -> starts_with p q = true \/ starts_with q p = true.
Proof.
  revert q. induction p as [| x p IH]; intros q H; [left; reflexivity |].
  destruct q as [| y q]; [right; reflexivity |].
  simpl in H. apply andb_true_iff in H. destruct H as [Hxy H].
  destruct (IH q H) as [H1 | H1]; [left | right]; simpl; rewrite H1.
  - now rewrite Hxy.
  - apply N.eqb_eq in Hxy. subst. now rewrite N.eqb_refl.
Qed.

Section ReplacePieces.

Variables p r : jsstring.
Hypothesis p_nonempty : p <> [].
Hypothesis r_plain : plain r.

Lemma replace_from_skip_app (w a rest : jsstring) :
  forall i, replace_from p r w (length a) i (a ++ rest)
            = replace_from p r w 0 (i + length a) rest.
Proof.
  induction a as [| c a IH]; intros i; simpl.
  - now rewrite Nat.add_0_r.
  - rewrite IH. f_equal. lia.
Qed.

(** Where no occurrence of [p] starts, the text is copied. *)
Lemma replace_from_copy (w a rest : jsstring) :
  (forall j, j < length a -> starts_with p (skipn j a ++ rest) = false) ->
  forall i, replace_from p r w 0 i (a ++ rest) = a ++ replace_from p r w 0 (i + length a) rest.
Proof.
  induction a as [| c a IH]; intros H i.
  - simpl. now rewrite Nat.add_0_r.
  - change ((c :: a) ++ rest) with (c :: (a ++ rest)). cbn [replace_from].
    pose proof (H 0 ltac:(simpl; lia)) as H0. simpl in H0.
    change (c :: a ++ rest) with ((c :: a) ++ rest). simpl app. rewrite H0.
    simpl. f_equal. rewrite IH.
    + f_equal. f_equal. lia.
    + intros j Hj. apply (H (S j)). simpl. lia.
Qed.

(** An occurrence of [p] is replaced by [r], and the search goes on after
    it. *)
Lemma replace_from_hit (w rest : jsstring) :
  forall i, replace_from p r w 0 i (p ++ rest) = r ++ replace_from p r w 0 (i + length p) rest.
Proof.
  intros i. pose proof (starts_with_app p rest) as Hsw.
  pose proof (expand_plain p (firstn i w) (skipn (i + length p) w) r_plain) as Hex.
  pose proof (fun a => replace_from_skip_app w a rest) as Hskip.
  revert Hsw Hex Hskip. destruct p as [| x p']; [contradiction |]. intros Hsw Hex Hskip.
  change ((x :: p') ++ rest) with (x :: (p' ++ rest)) in *.
  cbn [replace_from]. rewrite Hsw, Hex, Hskip. f_equal. f_equal. simpl. lia.
Qed.

End ReplacePieces.

Section Separator.

Variable hd : jsstring.
Variable u : N.
Hypothesis u_not_in_hd : ~ In u hd.

Lemma starts_with_separator (b s : jsstring) :
  starts_with (hd ++ u :: b) s = true -> nth_error s (length hd) = Some u.
Proof.
  clear u_not_in_hd. revert s. induction hd as [| x h IH]; intros s H.
  - destruct s as [| c s]; simpl in H; [discriminate |].
    apply andb_true_iff in H. destruct H as [H _]. apply N.eqb_eq in H. now subst.
  - destruct s as [| c s]; simpl in H; [discriminate |].
    apply andb_true_iff in H. destruct H as [_ H]. simpl. apply IH. exact H.
Qed.

Lemma quiet_nil (k : nat) : quiet k u [].
Proof. intros j _. destruct j; discriminate. Qed.

Lemma quiet_app (k : nat) (x s : jsstring) :
  ~ In u x -> quiet k u s -> quiet k u (x ++ s).
Proof.
  intros Hx Hs j Hj E.
  destruct (Nat.lt_ge_cases j (length x)) as [Hlt | Hge].
  - rewrite nth_error_app1 in E by exact Hlt. apply Hx. eapply nth_error_In; eauto.
  - rewrite nth_error_app2 in E by exact Hge. apply (Hs (j - length x)); [lia | exact E].
Qed.

Lemma quiet_proxy (b s : jsstring) : quiet (length hd) u ((hd ++ u :: b) ++ s).
Proof.
  intros j Hj E. rewrite <- app_assoc in E.
  rewrite nth_error_app1 in E by exact Hj.
  apply u_not_in_hd. eapply nth_error_In; eauto.
Qed.

(** No occurrence of a proxy starts inside text without the separator. *)
Lemma no_hit_in_text (b x rest : jsstring) :
  ~ In u x -> quiet (length hd) u rest ->
  forall j, j < length x -> starts_with (hd ++ u :: b) (skipn j x ++ rest) = false.
Proof.
  intros Hx Hq j Hj. apply not_true_is_false. intros H.
  apply starts_with_separator in H.
  assert (Hq' : quiet (S (length hd)) u (skipn j x ++ rest)).
  { intros i Hi E.
    destruct (Nat.lt_ge_cases i (length (skipn j x))) as [Hlt | Hge].
    - rewrite nth_error_app1 in E by exact Hlt. apply Hx.
      apply nth_error_In in E. rewrite <- (firstn_skipn j x). apply in_app_iff. auto.
    - rewrite nth_error_app2 in E by exact Hge.
      apply (Hq (i - length (skipn j x))); [| exact E].
      rewrite length_skipn in *. lia. }
  apply (Hq' (length hd)); [lia | exact H].
Qed.

(** Nor inside another proxy, after its first code unit. *)
Lemma no_hit_in_proxy (b b' rest : jsstring) :
  ~ In u b' -> quiet (length hd) u rest ->
  forall j, 1 <= j -> j < length (hd ++ u :: b') ->
    starts_with (hd ++ u :: b) (skipn j (hd ++ u :: b') ++ rest) = false.
Proof.
  intros Hb Hq j Hj1 Hj2.
  destruct (Nat.le_gt_cases j (length hd)) as [Hle | Hgt].
  - apply not_true_is_false. intros H. apply starts_with_separator in H.
    rewrite skipn_app in H.
    replace (j - length hd) with 0 in H by lia. cbn [skipn] in H.
    rewrite <- app_assoc in H.
    rewrite nth_error_app2 in H by (rewrite length_skipn; lia).
    rewrite length_skipn in H.
    replace (length hd - (length hd - j)) with (S (j - 1)) in H by lia.
    cbn [app nth_error] in H.
    assert (Hq' : quiet (length hd) u (b' ++ rest)) by (apply quiet_app; assumption).
    apply (Hq' (j - 1)); [lia | exact H].
  - rewrite skipn_app.
    rewrite (skipn_all2 hd) by lia. cbn [app].
    replace (j - length hd) with (S (j - length hd - 1)) by lia. cbn [skipn].
    apply no_hit_in_text; [exact Hb | exact Hq |].
    rewrite length_app in Hj2. simpl in Hj2. lia.
Qed.

End Separator.

(* ------------------------------------------------------------------------ *)
(** ** Restoring the proxies one mapping entry after the other *)

Section Restoring.

Variable hd : jsstring.
Variable u : N.
Variable px : jsstring -> jsstring.
Variable vals : list jsstring.

Hypothesis u_not_in_hd : ~ In u hd.
Hypothesis px_shape : forall v, In v vals -> exists b, px v = hd ++ u :: b /\ ~ In u b.
Hypothesis px_prefix_free :
  forall v v', In v vals -> In v' vals -> starts_with (px v) (px v') = true -> v = v'.
Hypothesis vals_quiet : forall v, In v vals -> ~ In u v.
Hypothesis vals_plain : forall v, In v vals -> plain v.

Lemma quiet_render (done : list jsstring) (ps : list piece) :
  pieces_ok u vals ps -> quiet (length hd) u (render (restored px done) ps).
Proof.
  induction 1 as [| [s | v] ps Hp _ IH]; cbn [render flat_map].
  - apply quiet_nil.
  - apply quiet_app; assumption.
  - unfold restored at 1. destruct (existsb (JS.eqb v) done).
    + apply quiet_app; [apply (vals_quiet _ Hp) | exact IH].
    + destruct (px_shape _ Hp) as (b & -> & _). apply quiet_proxy. exact u_not_in_hd.
Qed.

(** One entry: every proxy of [v0] becomes [v0], nothing else changes. *)
Lemma replace_proxy (v0 : jsstring) (done : list jsstring) (ps : list piece) :
  In v0 vals -> pieces_ok u vals ps ->
  forall w i,
    replace_from (px v0) v0 w 0 i (render (restored px done) ps)
    = render (restored px (v0 :: done)) ps.
Proof.
  intros Hv0 Hps.
  destruct (px_shape _ Hv0) as (b0 & Hp0 & Hb0).
  assert (Hne : px v0 <> []).
  { rewrite Hp0. destruct hd; discriminate. }
  pose proof (vals_plain _ Hv0) as Hplain.
  induction Hps as [| [s | v] ps Hp Hps IH]; intros w i; cbn [render flat_map].
  - cbn [replace_from]. destruct (px v0); [contradiction | reflexivity].
  - rewrite replace_from_copy; [f_equal; apply IH |].
    rewrite Hp0. apply no_hit_in_text; [exact Hp |].
    apply quiet_render. exact Hps.
  - unfold restored at 1 3. cbn [existsb].
    destruct (existsb (JS.eqb v) done) eqn:Hdone.
    + rewrite orb_true_r.
      rewrite replace_from_copy; [f_equal; apply IH |].
      rewrite Hp0. apply no_hit_in_text; [apply (vals_quiet _ Hp) |].
      apply quiet_render. exact Hps.
    + rewrite orb_false_r. destruct (eqb_spec v v0) as [-> | Hneq].
      * rewrite replace_from_hit by assumption. f_equal. apply IH.
      * rewrite replace_from_copy; [f_equal; apply IH |].
        intros j Hj. destruct (px_shape _ Hp) as (b & Hpv & Hb).
        destruct j as [| j].
        -- cbn [skipn]. apply not_true_is_false. intros H.
           apply starts_with_either in H. destruct H as [H | H].
           ++ apply Hneq. symmetry. apply px_prefix_free; assumption.
           ++ apply Hneq. apply px_prefix_free; assumption.
        -- rewrite Hp0, Hpv. apply no_hit_in_proxy;
             [exact Hb | apply quiet_render; exact Hps | lia |].
           rewrite <- Hpv. exact Hj.
Qed.

(** All entries, in the order of the map. *)
Lemma restore_tokens_render (entries : JsMap.t jsstring) (ps : list piece) :
  pieces_ok u vals ps ->
  forall done,
    (forall p v, In (p, v) entries -> In v vals /\ p = px v) ->
    restore_tokens (render (restored px done) ps) entries
    = render (restored px (rev (List.map snd entries) ++ done)) ps.
Proof.
  intros Hps. unfold restore_tokens.
  induction entries as [| [p v] entries IH]; intros done Hent; [reflexivity |].
  cbn [fold_left fst snd List.map rev].
  destruct (Hent p v (or_introl eq_refl)) as [Hv ->].
  unfold replace_all at 2. rewrite replace_proxy by assumption.
  rewrite IH by (intros p' v' H; apply Hent; right; exact H).
  rewrite <- app_assoc. reflexivity.
Qed.

Lemma render_restored_all (done : list jsstring) (ps : list piece) :
  (forall v, In (Token v) ps -> In v done) ->
  render (restored px done) ps = render (fun v => v) ps.
Proof.
  induction ps as [| [s | v] ps IH]; intros H; cbn [render flat_map]; [reflexivity | |].
  - f_equal. apply IH. intros v Hv. apply H. right. exact Hv.
  - unfold restored at 1.
    replace (existsb (JS.eqb v) done) with true.
    + f_equal. apply IH. intros v' Hv. apply H. right. exact Hv.
    + symmetry. apply existsb_exists. exists v. split; [| apply eqb_refl].
      apply H. left. reflexivity.
Qed.

End Restoring.

(* ------------------------------------------------------------------------ *)
(** ** The replacement loop of anonymize on tokens in order *)

Lemma in_firstn (A : Type) (n : nat) (l : list A) (c : A) : In c (firstn n l) -> In c l.
Proof. intros H. rewrite <- (firstn_skipn n l). apply in_app_iff. auto. Qed.

Lemma in_skipn (A : Type) (n : nat) (l : list A) (c : A) : In c (skipn n l) -> In c l.
Proof. intros H. rewrite <- (firstn_skipn n l). apply in_app_iff. auto. Qed.

Lemma firstn_plus (A : Type) (a b : nat) :
  forall l : list A, firstn (a + b) l = firstn a l ++ firstn b (skipn a l).
Proof.
  induction a as [| a IH]; intros l; [reflexivity |].
  destruct l as [| x l]; simpl.
  - now rewrite firstn_nil.
  - now rewrite IH.
Qed.

Lemma substring_inside (text : jsstring) (a b : nat) :
  a <= b -> b <= length text -> substring text a b = firstn (b - a) (skipn a text).
Proof.
  intros Hab Hb. unfold substring. cbv zeta.
  replace (Nat.min a (length text)) with a by lia.
  replace (Nat.min b (length text)) with b by lia.
  replace (Nat.min a b) with a by lia.
  replace (Nat.max a b) with b by lia. reflexivity.
Qed.

Lemma skipn_substring (text : jsstring) (a b : nat) :
  a <= b -> b <= length text -> skipn a text = substring text a b ++ skipn b text.
Proof.
  intros Hab Hb. rewrite substring_inside by assumption.
  rewrite <- (firstn_skipn (b - a) (skipn a text)) at 1. f_equal.
  rewrite skipn_skipn. f_equal. lia.
Qed.

Lemma firstn_substring (text : jsstring) (a b : nat) :
  a <= b -> b <= length text -> firstn b text = firstn a text ++ substring text a b.
Proof.
  intros Hab Hb. rewrite substring_inside by assumption.
  replace b with (a + (b - a)) at 1 by lia. apply firstn_plus.
Qed.

Lemma in_substring (text : jsstring) (a b : nat) (c : N) :
  In c (substring text a b) -> In c text.
Proof.
  unfold substring. intros H. apply in_firstn in H. apply in_skipn in H. exact H.
Qed.

Lemma spans_from_starts (text : jsstring) (toks : list DetectedToken) :
  forall pos, spans_from text pos toks ->
    pos <= length text /\ Forall (fun t => pos <= startIndex t) toks.
Proof.
  induction toks as [| t toks IH]; intros pos H; cbn [spans_from] in H.
  - split; [exact H | constructor].
  - destruct H as (H1 & H2 & H3 & _ & H5). destruct (IH _ H5) as [_ Hall].
    split; [lia |]. constructor; [exact H1 |].
    eapply Forall_impl; [| exact Hall]. intros x Hx. simpl in Hx. lia.
Qed.

Lemma render_pieces (text : jsstring) (toks : list DetectedToken) :
  forall pos, spans_from text pos toks ->
    render (fun v => v) (pieces_of text pos toks) = skipn pos text.
Proof.
  induction toks as [| t toks IH]; intros pos H; cbn [spans_from pieces_of] in *.
  - cbn [render flat_map]. apply app_nil_r.
  - destruct H as (H1 & H2 & H3 & H4 & H5).
    cbn [render flat_map]. fold (render (fun v => v) (pieces_of text (endIndex t) toks)).
    rewrite (IH _ H5), H4.
    rewrite <- (@skipn_substring text (startIndex t) (endIndex t)) by lia.
    symmetry. apply skipn_substring; lia.
Qed.

Lemma pieces_tokens (text : jsstring) (toks : list DetectedToken) (v : jsstring) :
  forall pos, In (Token v) (pieces_of text pos toks) -> exists t, In t toks /\ value t = v.
Proof.
  induction toks as [| t toks IH]; intros pos H; cbn [pieces_of] in H.
  - destruct H as [H | []]. discriminate H.
  - destruct H as [H | [H | H]]; [discriminate H | |].
    + inversion H. exists t. split; [left; reflexivity | reflexivity].
    + destruct (IH _ H) as (t' & Ht & Hv). exists t'. split; [right; exact Ht | exact Hv].
Qed.

Lemma pieces_of_ok (u : N) (text : jsstring) (toks : list DetectedToken) :
  ~ In u text ->
  forall pos,
    pieces_ok u (List.map value toks) (pieces_of text pos toks).
Proof.
  intros Hu. unfold pieces_ok.
  induction toks as [| t toks IH]; intros pos; cbn [pieces_of List.map].
  - constructor; [| constructor]. intros H. apply Hu. eapply in_skipn; eauto.
  - constructor; [| constructor].
    + intros H. apply Hu. eapply in_substring; eauto.
    + left. reflexivity.
    + eapply Forall_impl; [| apply IH]. intros [s | v] H; [exact H | right; exact H].
Qed.

Lemma insert_desc_last (x : DetectedToken) (l : list DetectedToken) :
  Forall (fun h => startIndex x < startIndex h) l -> insert_desc x l = l ++ [x].
Proof.
  induction 1 as [| h l Hh _ IH]; simpl; [reflexivity |].
  replace (startIndex h <=? startIndex x) with false
    by (symmetry; apply Nat.leb_gt; exact Hh).
  now rewrite IH.
Qed.

Lemma sort_desc_rev (text : jsstring) (toks : list DetectedToken) :
  forall pos, spans_from text pos toks -> sort_desc toks = rev toks.
Proof.
  induction toks as [| t toks IH]; intros pos H; [reflexivity |].
  cbn [spans_from] in H. destruct H as (H1 & H2 & H3 & _ & H5).
  unfold sort_desc in *. cbn [fold_right rev]. rewrite (IH _ H5).
  apply insert_desc_last. apply Forall_rev.
  destruct (spans_from_starts _ _ _ H5) as [_ Hall].
  eapply Forall_impl; [| exact Hall]. intros x Hx. simpl in Hx. lia.
Qed.

Lemma replace_tokens_app (strat : StrategyImpl) (c : AnonProxyConfig.t)
  (l1 l2 : list DetectedToken) :
  forall m prompt,
    replace_tokens strat c (l1 ++ l2) m prompt =
    match replace_tokens strat c l1 m prompt with
    | Ok (m', prompt') => replace_tokens strat c l2 m' prompt'
    | Throw err => Throw err
    end.
Proof.
  induction l1 as [| t l1 IH]; intros m prompt; cbn [app replace_tokens]; [reflexivity |].
  destruct (anonymize_token strat (value t) c); [apply IH | reflexivity].
Qed.

(** Taken from the last token to the first, the spans are replaced where
    they were found: the text before a token is still the text of the
    prompt when its turn comes. *)
Lemma replace_tokens_rev (strat : StrategyImpl) (c : AnonProxyConfig.t)
  (px : jsstring -> jsstring) (text : jsstring) (toks : list DetectedToken) :
  (forall t, In t toks -> anonymize_token strat (value t) c = Ok (px (value t))) ->
  forall pos m,
    spans_from text pos toks ->
    replace_tokens strat c (rev toks) m text
    = Ok (entries_of px (rev toks) m,
          firstn pos text ++ render px (pieces_of text pos toks)).
Proof.
  unfold entries_of.
  induction toks as [| t toks IH]; intros Hpx pos m H; cbn [spans_from pieces_of rev] in *.
  - cbn [replace_tokens fold_left render flat_map]. rewrite app_nil_r, firstn_skipn.
    reflexivity.
  - destruct H as (H1 & H2 & H3 & H4 & H5).
    rewrite replace_tokens_app.
    rewrite (IH (fun t' Ht' => Hpx t' (or_intror Ht')) (endIndex t) m H5).
    cbn [replace_tokens]. rewrite (Hpx t (or_introl eq_refl)).
    rewrite fold_left_app. cbn [fold_left]. f_equal. f_equal.
    unfold slice_to, slice_from.
    cbn [render flat_map]. fold (render px (pieces_of text (endIndex t) toks)).
    rewrite firstn_app, length_firstn, Nat.min_l by lia.
    replace (startIndex t - endIndex t) with 0 by lia. cbn [firstn]. rewrite app_nil_r.
    rewrite firstn_firstn, Nat.min_l by lia.
    rewrite skipn_app, length_firstn, Nat.min_l by lia.
    rewrite skipn_all2 by (rewrite length_firstn; lia).
    replace (endIndex t - endIndex t) with 0 by lia. cbn [skipn app].
    rewrite (@firstn_substring text pos (startIndex t)) by lia.
    rewrite <- app_assoc. reflexivity.
Qed.

(* ------------------------------------------------------------------------ *)
(** ** The entries the loop leaves *)

Lemma set_in (V : Type) (m : JsMap.t V) (k k0 : jsstring) (v v0 : V) :
  In (k, v) (JsMap.set m k0 v0) -> (k = k0 /\ v = v0) \/ In (k, v) m.
Proof.
  induction m as [| [k1 v1] m IH]; simpl.
  - intros [H | []]. inversion H. auto.
  - destruct (eqb_spec k0 k1) as [-> | Hne]; simpl.
    + intros [H | H]; [inversion H; auto | auto].
    + intros [H | H]; [auto |]. destruct (IH H); auto.
Qed.

Lemma set_keys (V : Type) (m : JsMap.t V) (k k0 : jsstring) (v0 : V) :
  k = k0 \/ In k (JsMap.keys m) -> In k (JsMap.keys (JsMap.set m k0 v0)).
Proof.
  induction m as [| [k1 v1] m IH]; simpl.
  - intros [-> | []]. auto.
  - destruct (eqb_spec k0 k1) as [-> | Hne]; simpl.
    + intros [-> | [-> | H]]; auto.
    + intros [-> | [-> | H]]; auto.
Qed.

Lemma entries_of_in (px : jsstring -> jsstring) (toks : list DetectedToken) :
  forall m p v,
    In (p, v) (entries_of px toks m) ->
    In (p, v) m \/ exists t, In t toks /\ p = px (value t) /\ v = value t.
Proof.
  unfold entries_of. induction toks as [| t toks IH]; intros m p v H; cbn [fold_left] in H;
    [auto |].
  destruct (IH _ _ _ H) as [H1 | (t' & Ht & Hp & Hv)].
  - apply set_in in H1. destruct H1 as [[-> ->] | H1]; [| auto].
    right. exists t. split; [left; reflexivity | auto].
  - right. exists t'. split; [right; exact Ht | auto].
Qed.

Lemma entries_of_keys (px : jsstring -> jsstring) (toks : list DetectedToken) :
  forall m k,
    In k (JsMap.keys m) \/ (exists t, In t toks /\ k = px (value t)) ->
    In k (JsMap.keys (entries_of px toks m)).
Proof.
  unfold entries_of. induction toks as [| t toks IH]; intros m k H; cbn [fold_left].
  - destruct H as [H | (t & [] & _)]. exact H.
  - apply IH. destruct H as [H | (t' & [<- | Ht] & Hk)].
    + left. apply set_keys. auto.
    + left. apply set_keys. auto.
    + right. exists t'. auto.
Qed.

(* ------------------------------------------------------------------------ *)
(** ** anonymize, then deanonymize of the anonymized prompt *)

Lemma detectTokens_chained (cfg : TokenDetectionConfig) (text : jsstring)
  (out : list DetectedToken) :
  detectTokens cfg text = Some out -> chained out.
Proof.
  unfold detectTokens. intros H.
  destruct (candidates cfg text) as [detected |] eqn:E; [| discriminate].
  inversion H; subst; clear H.
  pose proof (candidates_nonempty _ _ E) as Hne.
  unfold deduplicateTokens.
  destruct (@fold_dedup_ok (sort_by_start detected) [] 0) as [H1 _]; [| | | | exact H1].
  - apply sort_by_start_sorted.
  - rewrite Forall_forall in *. intros x Hx. apply Hne.
    eapply Permutation_in; [apply sort_by_start_perm | exact Hx].
  - rewrite Forall_forall. intros; lia.
  - repeat split; constructor.
Qed.

Lemma spans_from_chained (cfg : TokenDetectionConfig) (text : jsstring)
  (toks : list DetectedToken) :
  caseSensitive cfg = false ->
  chained toks ->
  Forall (token_in_text cfg text) toks ->
  forall pos,
    pos <= length text ->
    Forall (fun t => pos <= startIndex t) toks ->
    spans_from text pos toks.
Proof.
  intros Hcs Hch Hall. unfold chained in Hch.
  induction toks as [| t toks IH]; intros pos Hpos Hfrom; cbn [spans_from]; [exact Hpos |].
  inversion Hch as [| ? ? Hch' Hnext]; subst.
  inversion Hall as [| ? ? (H1 & H2 & _ & _ & H5 & _) Hall']; subst.
  inversion Hfrom as [| ? ? Hp _]; subst.
  split; [exact Hp |]. split; [exact H1 |]. split; [exact H2 |].
  split; [apply H5; exact Hcs |].
  apply IH; assumption.
Qed.

Lemma anon_proxy_shape {crypto : NodeCrypto} (salt v : jsstring) :
  exists b,
    generateProxyToken v salt anon_prefix = lit "anon" ++ underscore :: b /\
    ~ In underscore b.
Proof.
  exists (shortHash (hashWithSalt v salt)). split; [reflexivity |].
  unfold shortHash. intros H. apply filter_In in H. destruct H as [_ H]. discriminate H.
Qed.

(** Replacing the stored entries in the anonymized prompt, one after the
    other, gives the prompt back. *)
Lemma anonymized_prompt_restores {crypto : NodeCrypto}
  (e : AnonEngine.t MemoryStorage.t) (prompt hd : jsstring) (px : jsstring -> jsstring)
  (src : nat -> N) (now : Z) (toks : list DetectedToken)
  (r : AnonymizationResult.t) (e' : AnonEngine.t MemoryStorage.t) :
  ~ In underscore prompt ->
  plain prompt ->
  detectTokens DEFAULT_DETECTION_CONFIG prompt = Some toks ->
  ~ In underscore hd ->
  (forall t, In t toks ->
     anonymize_token (strategy e) (value t) (config e) = Ok (px (value t)) /\
     exists b, px (value t) = hd ++ underscore :: b /\ ~ In underscore b) ->
  proxies_prefix_free px toks ->
  anonymize e prompt src now = Some (Ok r, e') ->
  forall d,
    JsMap.get (MemoryStorage.mappings (storage e')) (generateId src) = Some d ->
    restore_tokens (AnonymizationResult.anonPrompt r) (MappingData.mappings d) = prompt /\
    truthy (AnonymizationResult.anonPrompt r) = true.
Proof.
  intros Hu Hplain Hdet Hhd Hstrat Hfree Hanon d0 Hget0.
  destruct (@anonymize_outcomes crypto e prompt src now) as (_ & _ & Hinv).
  destruct (Hinv r e' Hanon)
    as (Hprompt & _ & _ & _ & _ & d & toks' & Hdet' & Hrep & Hget & _).
  rewrite Hget in Hget0. inversion Hget0; subst d0; clear Hget0.
  rewrite Hdet in Hdet'. inversion Hdet'; subst toks'; clear Hdet'.
  (* the tokens follow each other in the prompt *)
  assert (Hspans : spans_from prompt 0 toks).
  { apply (@spans_from_chained DEFAULT_DETECTION_CONFIG).
    - reflexivity.
    - eapply detectTokens_chained; eauto.
    - eapply detectTokens_in_text; eauto.
    - lia.
    - apply Forall_forall. intros; lia. }
  (* what anonymize returned and stored *)
  rewrite (sort_desc_rev _ _ _ Hspans) in Hrep.
  rewrite (@replace_tokens_rev (strategy e) (config e) px prompt toks
             (fun t Ht => proj1 (Hstrat t Ht)) 0 [] Hspans) in Hrep.
  cbn [firstn app] in Hrep. injection Hrep as Hentries Hout.
  set (ps := pieces_of prompt 0 toks) in *.
  set (vals := List.map value toks).
  assert (Hvals : forall v, In v vals -> exists t, In t toks /\ value t = v).
  { intros v Hv. apply in_map_iff in Hv. destruct Hv as (t & Hv & Ht). eauto. }
  assert (Hsub : forall v c, In v vals -> In c v -> In c prompt).
  { intros v c Hv Hc. destruct (Hvals v Hv) as (t & Ht & <-).
    pose proof (detectTokens_in_text _ _ Hdet) as Hall. rewrite Forall_forall in Hall.
    destruct (Hall t Ht) as (_ & _ & _ & _ & H5 & _). rewrite (H5 eq_refl) in Hc.
    eapply in_substring; eauto. }
  (* the entries are the proxies of the detected values *)
  assert (Hent : forall p v, In (p, v) (entries_of px (rev toks) []) ->
                             In v vals /\ p = px v).
  { intros p v H. apply entries_of_in in H. destruct H as [[] | (t & Ht & -> & ->)].
    split; [| reflexivity]. apply in_map. apply in_rev. exact Ht. }
  assert (Hdone : forall v, In (Token v) ps ->
                            In v (rev (List.map snd (entries_of px (rev toks) [])) ++ [])).
  { intros v Hv. apply pieces_tokens in Hv. destruct Hv as (t & Ht & <-).
    rewrite app_nil_r. apply -> in_rev.
    assert (Hk : In (px (value t)) (JsMap.keys (entries_of px (rev toks) []))).
    { apply entries_of_keys. right. exists t. split; [apply -> in_rev; exact Ht | reflexivity]. }
    unfold JsMap.keys in Hk. apply in_map_iff in Hk. destruct Hk as ([p v'] & Hp & Hin).
    simpl in Hp. subst p.
    pose proof Hin as Hin'. apply entries_of_in in Hin'.
    destruct Hin' as [[] | (t' & Ht' & Hp & ->)].
    assert (Heq : value t = value t').
    { apply Hfree; [exact Ht | apply in_rev; exact Ht' |].
      rewrite Hp. apply starts_with_refl. }
    rewrite Heq. change (value t') with (snd (px (value t), value t')).
    apply in_map. exact Hin. }
  split.
  - (* replacing entry after entry gives the prompt back *)
    rewrite <- Hout, <- Hentries.
    replace (render px ps) with (render (restored px []) ps) by reflexivity.
    rewrite (@restore_tokens_render hd underscore px vals).
    + rewrite render_restored_all by exact Hdone.
      unfold ps. rewrite (render_pieces _ _ _ Hspans). reflexivity.
    + exact Hhd.
    + intros v Hv. destruct (Hvals v Hv) as (t & Ht & <-). exact (proj2 (Hstrat t Ht)).
    + intros v v' Hv Hv' H.
      destruct (Hvals v Hv) as (t & Ht & <-). destruct (Hvals v' Hv') as (t' & Ht' & <-).
      apply Hfree; assumption.
    + intros v Hv H. apply Hu. eapply Hsub; eauto.
    + intros v Hv H. apply Hplain. eapply Hsub; eauto.
    + apply pieces_of_ok. exact Hu.
    + exact Hent.
  - rewrite <- Hout. destruct toks as [| t toks0].
    + unfold ps. cbn [pieces_of render flat_map skipn]. rewrite app_nil_r. exact Hprompt.
    + unfold ps. cbn [pieces_of render flat_map].
      destruct (Hstrat t (or_introl eq_refl)) as (_ & b & Hb & _). rewrite Hb.
      destruct (substring prompt 0 (startIndex t)); [destruct hd |]; reflexivity.
Qed.

(** X19: with signatures off, [anonymize] followed by [deanonymize] of
    the anonymized prompt gives the prompt back, character for character,
    whatever tokens were found in it, provided that the prompt holds
    neither an underscore nor a dollar sign, that the strategy answers
    every detected value with a proxy made of one fixed head without
    underscore, an underscore, and a rest without underscore (as
    [generateProxyToken] with the prefix [anon_] does, and as the [sem_]
    proxies of the embeddings strategy are), that no proxy of a detected
    value is the beginning of the proxy of another one, and that the entry
    has not outlived the TTL.  (The prompt is taken to be Latin-1, where
    lower-casing keeps every index.) *)
Theorem anonymize_then_deanonymize {crypto : NodeCrypto}
  (e : AnonEngine.t MemoryStorage.t) (prompt hd : jsstring) (px : jsstring -> jsstring)
  (src : nat -> N) (now now' : Z) (sig : option jsstring) (toks : list DetectedToken)
  (r : AnonymizationResult.t) (e' : AnonEngine.t MemoryStorage.t) :
  AnonProxyConfig.enableSignatures (config e) = false ->
  latin1 prompt ->
  ~ In underscore prompt ->
  plain prompt ->
  detectTokens DEFAULT_DETECTION_CONFIG prompt = Some toks ->
  ~ In underscore hd ->
  (forall t, In t toks ->
     anonymize_token (strategy e) (value t) (config e) = Ok (px (value t)) /\
     exists b, px (value t) = hd ++ underscore :: b /\ ~ In underscore b) ->
  proxies_prefix_free px toks ->
  anonymize e prompt src now = Some (Ok r, e') ->
  (MemoryStorage.ttlMs (storage e) <= 0 \/
   now' - now <= MemoryStorage.ttlMs (storage e))%Z ->
  deanonymize e' (AnonymizationResult.anonPrompt r) (AnonymizationResult.mapId r) sig now'
  = (Ok prompt, e').
Proof.
  intros Hoff _ Hu Hplain Hdet Hhd Hstrat Hfree Hanon Hage.
  destruct (@anonymize_outcomes crypto e prompt src now) as (_ & _ & Hinv).
  destruct (Hinv r e' Hanon)
    as (_ & Httl & Hmap & Hcfg & _ & d & _ & _ & _ & Hget & _ & Hcreated & _).
  destruct (@anonymized_prompt_restores crypto e prompt hd px src now toks r e'
              Hu Hplain Hdet Hhd Hstrat Hfree Hanon d Hget) as [Hmain Htruthy].
  unfold deanonymize. rewrite Htruthy, Hmap, generateId_truthy. cbn [negb].
  cbn [retrieve MemoryStorage.storage_interface]. unfold MemoryStorage.retrieve.
  rewrite generateId_truthy, Hget, Httl, Hcreated. cbn [negb].
  replace ((0 <? MemoryStorage.ttlMs (storage e))%Z
           && (MemoryStorage.ttlMs (storage e) <? now' - now)%Z) with false.
  - rewrite with_storage_same. f_equal.
    unfold restore. rewrite validate_signature_off by (rewrite Hcfg; exact Hoff).
    destruct (MappingData.mappings d) as [| entry entries] eqn:Hm.
    + cbn in Hmain |- *. rewrite Hmain. reflexivity.
    + cbn [JsMap.size length Nat.eqb]. rewrite Hmain. reflexivity.
  - symmetry. apply andb_false_iff.
    destruct Hage; [left; apply Z.ltb_ge | right; apply Z.ltb_ge]; assumption.
Qed.

(** X19 on the example prompt. *)
Lemma anonymize_then_deanonymize_witness :
  exists r e',
    @anonymize toy_crypto _ _ toy_engine c1_prompt zero_source 0 = Some (Ok r, e') /\
    @deanonymize toy_crypto _ _ e' (AnonymizationResult.anonPrompt r)
      (AnonymizationResult.mapId r) None 5 = (Ok c1_prompt, e').
Proof.
  assert (Ha : exists r e',
             @anonymize toy_crypto _ _ toy_engine c1_prompt zero_source 0 = Some (Ok r, e')).
  { eexists _, _. apply (@c1_anonymize toy_crypto (lit "salt") zero_source 0%Z). }
  destruct Ha as (r & e' & Ha). exists r, e'. split; [exact Ha |].
  apply (@anonymize_then_deanonymize toy_crypto toy_engine c1_prompt (lit "anon")
           (fun v => @generateProxyToken toy_crypto v (lit "salt") anon_prefix)
           zero_source 0%Z 5%Z None c1_tokens r e').
  - reflexivity.
  - apply latin1_by. reflexivity.
  - apply not_in_by. reflexivity.
  - apply not_in_by. reflexivity.
  - exact c1_detect.
  - apply not_in_by. reflexivity.
  - intros t _. split; [reflexivity | apply anon_proxy_shape].
  - intros t t' [<- | [<- | []]] [<- | [<- | []]] H; try reflexivity;
      vm_compute in H; discriminate H.
  - exact Ha.
  - right. simpl. lia.
Defined.

(** X20: the same with signatures on, a secret, and at least one token
    found: [deanonymize] of the anonymized prompt with the signature that
    [anonymize] returned passes both signature checks and gives the prompt
    back.  (The digest is taken to yield a non-empty string of code
    units, as Base64 text is.) *)
Theorem signed_anonymize_then_deanonymize {crypto : NodeCrypto}
  (e : AnonEngine.t MemoryStorage.t) (prompt hd secret : jsstring)
  (px : jsstring -> jsstring) (src : nat -> N) (now now' : Z) (toks : list DetectedToken)
  (r : AnonymizationResult.t) (e' : AnonEngine.t MemoryStorage.t) :
  AnonProxyConfig.enableSignatures (config e) = true ->
  AnonProxyConfig.signatureSecret (config e) = Some secret ->
  (forall s, AnonymizationResult.signature r = Some s -> truthy s = true /\ wf_string s) ->
  toks <> [] ->
  latin1 prompt ->
  ~ In underscore prompt ->
  plain prompt ->
  detectTokens DEFAULT_DETECTION_CONFIG prompt = Some toks ->
  ~ In underscore hd ->
  (forall t, In t toks ->
     anonymize_token (strategy e) (value t) (config e) = Ok (px (value t)) /\
     exists b, px (value t) = hd ++ underscore :: b /\ ~ In underscore b) ->
  proxies_prefix_free px toks ->
  anonymize e prompt src now = Some (Ok r, e') ->
  (MemoryStorage.ttlMs (storage e) <= 0 \/
   now' - now <= MemoryStorage.ttlMs (storage e))%Z ->
  deanonymize e' (AnonymizationResult.anonPrompt r) (AnonymizationResult.mapId r)
    (AnonymizationResult.signature r) now'
  = (Ok prompt, e').
Proof.
  intros Hon Hsec Hmac Hne _ Hu Hplain Hdet Hhd Hstrat Hfree Hanon Hage.
  destruct (@anonymize_outcomes crypto e prompt src now) as (_ & _ & Hinv).
  destruct (Hinv r e' Hanon)
    as (_ & Httl & Hmap & Hcfg & _ & d & toks' & Hdet' & _ & Hget & _ & Hcreated & _ & _ & Hsig).
  rewrite Hdet in Hdet'. inversion Hdet'; subst toks'; clear Hdet'.
  destruct (Hsig Hne) as [Hstored Hreturned].
  rewrite Hon, Hsec in Hreturned. cbn [option_map] in Hreturned.
  destruct (@anonymized_prompt_restores crypto e prompt hd px src now toks r e'
              Hu Hplain Hdet Hhd Hstrat Hfree Hanon d Hget) as [Hmain Htruthy].
  destruct (Hmac _ Hreturned) as [Hmt Hmwf].
  unfold deanonymize. rewrite Htruthy, Hmap, generateId_truthy. cbn [negb].
  cbn [retrieve MemoryStorage.storage_interface]. unfold MemoryStorage.retrieve.
  rewrite generateId_truthy, Hget, Httl, Hcreated. cbn [negb].
  replace ((0 <? MemoryStorage.ttlMs (storage e))%Z
           && (MemoryStorage.ttlMs (storage e) <? now' - now)%Z) with false.
  - rewrite with_storage_same. f_equal.
    unfold restore, validate_signature, verifyHmac.
    rewrite Hcfg, Hon, Hsec, Hstored, Hreturned, Hmt. cbn [negb].
    rewrite (constantTimeCompare_refl Hmwf). cbn [negb].
    destruct (MappingData.mappings d) as [| entry entries] eqn:Hm.
    + cbn in Hmain |- *. rewrite Hmain. reflexivity.
    + cbn [JsMap.size length Nat.eqb]. rewrite Hmain. reflexivity.
  - symmetry. apply andb_false_iff.
    destruct Hage; [left; apply Z.ltb_ge | right; apply Z.ltb_ge]; assumption.
Qed.

(** X20 on the example prompt, with the signing engine. *)
Lemma signed_anonymize_then_deanonymize_witness :
  exists r e',
    @anonymize toy_crypto _ _ toy_signed_engine c1_prompt zero_source 0 = Some (Ok r, e') /\
    @deanonymize toy_crypto _ _ e' (AnonymizationResult.anonPrompt r)
      (AnonymizationResult.mapId r) (AnonymizationResult.signature r) 5
    = (Ok c1_prompt, e').
Proof.
  eexists _, _. split; [vm_compute; reflexivity |].
  apply (@signed_anonymize_then_deanonymize toy_crypto toy_signed_engine c1_prompt
           (lit "anon") (lit "test-secret-key")
           (fun v => @generateProxyToken toy_crypto v (lit "salt") anon_prefix)
           zero_source 0%Z 5%Z c1_tokens).
  - reflexivity.
  - reflexivity.
  - intros s Hs. injection Hs as <-. split; [reflexivity |].
    apply wf_stringb_ok. vm_compute. reflexivity.
  - discriminate.
  - apply latin1_by. reflexivity.
  - apply not_in_by. reflexivity.
  - apply not_in_by. reflexivity.
  - exact c1_detect.
  - apply not_in_by. reflexivity.
  - intros t _. split; [reflexivity | apply anon_proxy_shape].
  - intros t t' [<- | [<- | []]] [<- | [<- | []]] H; try reflexivity;
      vm_compute in H; discriminate H.
  - vm_compute. reflexivity.
  - right. simpl. lia.
Defined.

(** X21: what [anonymize] does to the prompt.  The detected tokens follow
    each other in the prompt; the anonymized prompt is the prompt with the
    text of each token's span replaced by the strategy's answer for it, and
    every character outside the spans kept; the mapping stored under the
    returned id holds exactly the pairs of such an answer and its value,
    one entry for every answer.  (The prompt is taken to be Latin-1.) *)
Theorem anonymize_replaces_spans {crypto : NodeCrypto}
  (e : AnonEngine.t MemoryStorage.t) (prompt : jsstring) (src : nat -> N) (now : Z)
  (toks : list DetectedToken) (px : jsstring -> jsstring)
  (r : AnonymizationResult.t) (e' : AnonEngine.t MemoryStorage.t) :
  latin1 prompt ->
  detectTokens DEFAULT_DETECTION_CONFIG prompt = Some toks ->
  (forall t, In t toks ->
     anonymize_token (strategy e) (value t) (config e) = Ok (px (value t))) ->
  anonymize e prompt src now = Some (Ok r, e') ->
  spans_from prompt 0 toks /\
  prompt = render (fun v => v) (pieces_of prompt 0 toks) /\
  AnonymizationResult.anonPrompt r = render px (pieces_of prompt 0 toks) /\
  exists d,
    JsMap.get (MemoryStorage.mappings (storage e')) (AnonymizationResult.mapId r) = Some d /\
    (forall p v, In (p, v) (MappingData.mappings d) ->
                 exists t, In t toks /\ v = value t /\ p = px v) /\
    (forall t, In t toks -> In (px (value t)) (JsMap.keys (MappingData.mappings d))).
Proof.
  intros _ Hdet Hstrat Hanon.
  destruct (@anonymize_outcomes crypto e prompt src now) as (_ & _ & Hinv).
  destruct (Hinv r e' Hanon)
    as (_ & _ & Hmap & _ & _ & d & toks' & Hdet' & Hrep & Hget & _).
  rewrite Hdet in Hdet'. inversion Hdet'; subst toks'; clear Hdet'.
  assert (Hspans : spans_from prompt 0 toks).
  { apply (@spans_from_chained DEFAULT_DETECTION_CONFIG).
    - reflexivity.
    - eapply detectTokens_chained; eauto.
    - eapply detectTokens_in_text; eauto.
    - lia.
    - apply Forall_forall. intros; lia. }
  rewrite (sort_desc_rev _ _ _ Hspans) in Hrep.
  rewrite (@replace_tokens_rev (strategy e) (config e) px prompt toks Hstrat 0 [] Hspans)
    in Hrep.
  cbn [firstn app] in Hrep. injection Hrep as Hentries Hout.
  split; [exact Hspans |].
  split; [rewrite (render_pieces _ _ _ Hspans); reflexivity |].
  split; [symmetry; exact Hout |].
  exists d. rewrite Hmap. split; [exact Hget |]. rewrite <- Hentries. split.
  - intros p v H. apply entries_of_in in H. destruct H as [[] | (t & Ht & -> & ->)].
    exists t. split; [apply in_rev; exact Ht | auto].
  - intros t Ht. apply entries_of_keys. right. exists t.
    split; [apply -> in_rev; exact Ht | reflexivity].
Qed.

(** X21 on the example prompt. *)
Lemma anonymize_replaces_spans_witness :
  exists r e',
    @anonymize toy_crypto _ _ toy_engine c1_prompt zero_source 0 = Some (Ok r, e') /\
    AnonymizationResult.anonPrompt r
      = render (fun v => @generateProxyToken toy_crypto v (lit "salt") anon_prefix)
          (pieces_of c1_prompt 0 c1_tokens).
Proof.
  assert (Ha : exists r e',
             @anonymize toy_crypto _ _ toy_engine c1_prompt zero_source 0 = Some (Ok r, e')).
  { eexists _, _. apply (@c1_anonymize toy_crypto (lit "salt") zero_source 0%Z). }
  destruct Ha as (r & e' & Ha). exists r, e'. split; [exact Ha |].
  refine (proj1 (proj2 (proj2
    (@anonymize_replaces_spans toy_crypto toy_engine c1_prompt zero_source 0%Z c1_tokens
       (fun v => @generateProxyToken toy_crypto v (lit "salt") anon_prefix) r e'
       _ c1_detect _ Ha)))).
  - apply latin1_by. reflexivity.
  - intros t _. reflexivity.
Defined.

(** X22: a text shorter than [minLength] has no tokens: whatever
    [detectTokens] returns for it is empty, and without custom patterns
    [detectTokens] returns the empty list and [hasSensitiveTokens] returns
    false.  So [anonymize] returns a prompt of fewer than 8 characters as
    it is.  (With lower-casing the text is taken to be Latin-1.) *)
Theorem short_text_has_no_tokens (cfg : TokenDetectionConfig) (text : jsstring) :
  caseSensitive cfg = true \/ latin1 text ->
  (Z.of_nat (length text) < minLength cfg)%Z ->
  (forall out, detectTokens cfg text = Some out -> out = []) /\
  (customPatterns cfg = None ->
   detectTokens cfg text = Some [] /\ hasSensitiveTokens cfg text = Some false) /\
  (forall (crypto : NodeCrypto) (e : AnonEngine.t MemoryStorage.t) (src : nat -> N) (now : Z)
          (r : AnonymizationResult.t) (e' : AnonEngine.t MemoryStorage.t),
     cfg = DEFAULT_DETECTION_CONFIG ->
     anonymize e text src now = Some (Ok r, e') ->
     AnonymizationResult.anonPrompt r = text).
Proof.
  intros _ Hshort.
  assert (Hnone : forall out, detectTokens cfg text = Some out -> out = []).
  { intros out H. destruct out as [| t out]; [reflexivity | exfalso].
    pose proof (detectTokens_in_text _ _ H) as Hall.
    inversion Hall as [| ? ? (H1 & H2 & H3 & H4 & _) _]; subst. lia. }
  split; [exact Hnone |]. split.
  - intros Hcustom. destruct (detectTokens_returns cfg text Hcustom) as [out Hout].
    unfold hasSensitiveTokens. rewrite Hout. rewrite (Hnone _ Hout). split; reflexivity.
  - intros crypto e src now r e' -> Hanon.
    destruct (@anonymize_outcomes crypto e text src now) as (_ & _ & Hinv).
    destruct (Hinv r e' Hanon) as (_ & _ & _ & _ & _ & d & toks & Hdet & Hrep & _).
    rewrite (Hnone _ Hdet) in Hrep. cbn in Hrep. inversion Hrep. reflexivity.
Qed.

(** X22 on a password assignment of seven characters. *)
Lemma short_text_witness :
  hasSensitiveTokens DEFAULT_DETECTION_CONFIG (lit "pwd=abc") = Some false.
Proof.
  destruct (@short_text_has_no_tokens DEFAULT_DETECTION_CONFIG (lit "pwd=abc")
              (or_intror (@latin1_by (lit "pwd=abc") eq_refl)) ltac:(simpl; lia)) as (_ & H & _).
  destruct (H eq_refl) as [_ H2]. exact H2.
Defined.

(* ------------------------------------------------------------------------ *)
(** ** The signed payload determines the entries *)

Lemma unhex_hex_digit (d : N) : (d < 16)%N -> unhex (hex_digit d) = d.
Proof.
  intros H. unfold unhex, hex_digit.
  destruct (N.ltb_spec d 10).
  - replace (48 + d <=? 57)%N with true by (symmetry; apply N.leb_le; lia). lia.
  - replace (87 + d <=? 57)%N with false by (symmetry; apply N.leb_gt; lia). lia.
Qed.

Lemma unhex_hex4 (c : N) :
  (c < 65536)%N ->
  (unhex (hex_digit (c / 4096)) * 4096 + unhex (hex_digit ((c / 256) mod 16)) * 256
   + unhex (hex_digit ((c / 16) mod 16)) * 16 + unhex (hex_digit (c mod 16)))%N = c.
Proof.
  intros H.
  rewrite !unhex_hex_digit;
    try (apply N.mod_lt; discriminate);
    [| apply N.Div0.div_lt_upper_bound; lia].
  pose proof (N.div_mod c 16 ltac:(discriminate)) as H1.
  pose proof (N.div_mod (c / 16) 16 ltac:(discriminate)) as H2.
  pose proof (N.div_mod (c / 256) 16 ltac:(discriminate)) as H3.
  rewrite N.Div0.div_div in H2. change (16 * 16)%N with 256%N in H2.
  rewrite N.Div0.div_div in H3. change (256 * 16)%N with 4096%N in H3.
  lia.
Qed.

Lemma unquote_raw (c : N) (o s rest : jsstring) :
  c <> 34%N -> c <> 92%N ->
  json_unquote_body o = Some (s, rest) ->
  json_unquote_body (c :: o) = Some (c :: s, rest).
Proof.
  intros H1 H2 H. cbn [json_unquote_body].
  rewrite (proj2 (N.eqb_neq c 34) H1), (proj2 (N.eqb_neq c 92) H2), H. reflexivity.
Qed.

Lemma unquote_escape (c : N) (o s rest : jsstring) :
  (c < 65536)%N ->
  json_unquote_body o = Some (s, rest) ->
  json_unquote_body (json_escape c ++ o) = Some (c :: s, rest).
Proof.
  intros Hc H. unfold json_escape, backslash.
  destruct (N.eqb_spec c 8) as [-> | H8]; [cbn; rewrite H; reflexivity |].
  destruct (N.eqb_spec c 9) as [-> | H9]; [cbn; rewrite H; reflexivity |].
  destruct (N.eqb_spec c 10) as [-> | H10]; [cbn; rewrite H; reflexivity |].
  destruct (N.eqb_spec c 12) as [-> | H12]; [cbn; rewrite H; reflexivity |].
  destruct (N.eqb_spec c 13) as [-> | H13]; [cbn; rewrite H; reflexivity |].
  destruct (N.eqb_spec c 34) as [-> | H34]; [cbn; rewrite H; reflexivity |].
  destruct (N.eqb_spec c 92) as [-> | H92]; [cbn; rewrite H; reflexivity |].
  destruct (_ || _).
  - unfold hex4. cbn [app json_unquote_body N.eqb Pos.eqb ch N_of_ascii N_of_digits].
    change (ch "u" =? 34)%N with false. cbn.
    rewrite H. rewrite unhex_hex4 by exact Hc. reflexivity.
  - apply unquote_raw; assumption.
Qed.

Lemma json_quote_body_two (h l : N) (t : jsstring) :
  json_quote_body (h :: l :: t) =
  if is_high_surrogate h && is_low_surrogate l then h :: l :: json_quote_body t
  else json_escape h ++ json_quote_body (l :: t).
Proof. reflexivity. Qed.

Lemma unquote_quote_body (n : nat) :
  forall s, length s <= n -> wf_string s ->
    forall rest, json_unquote_body (json_quote_body s ++ 34%N :: rest) = Some (s, rest).
Proof.
  induction n as [| n IH]; intros s Hlen Hwf rest.
  - destruct s; [reflexivity | simpl in Hlen; lia].
  - destruct s as [| h [| l t]]; [reflexivity | |].
    + inversion Hwf; subst. cbn [json_quote_body].
      apply unquote_escape; [assumption | reflexivity].
    + inversion Hwf as [| ? ? Hh Hwf']; subst. inversion Hwf' as [| ? ? Hl Hwf'']; subst.
      rewrite json_quote_body_two.
      destruct (is_high_surrogate h && is_low_surrogate l) eqn:Hpair.
      * apply andb_true_iff in Hpair. destruct Hpair as [Hhs Hls].
        unfold is_high_surrogate in Hhs. unfold is_low_surrogate in Hls.
        apply andb_true_iff in Hhs, Hls.
        rewrite !N.leb_le in Hhs, Hls.
        cbn [app]. apply unquote_raw; [lia | lia |].
        apply unquote_raw; [lia | lia |].
        apply IH; [simpl in Hlen; lia | exact Hwf''].
      * rewrite <- app_assoc. apply unquote_escape; [exact Hh |].
        apply IH; [simpl in *; lia | exact Hwf'].
Qed.

Lemma json_quote_body_cancel (s s' rest rest' : jsstring) :
  wf_string s -> wf_string s' ->
  json_quote_body s ++ 34%N :: rest = json_quote_body s' ++ 34%N :: rest' ->
  s = s' /\ rest = rest'.
Proof.
  intros Hs Hs' H.
  pose proof (unquote_quote_body (le_n (length s)) Hs rest) as H1.
  pose proof (unquote_quote_body (le_n (length s')) Hs' rest') as H2.
  rewrite H in H1. rewrite H1 in H2. inversion H2. auto.
Qed.

Lemma json_pair_cancel (e e' : jsstring * jsstring) (rest rest' : jsstring) :
  wf_string (fst e) /\ wf_string (snd e) ->
  wf_string (fst e') /\ wf_string (snd e') ->
  json_array [json_quote (fst e); json_quote (snd e)] ++ rest
  = json_array [json_quote (fst e'); json_quote (snd e')] ++ rest' ->
  e = e' /\ rest = rest'.
Proof.
  intros [Hk Hv] [Hk' Hv'] H. unfold json_array, json_quote in H.
  cbn [join_with] in H. repeat rewrite <- app_assoc in H. cbn [app] in H.
  repeat rewrite <- app_assoc in H. cbn [app] in H.
  injection H as H.
  apply json_quote_body_cancel in H; [| assumption | assumption].
  destruct H as [Ek H]. injection H as H.
  repeat rewrite <- app_assoc in H. cbn [app] in H.
  apply json_quote_body_cancel in H; [| assumption | assumption].
  destruct H as [Ev H]. injection H as H.
  destruct e, e'. simpl in *. subst. auto.
Qed.

Lemma json_join_cancel (m : JsMap.t jsstring) :
  forall m' rest rest',
    wf_entries m -> wf_entries m' ->
    join_with [ch ","]
      (List.map (fun e => json_array [json_quote (fst e); json_quote (snd e)]) m)
      ++ ch "]" :: rest
    = join_with [ch ","]
        (List.map (fun e => json_array [json_quote (fst e); json_quote (snd e)]) m')
        ++ ch "]" :: rest' ->
    m = m'.
Proof.
  unfold wf_entries.
  induction m as [| e m IH]; intros m' rest rest' Hm Hm' H.
  - destruct m' as [| e' m']; [reflexivity |].
    destruct m'; cbn in H; discriminate H.
  - destruct m' as [| e' m'].
    { destruct m; cbn in H; discriminate H. }
    inversion Hm as [| ? ? He Hm1]; subst. inversion Hm' as [| ? ? He' Hm1']; subst.
    assert (Hsplit : forall (x : jsstring * jsstring) (l : JsMap.t jsstring) (R : jsstring),
      join_with [ch ","]
        (List.map (fun e => json_array [json_quote (fst e); json_quote (snd e)]) (x :: l))
        ++ ch "]" :: R
      = json_array [json_quote (fst x); json_quote (snd x)]
          ++ match l with
             | [] => ch "]" :: R
             | _ :: _ =>
                 ch "," ::
                 join_with [ch ","]
                   (List.map (fun e => json_array [json_quote (fst e); json_quote (snd e)]) l)
                 ++ ch "]" :: R
             end).
    { intros x l R. destruct l as [| y l]; [reflexivity |].
      cbn [List.map join_with]. rewrite <- !app_assoc. reflexivity. }
    rewrite !Hsplit in H. apply json_pair_cancel in H; [| assumption | assumption].
    destruct H as [-> H]. f_equal.
    destruct m as [| y m], m' as [| y' m']; try discriminate H; [reflexivity |].
    injection H as H. eapply IH; eauto.
Qed.

(** [JSON.stringify] of the entries, hence the signed payload of an id,
    tells the entries. *)
Lemma signed_payload_injective (mapId : jsstring) (m m' : JsMap.t jsstring) :
  wf_entries m -> wf_entries m' ->
  signed_payload mapId m = signed_payload mapId m' -> m = m'.
Proof.
  intros Hm Hm' H. unfold signed_payload in H.
  apply app_inv_head in H. apply app_inv_head in H.
  unfold json_entries, json_array in H. injection H as H.
  eapply json_join_cancel; eauto.
Qed.

(** X23: a stored mapping whose entries were changed after signing is
    rejected.  With signatures on, let a mapping carry the signature that
    [anonymize] gave it, the HMAC of [id:JSON(entries)]; if the entries are
    then replaced by others, the signed text of the new entries differs
    from that of the old ones, since the JSON text of the entries tells the
    entries; and unless the HMAC of the two texts is the same, the check of
    [deanonymize] throws a SignatureError for every signature the caller
    supplies.  (The digests are taken to be strings of code units.) *)
Theorem tampered_mapping_rejected {crypto : NodeCrypto}
  (c : AnonProxyConfig.t) (mapId secret : jsstring) (sig : option jsstring)
  (d : MappingData.t) (m' : JsMap.t jsstring) :
  AnonProxyConfig.enableSignatures c = true ->
  AnonProxyConfig.signatureSecret c = Some secret ->
  MappingData.signature d
    = Some (createHmac (signed_payload mapId (MappingData.mappings d)) secret) ->
  wf_entries (MappingData.mappings d) ->
  wf_entries m' ->
  m' <> MappingData.mappings d ->
  wf_string (createHmac (signed_payload mapId (MappingData.mappings d)) secret) ->
  wf_string (createHmac (signed_payload mapId m') secret) ->
  (signed_payload mapId m' <> signed_payload mapId (MappingData.mappings d) ->
   createHmac (signed_payload mapId m') secret
     <> createHmac (signed_payload mapId (MappingData.mappings d)) secret) ->
  signed_payload mapId m' <> signed_payload mapId (MappingData.mappings d) /\
  is_signature_error (validate_signature c mapId sig (with_entries d m')) = true.
Proof.
  intros Hon Hsec Hstored Hwf Hwf' Hne Hmac Hmac' Hfree.
  assert (Hpay : signed_payload mapId m' <> signed_payload mapId (MappingData.mappings d)).
  { intros H. apply Hne. eapply signed_payload_injective; eauto. }
  split; [exact Hpay |].
  unfold validate_signature, verifyHmac, with_entries.
  cbn [MappingData.signature MappingData.mappings].
  rewrite Hon, Hsec, Hstored.
  destruct sig as [s |]; [| reflexivity].
  destruct (negb (truthy s)); [reflexivity |].
  destruct (negb (truthy _)); [reflexivity |].
  destruct (negb (constantTimeCompare s _)); [reflexivity |].
  replace (constantTimeCompare
             (createHmac (signed_payload mapId (MappingData.mappings d)) secret)
             (createHmac (signed_payload mapId m') secret)) with false; [reflexivity |].
  symmetry. apply not_true_is_false. intros H.
  apply constantTimeCompare_true_iff in H; [| exact Hmac | exact Hmac'].
  apply (Hfree Hpay). symmetry. exact H.
Qed.

(** X23 on a signed mapping whose value was changed. *)
Lemma tampered_mapping_witness :
  is_signature_error
    (@validate_signature toy_crypto signed_config (lit "m")
       (MappingData.signature signed_data)
       (with_entries signed_data [(lit "anon_x", lit "another-value")])) = true.
Proof.
  refine (proj2 (@tampered_mapping_rejected toy_crypto signed_config (lit "m")
                   (lit "test-secret-key") (MappingData.signature signed_data)
                   signed_data [(lit "anon_x", lit "another-value")]
                   eq_refl eq_refl eq_refl _ _ _ _ _ _)).
  - repeat constructor; apply wf_stringb_ok; reflexivity.
  - repeat constructor; apply wf_stringb_ok; reflexivity.
  - discriminate.
  - apply wf_stringb_ok. reflexivity.
  - apply wf_stringb_ok. reflexivity.
  - intros _. vm_compute. discriminate.
Defined.

(* ------------------------------------------------------------------------ *)
(** ** Reading the proxy tokens of a text *)

Lemma scan_hit (re : RegExp) (s : jsstring) (n i : nat) (m : exec_result) :
  match_at re s i = Some m -> scan n re s i = Some m.
Proof. intros H. destruct n; simpl; now rewrite H. Qed.

Lemma scan_skip (re : RegExp) (s : jsstring) (k : nat) :
  forall n i,
    k <= n ->
    (forall j, j < k -> match_at re s (i + j) = None) ->
    scan n re s i = scan (n - k) re s (i + k).
Proof.
  induction k as [| k IH]; intros n i Hk Hnone.
  - now rewrite Nat.sub_0_r, Nat.add_0_r.
  - destruct n as [| n]; [lia |].
    pose proof (Hnone 0 ltac:(lia)) as H0. rewrite Nat.add_0_r in H0.
    cbn [scan]. rewrite H0.
    rewrite IH; [| lia |].
    + f_equal. lia.
    + intros j Hj. replace (S i + j) with (i + S j) by lia. apply Hnone. lia.
Qed.

Lemma scan_none (re : RegExp) (s : jsstring) :
  forall n i,
    (forall j, j <= n -> match_at re s (i + j) = None) ->
    scan n re s i = None.
Proof.
  induction n as [| n IH]; intros i Hnone.
  - pose proof (Hnone 0 ltac:(lia)) as H0. rewrite Nat.add_0_r in H0.
    simpl. now rewrite H0.
  - pose proof (Hnone 0 ltac:(lia)) as H0. rewrite Nat.add_0_r in H0.
    cbn [scan]. rewrite H0. apply IH.
    intros j Hj. replace (S i + j) with (i + S j) by lia. apply Hnone. lia.
Qed.

Lemma exec_loop_step (re : RegExp) (s : jsstring) (fuel i : nat) (m : exec_result) :
  exec re s i = Some m ->
  flag_g re = true ->
  m_index m < m_end m ->
  exec_loop (S fuel) re s i
  = match exec_loop fuel re s (m_end m) with
    | Some ms => Some (m :: ms)
    | None => None
    end.
Proof.
  intros He Hg Hlt. cbn [exec_loop]. rewrite He, Hg. cbn [negb orb].
  replace (m_end m <=? m_index m) with false by (symmetry; apply Nat.leb_gt; exact Hlt).
  reflexivity.
Qed.

Lemma exec_loop_done (re : RegExp) (s : jsstring) (fuel i : nat) :
  exec re s i = None -> exec_loop fuel re s i = Some [].
Proof. intros He. destruct fuel; cbn [exec_loop]; now rewrite He. Qed.

Lemma chr_member (a : ascii) (c : N) :
  set_member false [(ch a, ch a)] c = N.eqb (ch a) c.
Proof.
  unfold set_member, in_ranges. cbn [existsb fst snd andb orb].
  rewrite !orb_false_r.
  destruct (N.eqb_spec (ch a) c) as [-> | Hne].
  - now rewrite N.leb_refl.
  - destruct (N.leb_spec (ch a) c); destruct (N.leb_spec c (ch a)); try reflexivity. lia.
Qed.

Section AnonTokens.

Variable R : regex.

(** The literal [anon_] of the expression, where the subject has it. *)
Lemma anon_literal_hit (k : cont) (x : cursor) (cs : captures) (tl : jsstring) :
  c_rest x = lit "anon_" ++ tl ->
  rmatch false (Seq (str "anon_") R) k x cs
  = rmatch false R k (mkCursor (c_pos x + 5) (Some 95%N) tl) cs.
Proof.
  destruct x as [pos prev rest]. cbn [c_rest c_pos]. intros ->.
  replace (pos + 5) with (S (S (S (S (S pos))))) by lia.
  reflexivity.
Qed.

(** And where it has not. *)
Lemma anon_literal_miss (k : cont) (x : cursor) (cs : captures) :
  starts_with (lit "anon_") (c_rest x) = false ->
  rmatch false (Seq (str "anon_") R) k x cs = None.
Proof.
  destruct x as [pos prev rest]. cbn [c_rest]. intros H.
  change (str "anon_") with
    (Seq (chr "a") (Seq (chr "n") (Seq (chr "o") (Seq (chr "n") (chr "_"))))).
  change (lit "anon_") with [ch "a"; ch "n"; ch "o"; ch "n"; ch "_"] in H.
  unfold chr. cbn [rmatch c_rest c_pos xorb]. cbn [starts_with] in H.
  destruct rest as [| c1 rest]; [reflexivity |]. rewrite chr_member.
  destruct (N.eqb (ch "a") c1); [| reflexivity]. cbn [andb] in H.
  destruct rest as [| c2 rest]; [reflexivity |]. rewrite chr_member.
  destruct (N.eqb (ch "n") c2); [| reflexivity]. cbn [andb] in H.
  destruct rest as [| c3 rest]; [reflexivity |]. rewrite chr_member.
  destruct (N.eqb (ch "o") c3); [| reflexivity]. cbn [andb] in H.
  destruct rest as [| c4 rest]; [reflexivity |]. rewrite chr_member.
  destruct (N.eqb (ch "n") c4); [| reflexivity]. cbn [andb] in H.
  destruct rest as [| c5 rest]; [reflexivity |]. rewrite chr_member.
  destruct (N.eqb (ch "_") c5); [discriminate | reflexivity].
Qed.

End AnonTokens.

(** A greedy repetition of a class takes the whole run of characters of
    the class and stops where the subject ends or the class does. *)
Lemma repeat_class_run (rs : list (N * N)) (cs : captures) (rest : jsstring) :
  match rest with [] => True | c :: _ => set_member false rs c = false end ->
  forall body x fuel mn,
    c_rest x = body ++ rest ->
    Forall (fun c => set_member false rs c = true) body ->
    mn <= length body ->
    length body < fuel ->
    exists y,
      repeat_match (rmatch false (CharSet false rs)) (fun y cs' => Some (y, cs'))
        fuel mn None x cs = Some (y, cs) /\
      c_pos y = c_pos x + length body /\ c_rest y = rest.
Proof.
  intros Hrest. induction body as [| c tl IH]; intros x fuel mn Hx Hall Hmn Hfuel.
  - destruct fuel as [| fuel]; [simpl in Hfuel; lia |].
    simpl in Hmn. assert (mn = 0) by lia. subst mn.
    rewrite repeat_match_unbounded_eq, class_body_eq, Hx. cbn [app Nat.eqb].
    exists x. split; [| split; [simpl; lia | exact Hx]].
    destruct rest as [| c rest']; [reflexivity |]. now rewrite Hrest.
  - destruct fuel as [| fuel]; [simpl in Hfuel; lia |].
    inversion Hall as [| ? ? Hc Htl]; subst.
    rewrite repeat_match_unbounded_eq, class_body_eq, Hx. cbn [app]. rewrite Hc.
    cbn [c_pos].
    replace (S (c_pos x) =? c_pos x) with false
      by (symmetry; apply Nat.eqb_neq; lia).
    rewrite andb_false_r.
    destruct (IH (mkCursor (S (c_pos x)) (Some c) (tl ++ rest)) fuel (Nat.pred mn))
      as (y & Hy & Hpos & Hr);
      [reflexivity | exact Htl | simpl in Hmn; lia | simpl in Hfuel; lia |].
    rewrite Hy. exists y. split; [destruct (mn =? 0); reflexivity |].
    split; [cbn [c_pos] in Hpos; simpl; lia | exact Hr].
Qed.

Lemma alnum_member (c : N) : set_member false alnum_ranges c = is_alnum c.
Proof.
  unfold set_member, alnum_ranges, in_ranges, is_alnum, is_upper, is_lower, is_digit, rng.
  cbn [existsb fst snd andb].
  change (ch "a") with 97%N. change (ch "z") with 122%N. change (ch "A") with 65%N.
  change (ch "Z") with 90%N. change (ch "0") with 48%N. change (ch "9") with 57%N.
  rewrite !orb_false_r.
  destruct ((97 <=? c)%N && (c <=? 122)%N), ((65 <=? c)%N && (c <=? 90)%N),
    ((48 <=? c)%N && (c <=? 57)%N); reflexivity.
Qed.

Lemma cursor_at_rest (s : jsstring) (i : nat) : c_rest (cursor_at s i) = skipn i s.
Proof. reflexivity. Qed.

Lemma cursor_at_pos (s : jsstring) (i : nat) : c_pos (cursor_at s i) = i.
Proof. reflexivity. Qed.

(** A proxy token at index [i]: the expression matches it whole. *)
Lemma anon_token_at (s : jsstring) (i : nat) (body rest : jsstring) :
  skipn i s = lit "anon_" ++ body ++ rest ->
  body <> [] ->
  Forall (fun c => is_alnum c = true) body ->
  match rest with [] => True | c :: _ => is_alnum c = false end ->
  match_at anon_token_pattern s i = Some (mkExec i (i + 5 + length body) []).
Proof.
  intros Hs Hne Hall Hrest. unfold match_at.
  cbn [flag_i source anon_token_pattern].
  unfold anon_token_regex.
  rewrite (@anon_literal_hit _ _ _ _ (body ++ rest)) by (rewrite cursor_at_rest; exact Hs).
  unfold plus. rewrite rmatch_repeat_eq. cbn [c_rest c_pos].
  assert (Hrest' : match rest with
                    | [] => True
                    | c :: _ => set_member false alnum_ranges c = false
                    end).
  { destruct rest as [| c rest']; [exact I |]. rewrite alnum_member. exact Hrest. }
  assert (Hall' : Forall (fun c => set_member false alnum_ranges c = true) body).
  { apply Forall_forall. intros c Hc. rewrite alnum_member.
    rewrite Forall_forall in Hall. apply Hall. exact Hc. }
  destruct (@repeat_class_run alnum_ranges [] rest Hrest' body
              (mkCursor (i + 5) (Some 95%N) (body ++ rest))
              (S (1 + length (body ++ rest))) 1 eq_refl Hall')
    as (y & Hy & Hpos & _).
  - destruct body; [contradiction | simpl; lia].
  - rewrite length_app. lia.
  - rewrite cursor_at_pos. rewrite Hy. cbn [c_pos] in Hpos. rewrite Hpos. reflexivity.
Qed.

Lemma anon_token_miss (s : jsstring) (i : nat) :
  starts_with (lit "anon_") (skipn i s) = false ->
  match_at anon_token_pattern s i = None.
Proof.
  intros H. unfold match_at. cbn [flag_i source anon_token_pattern].
  unfold anon_token_regex. rewrite anon_literal_miss; [reflexivity |].
  rewrite cursor_at_rest. exact H.
Qed.

Lemma skipn_app_left (A : Type) (pre rest : list A) (j : nat) :
  j <= length pre -> skipn j (pre ++ rest) = skipn j pre ++ rest.
Proof.
  intros H. rewrite skipn_app. replace (j - length pre) with 0 by lia. reflexivity.
Qed.

Lemma skipn_app_right (A : Type) (pre rest : list A) (j : nat) :
  skipn (length pre + j) (pre ++ rest) = skipn j rest.
Proof.
  rewrite skipn_app. rewrite skipn_all2 by lia.
  replace (length pre + j - length pre) with j by lia. reflexivity.
Qed.

Lemma substring_middle (pre mid post : jsstring) :
  substring (pre ++ mid ++ post) (length pre) (length pre + length mid) = mid.
Proof.
  unfold substring. rewrite !length_app.
  rewrite (Nat.min_l (length pre)) by lia.
  rewrite (Nat.min_l (length pre + length mid)) by lia.
  rewrite Nat.min_l, Nat.max_r by lia.
  replace (length pre + length mid - length pre) with (length mid) by lia.
  rewrite <- (Nat.add_0_r (length pre)) at 1. rewrite skipn_app_right. cbn [skipn].
  rewrite firstn_app, firstn_all, Nat.sub_diag. cbn [firstn]. apply app_nil_r.
Qed.

(** Two proxy tokens in a text whose other parts hold no [anon_]: the
    expression finds the two, each up to the first character that is
    neither letter nor digit. *)
Lemma proxy_tokens_two (pre mid b1 b2 : jsstring) (c : N) (mid' : jsstring) :
  mid = c :: mid' ->
  is_alnum c = false ->
  (forall j, j < length pre ->
     starts_with (lit "anon_") (skipn j pre ++ (lit "anon_" ++ b1) ++ mid ++ lit "anon_" ++ b2)
     = false) ->
  (forall j, j < length mid ->
     starts_with (lit "anon_") (skipn j mid ++ lit "anon_" ++ b2) = false) ->
  b1 <> [] -> Forall (fun x => is_alnum x = true) b1 ->
  b2 <> [] -> Forall (fun x => is_alnum x = true) b2 ->
  proxy_tokens (pre ++ (lit "anon_" ++ b1) ++ mid ++ lit "anon_" ++ b2)
  = Some [lit "anon_" ++ b1; lit "anon_" ++ b2].
Proof.
  intros Hmid Hc Hpre Hmidfree Hb1 Hall1 Hb2 Hall2.
  set (T1 := lit "anon_" ++ b1). set (T2 := lit "anon_" ++ b2).
  set (text := pre ++ T1 ++ mid ++ T2).
  set (e1 := length pre + 5 + length b1).
  assert (HT1 : length T1 = 5 + length b1) by (unfold T1; rewrite length_app; reflexivity).
  assert (HT2 : length T2 = 5 + length b2) by (unfold T2; rewrite length_app; reflexivity).
  assert (Hn : length text = e1 + length mid + 5 + length b2).
  { unfold text, e1. rewrite !length_app, HT1, HT2. lia. }
  assert (Hm1 : match_at anon_token_pattern text (length pre)
                = Some (mkExec (length pre) e1 [])).
  { unfold e1. apply anon_token_at with (rest := mid ++ T2).
    - unfold text. rewrite <- (Nat.add_0_r (length pre)). rewrite skipn_app_right.
      cbn [skipn]. unfold T1. now rewrite <- app_assoc.
    - exact Hb1.
    - exact Hall1.
    - rewrite Hmid. exact Hc. }
  assert (Hm2 : match_at anon_token_pattern text (e1 + length mid)
                = Some (mkExec (e1 + length mid) (length text) [])).
  { replace (length text) with (e1 + length mid + 5 + length b2) by (symmetry; exact Hn).
    apply anon_token_at with (rest := []).
    - unfold text. rewrite !app_assoc. rewrite <- (app_assoc pre T1 mid).
      replace (e1 + length mid) with (length (pre ++ T1 ++ mid) + 0)
        by (rewrite !length_app, HT1; unfold e1; lia).
      rewrite skipn_app_right. cbn [skipn]. unfold T2. now rewrite app_nil_r.
    - exact Hb2.
    - exact Hall2.
    - exact I. }
  assert (He1 : exec anon_token_pattern text 0 = Some (mkExec (length pre) e1 [])).
  { unfold exec. cbn [flag_g anon_token_pattern]. cbn [Nat.ltb Nat.leb].
    rewrite Nat.sub_0_r.
    rewrite (@scan_skip anon_token_pattern text (length pre)); [| lia |].
    - apply scan_hit. exact Hm1.
    - intros j Hj. cbn [Nat.add]. apply anon_token_miss.
      unfold text. rewrite skipn_app_left by lia. apply Hpre. exact Hj. }
  assert (He2 : exec anon_token_pattern text e1
                = Some (mkExec (e1 + length mid) (length text) [])).
  { unfold exec. cbn [flag_g anon_token_pattern].
    replace (length text <? e1) with false by (symmetry; apply Nat.ltb_ge; lia).
    rewrite (@scan_skip anon_token_pattern text (length mid)); [| lia |].
    - apply scan_hit. exact Hm2.
    - intros j Hj. apply anon_token_miss.
      unfold text. rewrite app_assoc.
      replace (e1 + j) with (length (pre ++ T1) + j)
        by (rewrite length_app, HT1; unfold e1; lia).
      rewrite skipn_app_right. rewrite skipn_app_left by lia. apply Hmidfree. exact Hj. }
  assert (He3 : exec anon_token_pattern text (length text) = None).
  { unfold exec. cbn [flag_g anon_token_pattern].
    rewrite Nat.ltb_irrefl, Nat.sub_diag.
    apply scan_none. intros j Hj. apply anon_token_miss.
    rewrite skipn_all2 by lia. reflexivity. }
  unfold proxy_tokens, exec_all.
  replace (length text) with (S (S (length text - 2))) at 1 by lia.
  rewrite (@exec_loop_step _ _ _ _ _ He1) by (cbn [m_index m_end]; solve [reflexivity | unfold e1; lia]).
  cbn [m_end].
  rewrite (@exec_loop_step _ _ _ _ _ He2) by (cbn [m_index m_end]; solve [reflexivity | lia]).
  cbn [m_end].
  rewrite (@exec_loop_done _ _ _ _ He3).
  cbn [List.map]. unfold matched. cbn [m_index m_end].
  f_equal. f_equal; [| f_equal].
  - unfold text, e1. rewrite <- Nat.add_assoc, <- HT1. apply substring_middle.
  - unfold text.
    replace (pre ++ T1 ++ mid ++ T2) with ((pre ++ T1 ++ mid) ++ T2 ++ [])
      by (rewrite app_nil_r, <- !app_assoc; reflexivity).
    replace (e1 + length mid) with (length (pre ++ T1 ++ mid))
      by (rewrite !length_app, HT1; unfold e1; lia).
    replace (length ((pre ++ T1 ++ mid) ++ T2 ++ []))
      with (length (pre ++ T1 ++ mid) + length T2)
      by (rewrite !length_app; simpl; lia).
    apply substring_middle.
Qed.

(* ------------------------------------------------------------------------ *)
(** ** The example prompt, read back through its proxy tokens *)

Section C1RoundTrip.

Context {crypto : NodeCrypto}.
Variable salt : jsstring.

(** The proxy of the e-mail address is not a beginning of the first token
    as it stands in the anonymized prompt. *)
Hypothesis tokens_apart :
  starts_with (email_proxy salt) (c1_first_token salt) = false.

Lemma c1_proxies_differ : key_proxy salt <> email_proxy salt.
Proof.
  intros E. revert tokens_apart. unfold c1_first_token. rewrite <- E.
  rewrite starts_with_app. discriminate.
Qed.

Lemma c1_email_slice : shortHash (hashWithSalt c1_email salt) <> [].
Proof.
  intros E. revert tokens_apart.
  unfold c1_first_token, email_proxy, key_proxy, generateProxyToken. rewrite E.
  rewrite app_nil_r, <- app_assoc, starts_with_app. discriminate.
Qed.

Lemma c1_entries_two :
  c1_entries salt = [(email_proxy salt, c1_email); (key_proxy salt, c1_key_value)].
Proof.
  destruct (c1_entries_cases salt) as [[E _] | [_ E]]; [| exact E].
  exfalso. apply c1_proxies_differ. exact E.
Qed.

Lemma c1_restore_echo :
  restore_tokens (c1_echo salt) (c1_entries salt) = c1_restored.
Proof.
  rewrite c1_entries_two. cbn [restore_tokens fold_left fst snd].
  destruct (anon_proxy_shape salt c1_key_value) as (a & Hp1 & Ha).
  destruct (anon_proxy_shape salt c1_email) as (b & Hp2 & Hb).
  fold (key_proxy salt) in Hp1. fold (email_proxy salt) in Hp2.
  assert (Hu : ~ In underscore (lit "anon")) by (apply not_in_by; reflexivity).
  assert (Htext : ~ In underscore (lit "bcdef ")) by (apply not_in_by; reflexivity).
  assert (Hne1 : key_proxy salt <> []) by (rewrite Hp1; discriminate).
  assert (Hne2 : email_proxy salt <> []) by (rewrite Hp2; discriminate).
  assert (Hecho : c1_echo salt = key_proxy salt ++ lit "bcdef " ++ email_proxy salt).
  { unfold c1_echo, c1_first_token. rewrite <- !app_assoc. reflexivity. }
  assert (Hq2 : quiet (length (lit "anon")) underscore (email_proxy salt)).
  { rewrite Hp2. rewrite <- (app_nil_r (lit "anon" ++ underscore :: b)).
    apply quiet_proxy. exact Hu. }
  assert (Hstep1 : replace_all (c1_echo salt) (email_proxy salt) c1_email
                   = key_proxy salt ++ lit "bcdef " ++ c1_email).
  { unfold replace_all. rewrite Hecho at 2.
    rewrite replace_from_copy.
    - f_equal. rewrite replace_from_copy.
      + f_equal. apply replace_from_self; [exact Hne2 | apply c1_plain_email].
      + rewrite Hp2. apply no_hit_in_text; [exact Htext |].
        rewrite <- Hp2. exact Hq2.
    - intros j Hj. destruct j as [| j].
      + cbn [skipn].
        change (lit "bcdef " ++ email_proxy salt)
          with (lit "bcdef" ++ 32%N :: email_proxy salt).
        rewrite app_assoc. rewrite starts_with_sep by apply space_not_in_proxy.
        exact tokens_apart.
      + rewrite Hp2, Hp1. apply no_hit_in_proxy.
        * exact Ha.
        * apply quiet_app; [exact Htext | rewrite <- Hp2; exact Hq2].
        * lia.
        * rewrite <- Hp1. exact Hj. }
  rewrite Hstep1. unfold replace_all.
  rewrite replace_from_hit by (exact Hne1 || apply c1_plain_key).
  rewrite (@replace_from_absent (key_proxy salt) c1_key_value Hne1 underscore).
  - reflexivity.
  - rewrite Hp1. apply in_app_iff. right. left. reflexivity.
  - apply not_in_by. reflexivity.
Qed.

End C1RoundTrip.


